(** * Safe owner manager: owner reconciliation engine

    A shallow embedding of [lib/index.js] (the edit-distance revision of the
    library) and of the revision of the same file that carries the threshold
    guard, together with the properties of the reconciliation pipeline:
    owner alignment, edit script, linked-list simulator, transaction
    assembly and checksum. *)

From stdpp Require Import base list strings pretty.
From Stdlib Require Import ZArith Lia Ascii.

(** ** JavaScript values that flow through the pipeline

    Owner arrays hold strings, but [reorderNewOwners] writes [null]
    placeholders and an array read past the end gives [undefined]. *)

Inductive jsval : Type :=
  | JUndefined
  | JNull
  | JString (s : string).

#[global] Instance jsval_eq_dec : EqDecision jsval.
Proof. solve_decision. Defined.

#[global] Instance jsval_inhabited : Inhabited jsval := populate JUndefined.

#[global] Instance JString_inj : Inj (=) (=) JString.
Proof. by intros ?? [=]. Qed.

(** [!v] is [negb (truthy v)]: [undefined], [null] and the empty string are
    falsy. *)
Definition truthy (v : jsval) : bool :=
  match v with
  | JString s => negb (String.eqb s EmptyString)
  | _ => false
  end.

(** [a === b] on these values. *)
Definition strict_eq (a b : jsval) : bool := bool_decide (a = b).

(** Property keys are strings: [obj[null]] reads the property named
    ["null"]. *)
Definition toPropertyKey (v : jsval) : string :=
  match v with
  | JUndefined => "undefined"
  | JNull => "null"
  | JString s => s
  end.

(** [arr[i]]: reading past the end of an array gives [undefined]. *)
Definition arr_get (arr : list jsval) (i : nat) : jsval :=
  default JUndefined (arr !! i).

(** ** [Set] of strings, iterated in insertion order *)

Module JsSet.
Abbreviation t := (list string).

Definition has (s : t) (x : string) : bool := bool_decide (x ∈ s).

Definition add (s : t) (x : string) : t :=
  if has s x then s else s ++ [x].

Definition delete (s : t) (x : string) : t :=
  filter (λ y, y ≠ x) s.

(** [new Set(array)] *)
Definition of_array (l : list string) : t := foldl add [] l.

(** [Array.from(set)] *)
Definition to_array (s : t) : list string := s.
End JsSet.

(** ** Owner alignment: [reorderNewOwners] (lib/index.js, lines 180-207) *)

(** First loop: owners present in both lists keep their index, the other
    positions receive the [null] placeholder. *)
Definition alignStep (st : list jsval * JsSet.t) (owner : string)
  : list jsval * JsSet.t :=
  let '(reordered, remainingNewOwners) := st in
  if JsSet.has remainingNewOwners owner
  then (reordered ++ [JString owner], JsSet.delete remainingNewOwners owner)
  else (reordered ++ [JNull], remainingNewOwners).

(** Second loop: a falsy slot takes [remainingNewOwnersArray.shift()] while
    that array is not empty. *)
Definition fillStep (st : list jsval * list string) (i : nat)
  : list jsval * list string :=
  let '(reordered, remainingNewOwnersArray) := st in
  match remainingNewOwnersArray with
  | next :: rest =>
      if negb (truthy (arr_get reordered i))
      then (<[i := JString next]> reordered, rest)
      else st
  | [] => st
  end.

Definition reorderNewOwners (currentOwners newOwners : list string)
  : list jsval :=
  let '(reordered, remainingNewOwners) :=
    foldl alignStep ([], JsSet.of_array newOwners) currentOwners in
  let remainingNewOwnersArray := JsSet.to_array remainingNewOwners in
  let '(reordered, remainingNewOwnersArray) :=
    foldl fillStep (reordered, remainingNewOwnersArray)
          (seq 0 (length reordered)) in
  reordered ++ (JString <$> remainingNewOwnersArray).

(** ** Edit script: [calculateEditOperations] (lib/index.js, lines 210-283) *)

Inductive EditOperation : Type :=
  | OpSwap (oldOwner newOwner : jsval)
  | OpAdd (owner : jsval)
  | OpRemove (owner : jsval).

#[global] Instance EditOperation_eq_dec : EqDecision EditOperation.
Proof. solve_decision. Defined.

Inductive Error : Type :=
  | MissingRequiredParameters
  | InvalidSafeAddress (safeAddress : string)
  | InvalidEthereumAddress (addr : string)
  | StateFetchFailed
  | DuplicateAddresses
  | ThresholdTooBig
  | UnsupportedChainId (chainId : string)
  | DuplicateOwnerDetected (owner : string)
  | EditOperationsError.

(** The matrix is an array of rows. Every access below is in range; a row
    that does not exist would make the JavaScript throw, here the write is
    dropped and the read gives 0. *)
Definition dp_get (dp : list (list nat)) (i j : nat) : nat :=
  default 0 (dp !! i ≫= (.!! j)).

Definition dp_set (dp : list (list nat)) (i j v : nat) : list (list nat) :=
  match dp !! i with
  | Some row => <[i := <[j := v]> row]> dp
  | None => dp
  end.

(** [Array(m + 1).fill(null).map(() => Array(n + 1).fill(0))] *)
Definition dp_init (m n : nat) : list (list nat) :=
  replicate (S m) (replicate (S n) 0).

(** [for (let i = 0; i <= m; i++) dp[i][0] = i;] and the same for row 0 *)
Definition dp_base (m n : nat) (dp : list (list nat)) : list (list nat) :=
  let dp := foldl (λ dp i, dp_set dp i 0 i) dp (seq 0 (S m)) in
  foldl (λ dp j, dp_set dp 0 j j) dp (seq 0 (S n)).

(** Body of the inner loop at cell (i, j), 1 <= i, 1 <= j. *)
Definition dp_cell (currentOwners newOwners : list jsval)
    (i : nat) (dp : list (list nat)) (j : nat) : list (list nat) :=
  let currentOwner := arr_get currentOwners (i - 1) in
  let newOwner := arr_get newOwners (j - 1) in
  if strict_eq currentOwner newOwner
  then dp_set dp i j (dp_get dp (i - 1) (j - 1))
  else
    let substitutionCost := dp_get dp (i - 1) (j - 1) + 1 in
    let insertionCost := dp_get dp i (j - 1) + 1 in
    let deletionCost := dp_get dp (i - 1) j + 1 in
    dp_set dp i j
      (Nat.min (Nat.min substitutionCost insertionCost) deletionCost).

Definition dp_fill (currentOwners newOwners : list jsval)
    (dp : list (list nat)) : list (list nat) :=
  let m := length currentOwners in
  let n := length newOwners in
  foldl (λ dp i, foldl (dp_cell currentOwners newOwners i) dp (seq 1 n))
        dp (seq 1 m).

(** The backtracking loop [while (i > 0 || j > 0)]. Each iteration lowers
    [i], or keeps [i] and lowers [j], or throws, so the loop is a recursion
    on [i] with an inner recursion on [j]; [operations.unshift(op)] is a
    cons on the accumulator. *)
Fixpoint backtrack (currentOwners newOwners : list jsval)
    (dp : list (list nat)) (i : nat)
  : nat → list EditOperation → Error + list EditOperation :=
  fix inner (j : nat) (operations : list EditOperation) :=
    match i, j with
    | 0, 0 => inr operations
    | S i', S j' =>
        if strict_eq (arr_get currentOwners i') (arr_get newOwners j')
        then backtrack currentOwners newOwners dp i' j' operations
        else if dp_get dp i j =? dp_get dp i' j' + 1
        then backtrack currentOwners newOwners dp i' j'
               (OpSwap (arr_get currentOwners i') (arr_get newOwners j')
                  :: operations)
        else if dp_get dp i j =? dp_get dp i j' + 1
        then inner j' (OpAdd (arr_get newOwners j') :: operations)
        else if dp_get dp i j =? dp_get dp i' j + 1
        then backtrack currentOwners newOwners dp i' j
               (OpRemove (arr_get currentOwners i') :: operations)
        else inl EditOperationsError
    | 0, S j' =>
        if dp_get dp i j =? dp_get dp i j' + 1
        then inner j' (OpAdd (arr_get newOwners j') :: operations)
        else inl EditOperationsError
    | S i', 0 =>
        if dp_get dp i j =? dp_get dp i' j + 1
        then backtrack currentOwners newOwners dp i' j
               (OpRemove (arr_get currentOwners i') :: operations)
        else inl EditOperationsError
    end.

Definition calculateEditOperations (currentOwners newOwners : list jsval)
  : Error + list EditOperation :=
  let m := length currentOwners in
  let n := length newOwners in
  let dp := dp_init m n in
  let dp := dp_base m n dp in
  let dp := dp_fill currentOwners newOwners dp in
  backtrack currentOwners newOwners dp m n [].

(** ** Linked-list simulator (lib/index.js, lines 285-298 and 386-411)

    [ownerLinkedList] is a plain object used as a map from an address to
    its successor. [Object.entries] lists the properties in insertion
    order (addresses are never array-index keys), assigning to an existing
    property keeps its place, assigning to a new one appends it. *)

Module JsObject.
Abbreviation t := (list (string * jsval)).

(** [obj[k]] *)
Fixpoint get (obj : t) (k : string) : jsval :=
  match obj with
  | [] => JUndefined
  | (k', v) :: rest => if decide (k' = k) then v else get rest k
  end.

(** [obj[k] = v] *)
Fixpoint set (obj : t) (k : string) (v : jsval) : t :=
  match obj with
  | [] => [(k, v)]
  | (k', v') :: rest =>
      if decide (k' = k) then (k', v) :: rest else (k', v') :: set rest k v
  end.

(** [delete obj[k]] *)
Definition delete (obj : t) (k : string) : t :=
  filter (λ e, e.1 ≠ k) obj.

(** [Object.entries(obj)] *)
Definition entries (obj : t) : list (string * jsval) := obj.
End JsObject.

Definition SENTINEL_OWNERS : string :=
  "0x0000000000000000000000000000000000000001".
Arguments SENTINEL_OWNERS : simpl never.

(** [for (let i = 0; i < currentOwners.length - 1; i++)
       ownerLinkedList[currentOwners[i]] = currentOwners[i + 1];] *)
Fixpoint linkSuccessors (currentOwners : list string)
    (ownerLinkedList : JsObject.t) : JsObject.t :=
  match currentOwners with
  | owner :: ((next :: _) as rest) =>
      linkSuccessors rest (JsObject.set ownerLinkedList owner (JString next))
  | _ => ownerLinkedList
  end.

Definition buildOwnerLinkedList (currentOwners : list string)
    (sentinel : string) : JsObject.t :=
  let first := arr_get (JString <$> currentOwners) 0 in
  let ownerLinkedList :=
    JsObject.set [] sentinel
      (if truthy first then first else JString sentinel) in
  let ownerLinkedList := linkSuccessors currentOwners ownerLinkedList in
  match last currentOwners with
  | Some lastOwner => JsObject.set ownerLinkedList lastOwner (JString sentinel)
  | None => ownerLinkedList
  end.

Fixpoint getPrevOwner_entries (owner : jsval)
    (entries : list (string * jsval)) : jsval :=
  match entries with
  | [] => JNull
  | (key, value) :: rest =>
      if strict_eq value owner then JString key
      else getPrevOwner_entries owner rest
  end.

Definition getPrevOwner (owner : jsval) (ownerLinkedList : JsObject.t)
  : jsval :=
  getPrevOwner_entries owner (JsObject.entries ownerLinkedList).

(** The walk of [getLastOwner] reads the object without changing it, so a
    walk that has not stopped after more steps than the object has
    properties is on a cycle that avoids the sentinel and never stops:
    [None] stands for that. *)
Fixpoint getLastOwner_loop (fuel : nat) (ownerLinkedList : JsObject.t)
    (sentinel : string) (currentOwner : jsval) : option jsval :=
  match fuel with
  | 0 => None
  | S fuel =>
      let next := JsObject.get ownerLinkedList (toPropertyKey currentOwner) in
      if truthy next && negb (strict_eq next (JString sentinel))
      then getLastOwner_loop fuel ownerLinkedList sentinel next
      else Some currentOwner
  end.

Definition getLastOwner (ownerLinkedList : JsObject.t) (sentinel : string)
  : option jsval :=
  getLastOwner_loop (S (length ownerLinkedList)) ownerLinkedList sentinel
    (JString sentinel).

(** Swap: [updateOwnerLinkedList]. *)
Definition updateOwnerLinkedList (oldOwner newOwner : jsval)
    (ownerLinkedList : JsObject.t) : JsObject.t :=
  let prevOwner := getPrevOwner oldOwner ownerLinkedList in
  let ownerLinkedList :=
    JsObject.set ownerLinkedList (toPropertyKey prevOwner) newOwner in
  let ownerLinkedList :=
    JsObject.set ownerLinkedList (toPropertyKey newOwner)
      (JsObject.get ownerLinkedList (toPropertyKey oldOwner)) in
  JsObject.delete ownerLinkedList (toPropertyKey oldOwner).

(** Remove: the three statements after the [removeOwner] push
    (lines 112-114). *)
Definition applyRemove (owner : jsval) (ownerLinkedList : JsObject.t)
  : JsObject.t :=
  let prev := getPrevOwner owner ownerLinkedList in
  let ownerLinkedList :=
    JsObject.set ownerLinkedList (toPropertyKey prev)
      (JsObject.get ownerLinkedList (toPropertyKey owner)) in
  JsObject.delete ownerLinkedList (toPropertyKey owner).

(** Add: the three statements after the [addOwnerWithThreshold] push
    (lines 126-128). *)
Definition applyAdd (owner : jsval) (ownerLinkedList : JsObject.t)
  : option JsObject.t :=
  lastOwner ← getLastOwner ownerLinkedList SENTINEL_OWNERS;
  let ownerLinkedList :=
    JsObject.set ownerLinkedList (toPropertyKey lastOwner) owner in
  Some (JsObject.set ownerLinkedList (toPropertyKey owner)
          (JString SENTINEL_OWNERS)).

(** The mutation that follows each emitted operation. *)
Definition applyOperation (ownerLinkedList : JsObject.t) (op : EditOperation)
  : option JsObject.t :=
  match op with
  | OpRemove owner => Some (applyRemove owner ownerLinkedList)
  | OpAdd owner => applyAdd owner ownerLinkedList
  | OpSwap oldOwner newOwner =>
      Some (updateOwnerLinkedList oldOwner newOwner ownerLinkedList)
  end.

(** ** Transaction descriptors (lib/index.js, lines 300-384) *)

Record ContractInput : Type := mkInput {
  internalType : string;
  input_name : string;
  input_type : string;
}.

Record ContractMethod : Type := mkMethod {
  inputs : list ContractInput;
  method_name : string;
  payable : bool;
}.

Record Transaction : Type := mkTransaction {
  tx_to : string;
  tx_value : string;
  tx_data : jsval;
  contractMethod : ContractMethod;
  contractInputsValues : list (string * jsval);
}.

#[global] Instance ContractInput_eq_dec : EqDecision ContractInput.
Proof. solve_decision. Defined.
#[global] Instance ContractMethod_eq_dec : EqDecision ContractMethod.
Proof. solve_decision. Defined.
#[global] Instance Transaction_eq_dec : EqDecision Transaction.
Proof. solve_decision. Defined.

Definition addressInput (name : string) : ContractInput :=
  mkInput "address" name "address".

Definition uint256Input (name : string) : ContractInput :=
  mkInput "uint256" name "uint256".

(** [threshold.toString()] *)
Definition numberToString (z : Z) : string := pretty z.

Definition createSwapOwnerTransaction (safeAddress : string)
    (oldOwner newOwner : jsval) (ownerLinkedList : JsObject.t)
  : Transaction :=
  {| tx_to := safeAddress;
     tx_value := "0";
     tx_data := JNull;
     contractMethod :=
       {| inputs := [addressInput "prevOwner"; addressInput "oldOwner";
                     addressInput "newOwner"];
          method_name := "swapOwner";
          payable := false |};
     contractInputsValues :=
       [("prevOwner", getPrevOwner oldOwner ownerLinkedList);
        ("oldOwner", oldOwner);
        ("newOwner", newOwner)] |}.

Definition createAddOwnerTransaction (safeAddress : string)
    (newOwner : jsval) (threshold : Z) : Transaction :=
  {| tx_to := safeAddress;
     tx_value := "0";
     tx_data := JNull;
     contractMethod :=
       {| inputs := [addressInput "owner"; uint256Input "_threshold"];
          method_name := "addOwnerWithThreshold";
          payable := false |};
     contractInputsValues :=
       [("owner", newOwner);
        ("_threshold", JString (numberToString threshold))] |}.

Definition createRemoveOwnerTransaction (safeAddress : string)
    (oldOwner : jsval) (threshold : Z) (ownerLinkedList : JsObject.t)
  : Transaction :=
  {| tx_to := safeAddress;
     tx_value := "0";
     tx_data := JNull;
     contractMethod :=
       {| inputs := [addressInput "prevOwner"; addressInput "owner";
                     uint256Input "_threshold"];
          method_name := "removeOwner";
          payable := false |};
     contractInputsValues :=
       [("prevOwner", getPrevOwner oldOwner ownerLinkedList);
        ("owner", oldOwner);
        ("_threshold", JString (numberToString threshold))] |}.

Definition createChangeThresholdTransaction (safeAddress : string)
    (newThreshold : Z) : Transaction :=
  {| tx_to := safeAddress;
     tx_value := "0";
     tx_data := JNull;
     contractMethod :=
       {| inputs := [uint256Input "_threshold"];
          method_name := "changeThreshold";
          payable := false |};
     contractInputsValues :=
       [("_threshold", JString (numberToString newThreshold))] |}.

(** ** The batch and its JSON form *)

Record Meta : Type := mkMeta {
  meta_name : string;
  description : string;
  txBuilderVersion : string;
  createdFromSafeAddress : string;
  createdFromOwnerAddress : string;
  checksum : string;
}.

Record Batch : Type := mkBatch {
  version : string;
  batch_chainId : string;
  createdAt : Z;
  meta : Meta;
  transactions : list Transaction;
}.

#[local] Set Warnings "-register-all".
Inductive json : Type :=
  | JsonUndefined
  | JsonNull
  | JsonBool (b : bool)
  | JsonNumber (z : Z)
  | JsonString (s : string)
  | JsonArray (items : list json)
  | JsonObject (props : list (string * json)).

Definition json_of_jsval (v : jsval) : json :=
  match v with
  | JUndefined => JsonUndefined
  | JNull => JsonNull
  | JString s => JsonString s
  end.

Definition json_of_input (i : ContractInput) : json :=
  JsonObject [("internalType", JsonString (internalType i));
              ("name", JsonString (input_name i));
              ("type", JsonString (input_type i))].

Definition json_of_method (m : ContractMethod) : json :=
  JsonObject [("inputs", JsonArray (json_of_input <$> inputs m));
              ("name", JsonString (method_name m));
              ("payable", JsonBool (payable m))].

Definition json_of_transaction (t : Transaction) : json :=
  JsonObject
    [("to", JsonString (tx_to t));
     ("value", JsonString (tx_value t));
     ("data", json_of_jsval (tx_data t));
     ("contractMethod", json_of_method (contractMethod t));
     ("contractInputsValues",
      JsonObject (prod_map id json_of_jsval <$> contractInputsValues t))].

Definition json_of_meta (m : Meta) : json :=
  JsonObject
    [("name", JsonString (meta_name m));
     ("description", JsonString (description m));
     ("txBuilderVersion", JsonString (txBuilderVersion m));
     ("createdFromSafeAddress", JsonString (createdFromSafeAddress m));
     ("createdFromOwnerAddress", JsonString (createdFromOwnerAddress m));
     ("checksum", JsonString (checksum m))].

Definition json_of_batch (b : Batch) : json :=
  JsonObject
    [("version", JsonString (version b));
     ("chainId", JsonString (batch_chainId b));
     ("createdAt", JsonNumber (createdAt b));
     ("meta", json_of_meta (meta b));
     ("transactions", JsonArray (json_of_transaction <$> transactions b))].

(** ** The outside world

    What the pipeline obtains from its collaborators: the address
    normaliser of the ethers library ([None] when it throws), the string
    primitives of the runtime, the two read calls on the deployed contract
    behind a provider URL ([None] when the call is rejected), the clock and
    the hash. *)

Record World : Type := mkWorld {
  trim : string → string;
  getAddress : string → option string;
  getOwners : string → string → option (list string);
  getThreshold : string → string → option Z;
  dateNow : Z;
  quoteJSONString : string → string;
  keccak256 : string → string;
}.

(** ** Checksum: [calculateChecksum] (lib/index.js, lines 413-425) *)

(** [JSON.parse(JSON.stringify(x))]: properties holding [undefined] are
    dropped and [undefined] array items become [null]. *)
Fixpoint json_clone (v : json) : json :=
  match v with
  | JsonArray items =>
      JsonArray
        (map (λ x, match x with
                   | JsonUndefined => JsonNull
                   | _ => json_clone x
                   end) items)
  | JsonObject props =>
      JsonObject
        (omap (λ kv, match kv.2 with
                     | JsonUndefined => None
                     | _ => Some kv
                     end)
           (map (λ kv, (kv.1, json_clone kv.2)) props))
  | _ => v
  end.

(** [obj[k]] on a property list, [None] when the property is absent. *)
Fixpoint prop_lookup {V : Type} (props : list (string * V)) (k : string)
  : option V :=
  match props with
  | [] => None
  | (k', v) :: rest => if decide (k' = k) then Some v else prop_lookup rest k
  end.

Fixpoint json_set (props : list (string * json)) (k : string) (v : json)
  : list (string * json) :=
  match props with
  | [] => [(k, v)]
  | (k', v') :: rest =>
      if decide (k' = k) then (k', v) :: rest else (k', v') :: json_set rest k v
  end.

(** [Object.keys(obj)] *)
Definition json_keys (v : json) : list string :=
  match v with
  | JsonObject props => fst <$> props
  | _ => []
  end.

(** [keys.sort()]: code-unit order, by insertion. *)
Fixpoint sort_insert (k : string) (sorted : list string) : list string :=
  match sorted with
  | [] => [k]
  | k' :: rest =>
      if String.leb k k' then k :: sorted else k' :: sort_insert k rest
  end.

Definition sort_keys (keys : list string) : list string :=
  foldr sort_insert [] keys.

Definition join_comma (parts : list string) : string :=
  match parts with
  | [] => EmptyString
  | p :: ps => foldl (λ acc q, acc +:+ "," +:+ q) p ps
  end.

(** [JSON.stringify(value, allowlist)] with an array as second argument: in
    every object of the tree, at every depth, only the properties named in
    the array are written, in the order of the array. [None] is the
    [undefined] result. *)
Fixpoint stringifyWithAllowlist (quote : string → string)
    (allowlist : list string) (v : json) : option string :=
  match v with
  | JsonUndefined => None
  | JsonNull => Some "null"
  | JsonBool b => Some (if b then "true" else "false")
  | JsonNumber z => Some (numberToString z)
  | JsonString s => Some (quote s)
  | JsonArray items =>
      Some ("[" +:+
            join_comma
              (map (λ x, default "null"
                           (stringifyWithAllowlist quote allowlist x)) items)
            +:+ "]")
  | JsonObject props =>
      let written :=
        map (λ kv, (kv.1, stringifyWithAllowlist quote allowlist kv.2))
            props in
      Some ("{" +:+
            join_comma
              (omap (λ k, s ← mjoin (prop_lookup written k);
                          Some (quote k +:+ ":" +:+ s))
                    allowlist)
            +:+ "}")
  end.

(** The first two statements of [calculateChecksum]: the clone, and
    [dataForChecksum.meta.checksum = ''] on it. [jsonData] is always the
    object built by [generateTransactions]; for a value without a [meta]
    object the assignment is skipped here, the JavaScript would throw. *)
Definition blankChecksum (jsonData : json) : json :=
  let dataForChecksum := json_clone jsonData in
  match dataForChecksum with
  | JsonObject props =>
      match prop_lookup props "meta" with
      | Some (JsonObject metaProps) =>
          JsonObject
            (json_set props "meta"
               (JsonObject
                  (json_set metaProps "checksum" (JsonString EmptyString))))
      | _ => dataForChecksum
      end
  | _ => dataForChecksum
  end.

Definition calculateChecksum (w : World) (jsonData : json) : string :=
  let dataForChecksum := blankChecksum jsonData in
  let jsonString :=
    default "undefined"
      (stringifyWithAllowlist (quoteJSONString w)
         (sort_keys (json_keys dataForChecksum)) dataForChecksum) in
  "0x" +:+ keccak256 w jsonString.

(** ** Outcomes of a run

    A run returns, throws, or (only through the walk of [getLastOwner] on a
    list with a cycle that avoids the sentinel) never returns. *)

Inductive Outcome (A : Type) : Type :=
  | Returned (a : A)
  | Thrown (e : Error)
  | Diverges.
Arguments Returned {A} a.
Arguments Thrown {A} e.
Arguments Diverges {A}.

#[global] Instance Outcome_ret : MRet Outcome := @Returned.
#[global] Instance Outcome_bind : MBind Outcome := λ A B f m,
  match m with
  | Returned a => f a
  | Thrown e => Thrown e
  | Diverges => Diverges
  end.

Definition orThrow {A : Type} (e : Error) (o : option A) : Outcome A :=
  match o with
  | Some a => Returned a
  | None => Thrown e
  end.

Definition orDiverge {A : Type} (o : option A) : Outcome A :=
  match o with
  | Some a => Returned a
  | None => Diverges
  end.

Definition ofSum {A : Type} (r : Error + A) : Outcome A :=
  match r with
  | inl e => Thrown e
  | inr a => Returned a
  end.

(** [array.map(f)] where [f] may throw: the first failure aborts. *)
Fixpoint mapThrowing {A B : Type} (f : A → Outcome B) (l : list A)
  : Outcome (list B) :=
  match l with
  | [] => Returned []
  | x :: rest =>
      y ← f x;
      ys ← mapThrowing f rest;
      Returned (y :: ys)
  end.

(** ** [generateTransactions] (lib/index.js, lines 17-177) *)

Record Options : Type := mkOptions {
  safeAddress : jsval;
  newOwners : option (list string);
  chainId : jsval;
  newThreshold : option Z;
  alchemyApiKey : jsval;
}.

Record LoopState : Type := mkLoopState {
  ls_transactions : list Transaction;
  ls_ownerLinkedList : JsObject.t;
  ls_hasAddOrRemove : bool;
}.

(** One iteration of [for (const op of operations)] (lines 99-142): the
    descriptor is built from the list as it stands, then the list is
    mutated. *)
Definition processOperation (safeAddressChecksum : string) (threshold : Z)
    (st : LoopState) (op : EditOperation) : Outcome LoopState :=
  let ownerLinkedList := ls_ownerLinkedList st in
  match op with
  | OpRemove owner =>
      let tx := createRemoveOwnerTransaction safeAddressChecksum owner
                  threshold ownerLinkedList in
      Returned {| ls_transactions := ls_transactions st ++ [tx];
                  ls_ownerLinkedList := applyRemove owner ownerLinkedList;
                  ls_hasAddOrRemove := true |}
  | OpAdd owner =>
      let tx := createAddOwnerTransaction safeAddressChecksum owner
                  threshold in
      ownerLinkedList ← orDiverge (applyAdd owner ownerLinkedList);
      Returned {| ls_transactions := ls_transactions st ++ [tx];
                  ls_ownerLinkedList := ownerLinkedList;
                  ls_hasAddOrRemove := true |}
  | OpSwap oldOwner newOwner =>
      let tx := createSwapOwnerTransaction safeAddressChecksum oldOwner
                  newOwner ownerLinkedList in
      Returned {| ls_transactions := ls_transactions st ++ [tx];
                  ls_ownerLinkedList :=
                    updateOwnerLinkedList oldOwner newOwner ownerLinkedList;
                  ls_hasAddOrRemove := ls_hasAddOrRemove st |}
  end.

Fixpoint processOperations (safeAddressChecksum : string) (threshold : Z)
    (st : LoopState) (operations : list EditOperation) : Outcome LoopState :=
  match operations with
  | [] => Returned st
  | op :: rest =>
      st ← processOperation safeAddressChecksum threshold st op;
      processOperations safeAddressChecksum threshold st rest
  end.

Definition isSwap (op : EditOperation) : bool :=
  match op with
  | OpSwap _ _ => true
  | _ => false
  end.

(** Lines 83-153: from the fetched state and the validated input to the
    list of transactions. *)
Definition buildTransactions (safeAddressChecksum : string)
    (currentOwners : list string) (currentThreshold : Z)
    (validatedNewOwners : list string) (threshold : Z)
  : Outcome (list Transaction) :=
  let reorderedNewOwners :=
    reorderNewOwners currentOwners validatedNewOwners in
  let ownerLinkedList :=
    buildOwnerLinkedList currentOwners SENTINEL_OWNERS in
  operations ← ofSum (calculateEditOperations (JString <$> currentOwners)
                        reorderedNewOwners);
  st ← processOperations safeAddressChecksum threshold
         {| ls_transactions := [];
            ls_ownerLinkedList := ownerLinkedList;
            ls_hasAddOrRemove := false |}
         operations;
  let txs := ls_transactions st in
  if bool_decide (threshold ≠ currentThreshold)
  then
    if negb (ls_hasAddOrRemove st) && existsb isSwap operations
    then Returned (txs ++
                   [createChangeThresholdTransaction safeAddressChecksum
                      threshold])
    else Returned txs
  else Returned txs.

(** [jsonOutput.meta.checksum = checksum] *)
Definition setChecksum (jsonOutput : Batch) (value : string) : Batch :=
  {| version := version jsonOutput;
     batch_chainId := batch_chainId jsonOutput;
     createdAt := createdAt jsonOutput;
     meta := {| meta_name := meta_name (meta jsonOutput);
                description := description (meta jsonOutput);
                txBuilderVersion := txBuilderVersion (meta jsonOutput);
                createdFromSafeAddress :=
                  createdFromSafeAddress (meta jsonOutput);
                createdFromOwnerAddress :=
                  createdFromOwnerAddress (meta jsonOutput);
                checksum := value |};
     transactions := transactions jsonOutput |}.

(** The object literal of lines 156-169 followed by the checksum stamp. *)
Definition finishBatch (w : World) (chainId safeAddressChecksum : string)
    (txs : list Transaction) : Batch :=
  let jsonOutput :=
    {| version := "1.0";
       batch_chainId := chainId;
       createdAt := dateNow w;
       meta := {| meta_name := "Transactions Batch";
                  description := EmptyString;
                  txBuilderVersion := "1.0.0";
                  createdFromSafeAddress := safeAddressChecksum;
                  createdFromOwnerAddress := EmptyString;
                  checksum := EmptyString |};
       transactions := txs |} in
  setChecksum jsonOutput (calculateChecksum w (json_of_batch jsonOutput)).

(** A required option is present when it is truthy. *)
Definition required (v : jsval) : option string :=
  if truthy v then Some (toPropertyKey v) else None.

Definition validateNewOwner (w : World) (addr : string) : Outcome string :=
  let address := trim w addr in
  orThrow (InvalidEthereumAddress addr) (getAddress w address).

Definition alchemyMainnetUrl (alchemyApiKey : string) : string :=
  "https://eth-mainnet.g.alchemy.com/v2/" +:+ alchemyApiKey.

Definition generateTransactions (w : World) (options : Options)
  : Outcome Batch :=
  match required (safeAddress options), newOwners options,
        required (chainId options), required (alchemyApiKey options) with
  | Some safeAddress, Some newOwners, Some chainId, Some alchemyApiKey =>
      safeAddressChecksum ←
        orThrow (InvalidSafeAddress safeAddress) (getAddress w safeAddress);
      validatedNewOwners ← mapThrowing (validateNewOwner w) newOwners;
      let provider := alchemyMainnetUrl alchemyApiKey in
      currentOwnersRaw ←
        orThrow StateFetchFailed (getOwners w provider safeAddressChecksum);
      currentOwners ←
        mapThrowing (λ addr, orThrow (InvalidEthereumAddress addr)
                               (getAddress w addr)) currentOwnersRaw;
      currentThreshold ←
        orThrow StateFetchFailed (getThreshold w provider safeAddressChecksum);
      let threshold := default currentThreshold (newThreshold options) in
      if bool_decide (length (JsSet.of_array validatedNewOwners)
                      ≠ length validatedNewOwners)
      then Thrown DuplicateAddresses
      else
        txs ←
          buildTransactions safeAddressChecksum currentOwners
            currentThreshold validatedNewOwners threshold;
        Returned (finishBatch w chainId safeAddressChecksum txs)
  | _, _, _, _ => Thrown MissingRequiredParameters
  end.

(** ** Reference edit distance

    The unit-cost edit distance by recursion on the first elements of the
    two sequences, independent of the matrix of [calculateEditOperations],
    and edit scripts with their cost. *)

Section EditDistance.
Context {A : Type} `{EqDecision A}.

Fixpoint edit_distance (a : list A) : list A → nat :=
  match a with
  | [] => λ b, length b
  | x :: a' =>
      fix against (b : list A) : nat :=
        match b with
        | [] => length a
        | y :: b' =>
            Nat.min
              (Nat.min (edit_distance a' b' + (if decide (x = y) then 0 else 1))
                       (against b' + 1))
              (edit_distance a' b + 1)
        end
  end.

(** [edit_script a b n]: [a] is turned into [b] by keeping equal elements
    and by [n] substitutions, insertions and deletions. *)
Inductive edit_script : list A → list A → nat → Prop :=
  | script_nil : edit_script [] [] 0
  | script_keep x a b n :
      edit_script a b n → edit_script (x :: a) (x :: b) n
  | script_subst x y a b n :
      edit_script a b n → edit_script (x :: a) (y :: b) (S n)
  | script_insert y a b n :
      edit_script a b n → edit_script a (y :: b) (S n)
  | script_delete x a b n :
      edit_script a b n → edit_script (x :: a) b (S n).
End EditDistance.

(** The distance between the first [i] current owners and the first [j] new
    owners, and what it means for the matrix to hold it in the cells
    selected by [P]. *)
Definition prefix_distance (currentOwners newOwners : list jsval)
    (i j : nat) : nat :=
  edit_distance (take i currentOwners) (take j newOwners).

Definition dp_shape (m n : nat) (dp : list (list nat)) : Prop :=
  length dp = S m ∧ ∀ i row, dp !! i = Some row → length row = S n.

Definition dp_known (currentOwners newOwners : list jsval)
    (P : nat → nat → Prop) (dp : list (list nat)) : Prop :=
  dp_shape (length currentOwners) (length newOwners) dp ∧
  ∀ i j, i ≤ length currentOwners → j ≤ length newOwners → P i j →
    dp_get dp i j = prefix_distance currentOwners newOwners i j.

(** ** The linked-list invariant

    [links prev owners final] are the successor entries of a list that
    runs from [prev] through [owners] to [final]; a well-formed simulator
    holds exactly the entries of the cycle through the sentinel. *)

Fixpoint links (prev : string) (owners : list string) (final : string)
  : list (string * jsval) :=
  match owners with
  | [] => [(prev, JString final)]
  | owner :: rest => (prev, JString owner) :: links owner rest final
  end.

(** The entries of [links] without the closing one. *)
Fixpoint innerLinks (prev : string) (owners : list string)
  : list (string * jsval) :=
  match owners with
  | [] => []
  | owner :: rest => (prev, JString owner) :: innerLinks owner rest
  end.

Definition lastOf (prev : string) (owners : list string) : string :=
  default prev (last owners).

Definition headOf (owners : list string) (final : string) : string :=
  default final (head owners).

Definition afterHead (owners : list string) (final : string)
  : list (string * jsval) :=
  match owners with
  | [] => []
  | owner :: rest => links owner rest final
  end.

(** [linkedListInvariant obj owners]: [owners] are distinct non-empty
    address strings other than the sentinel, and [obj] holds exactly the
    entries sentinel -> owner_1 -> ... -> owner_k -> sentinel. *)
Definition linkedListInvariant (obj : JsObject.t) (owners : list jsval)
  : Prop :=
  ∃ L : list string,
    owners = (JString <$> L) ∧
    NoDup (SENTINEL_OWNERS :: L) ∧
    (EmptyString ∉ L) ∧
    obj ≡ₚ links SENTINEL_OWNERS L SENTINEL_OWNERS.

(** Following the successors from [from] until the sentinel comes back;
    [None] when the walk meets a value that is not a string or does not
    come back within [fuel] steps. *)
Fixpoint walk (fuel : nat) (obj : JsObject.t) (from : string)
  : option (list jsval) :=
  match fuel with
  | 0 => None
  | S fuel =>
      match JsObject.get obj from with
      | JString next =>
          if decide (next = SENTINEL_OWNERS) then Some []
          else (JString next ::.) <$> walk fuel obj next
      | _ => None
      end
  end.

Definition walkOwners (obj : JsObject.t) : option (list jsval) :=
  walk (length obj) obj SENTINEL_OWNERS.

(** ** Replaying operations on an owner list

    Swap replaces the old owner by the new one, remove deletes, add
    appends (the simulator adds at the tail). *)
Definition replayOperation (owners : list jsval) (op : EditOperation)
  : list jsval :=
  match op with
  | OpSwap oldOwner newOwner =>
      (λ v, if decide (v = oldOwner) then newOwner else v) <$> owners
  | OpRemove owner => filter (λ v, v ≠ owner) owners
  | OpAdd owner => owners ++ [owner]
  end.

Definition replayOperations (owners : list jsval)
    (operations : list EditOperation) : list jsval :=
  foldl replayOperation owners operations.

(** The simulator after the same operations, starting from a given list. *)
Fixpoint replayLinkedList (ownerLinkedList : JsObject.t)
    (operations : list EditOperation) : option JsObject.t :=
  match operations with
  | [] => Some ownerLinkedList
  | op :: rest =>
      ownerLinkedList ← applyOperation ownerLinkedList op;
      replayLinkedList ownerLinkedList rest
  end.

(** An address that may enter the list: a non-empty string other than the
    sentinel. *)
Definition isNewAddress (v : jsval) : Prop :=
  match v with
  | JString s => s ≠ EmptyString ∧ s ≠ SENTINEL_OWNERS
  | _ => False
  end.

#[global] Instance isNewAddress_dec v : Decision (isNewAddress v).
Proof. destruct v; simpl; apply _. Defined.

(** An operation is applicable to an owner list when what it takes out is
    in the list and what it puts in is a new address not yet in it. *)
Definition applicable (owners : list jsval) (op : EditOperation) : Prop :=
  match op with
  | OpSwap oldOwner newOwner =>
      oldOwner ∈ owners ∧ isNewAddress newOwner ∧ newOwner ∉ owners
  | OpRemove owner => owner ∈ owners
  | OpAdd owner => isNewAddress owner ∧ owner ∉ owners
  end.

#[global] Instance applicable_dec owners op : Decision (applicable owners op).
Proof. destruct op; simpl; apply _. Defined.

Fixpoint applicableInOrder (owners : list jsval)
    (operations : list EditOperation) : Prop :=
  match operations with
  | [] => True
  | op :: rest =>
      applicable owners op ∧
      applicableInOrder (replayOperation owners op) rest
  end.

#[global] Instance applicableInOrder_dec owners operations :
  Decision (applicableInOrder owners operations).
Proof.
  revert owners. induction operations as [|op rest IH]; intros owners;
    simpl; apply _.
Defined.

(** The element before [x] in a sequence that starts at [prev]. *)
Fixpoint predecessorIn (prev : string) (owners : list string) (x : string)
  : string :=
  match owners with
  | [] => prev
  | owner :: rest =>
      if decide (owner = x) then prev else predecessorIn owner rest x
  end.

(** The state of the loop before the first operation. *)
Definition initialLoopState (currentOwners : list string) : LoopState :=
  {| ls_transactions := [];
     ls_ownerLinkedList := buildOwnerLinkedList currentOwners SENTINEL_OWNERS;
     ls_hasAddOrRemove := false |}.

(** The argument of a descriptor by name, [undefined] when absent. *)
Definition inputValue (tx : Transaction) (name : string) : jsval :=
  default JUndefined (prop_lookup (contractInputsValues tx) name).

(** The owner a swap or a remove takes out of the list. *)
Definition removedOwner (op : EditOperation) : option jsval :=
  match op with
  | OpSwap oldOwner _ => Some oldOwner
  | OpRemove owner => Some owner
  | OpAdd _ => None
  end.

(** The descriptor the loop pushes for an operation when the simulator is
    [ownerLinkedList]. *)
Definition descriptorFor (safeAddressChecksum : string) (threshold : Z)
    (ownerLinkedList : JsObject.t) (op : EditOperation) : Transaction :=
  match op with
  | OpRemove owner =>
      createRemoveOwnerTransaction safeAddressChecksum owner threshold
        ownerLinkedList
  | OpAdd owner =>
      createAddOwnerTransaction safeAddressChecksum owner threshold
  | OpSwap oldOwner newOwner =>
      createSwapOwnerTransaction safeAddressChecksum oldOwner newOwner
        ownerLinkedList
  end.

Definition isAddOrRemove (op : EditOperation) : bool :=
  match op with
  | OpSwap _ _ => false
  | _ => true
  end.

(** ** A small world for the worked examples

    The address normaliser of the examples accepts ["0x"] followed by forty
    hexadecimal digits and lower-cases the digits; the trim removes spaces
    at both ends; the digest is the text itself. The theorems that are
    stated for every world do not depend on these choices. *)

Definition isHexDigit (c : ascii) : bool :=
  let n := nat_of_ascii c in
  ((48 <=? n) && (n <=? 57)) || ((65 <=? n) && (n <=? 70))
  || ((97 <=? n) && (n <=? 102)).

Definition lowerHexDigit (c : ascii) : ascii :=
  let n := nat_of_ascii c in
  if (65 <=? n) && (n <=? 70) then ascii_of_nat (n + 32) else c.

Fixpoint mapString (f : ascii → ascii) (s : string)
  : string :=
  match s with
  | EmptyString => EmptyString
  | String c rest => String (f c) (mapString f rest)
  end.

Fixpoint allString (f : ascii → bool) (s : string) : bool :=
  match s with
  | EmptyString => true
  | String c rest => f c && allString f rest
  end.

Definition exampleGetAddress (s : string) : option string :=
  match s with
  | String "0"%char (String "x"%char digits) =>
      if (String.length digits =? 40) && allString isHexDigit digits
      then Some ("0x" +:+ mapString lowerHexDigit digits)
      else None
  | _ => None
  end.

Fixpoint dropSpaces (s : string) : string :=
  match s with
  | String " "%char rest => dropSpaces rest
  | _ => s
  end.

Definition exampleTrim (s : string) : string :=
  String.rev (dropSpaces (String.rev (dropSpaces s))).

Definition ownerA : string := "0xaaaaaaaaaaaaaaaaaaaaaaaaaaaaaaaaaaaaaaaa".
Definition ownerB : string := "0xbbbbbbbbbbbbbbbbbbbbbbbbbbbbbbbbbbbbbbbb".
Definition ownerC : string := "0xcccccccccccccccccccccccccccccccccccccccc".
Definition ownerD : string := "0xdddddddddddddddddddddddddddddddddddddddd".
Definition ownerE : string := "0xeeeeeeeeeeeeeeeeeeeeeeeeeeeeeeeeeeeeeeee".
Definition safeOne : string := "0x5afe5afe5afe5afe5afe5afe5afe5afe5afe5afe".

(** A world whose contract holds [owners] with threshold [thr]. *)
Definition exampleWorld (owners : list string) (thr : Z) : World :=
  {| trim := exampleTrim;
     getAddress := exampleGetAddress;
     getOwners := λ _ _, Some owners;
     getThreshold := λ _ _, Some thr;
     dateNow := 1732118540000%Z;
     quoteJSONString := λ s, "'" +:+ s +:+ "'";
     keccak256 := λ s, s |}.

Definition exampleOptions (owners : list string) (thr : option Z)
  : Options :=
  {| safeAddress := JString safeOne;
     newOwners := Some owners;
     chainId := JString "1";
     newThreshold := thr;
     alchemyApiKey := JString "key" |}.

(** ** The revision of lib/index.js with the threshold guard

    This revision diffs the aligned lists position by position instead of
    computing an edit script, selects the provider from the chain id, and
    checks the threshold against the number of new owners. Descriptors,
    simulator helpers and checksum are the same functions as above. *)

Module Guarded.

Record Options : Type := mkOptions {
  safeAddress : jsval;
  newOwners : option (list string);
  chainId : jsval;
  newThreshold : option Z;
  alchemyApiKey : jsval;
  rpcUrl : jsval;
}.

(** The [switch] of [getRpcUrl]: chain id, Alchemy host when the case uses
    the key, public endpoint. The first matching case is taken. *)
Definition rpcTable : list (string * option string * string) :=
  [("1", Some "eth-mainnet", "https://rpc.ankr.com/eth");
   ("5", Some "eth-goerli", "https://rpc.ankr.com/eth_goerli");
   ("11155111", Some "eth-sepolia", "https://rpc.sepolia.org");
   ("137", Some "polygon-mainnet", "https://polygon-rpc.com");
   ("80001", Some "polygon-mumbai", "https://rpc-mumbai.maticvigil.com");
   ("1101", None, "https://rpc.ankr.com/polygon_zkevm");
   ("56", None, "https://bsc-dataseed.binance.org/");
   ("97", None, "https://data-seed-prebsc-1-s1.binance.org:8545/");
   ("100", None, "https://rpc.gnosis.gateway.fm/");
   ("97", None, "https://rpc.chiado.gnosis.gateway.fm/");
   ("43114", None, "https://api.avax.network/ext/bc/C/rpc");
   ("43113", None, "https://api.avax-test.network/ext/bc/C/rpc");
   ("250", None, "https://rpc.ftm.tools/");
   ("4002", None, "https://rpc.testnet.fantom.network/");
   ("10", Some "opt-mainnet", "https://mainnet.optimism.io");
   ("420", Some "opt-goerli", "https://goerli.optimism.io");
   ("42161", Some "arb-mainnet", "https://arb1.arbitrum.io/rpc");
   ("421613", Some "arb-goerli", "https://goerli-rollup.arbitrum.io/rpc");
   ("8453", None, "https://base.llamarpc.com")].

Definition getRpcUrl (chainId : string) (alchemyApiKey customRpcUrl : jsval)
  : Outcome string :=
  if truthy customRpcUrl then Returned (toPropertyKey customRpcUrl)
  else
    match list_find (λ row, row.1.1 = chainId) rpcTable with
    | Some (_, (_, Some host, public)) =>
        if truthy alchemyApiKey
        then Returned ("https://" +:+ host +:+ ".g.alchemy.com/v2/"
                       +:+ toPropertyKey alchemyApiKey)
        else Returned public
    | Some (_, (_, None, public)) => Returned public
    | None => Thrown (UnsupportedChainId chainId)
    end.

(** [ownerLinkedList[sentinel] = currentOwners[0]] and the closing link are
    written without a check for the empty array in this revision. *)
Definition buildOwnerLinkedList (currentOwners : list string)
    (sentinel : string) : JsObject.t :=
  let owners := JString <$> currentOwners in
  let ownerLinkedList := JsObject.set [] sentinel (arr_get owners 0) in
  let ownerLinkedList := linkSuccessors currentOwners ownerLinkedList in
  let lastKey :=
    match last owners with
    | Some lastOwner => lastOwner
    | None => JUndefined
    end in
  JsObject.set ownerLinkedList (toPropertyKey lastKey) (JString sentinel).

(** [remaining.splice(remaining.indexOf(owner), 1)] *)
Fixpoint removeFirst (owner : string) (remaining : list string)
  : list string :=
  match remaining with
  | [] => []
  | x :: rest =>
      if decide (x = owner) then rest else x :: removeFirst owner rest
  end.

Definition alignStep (st : list jsval * list string) (owner : string)
  : list jsval * list string :=
  let '(reordered, remainingNewOwners) := st in
  if bool_decide (owner ∈ remainingNewOwners)
  then (reordered ++ [JString owner], removeFirst owner remainingNewOwners)
  else (reordered ++ [JNull], remainingNewOwners).

(** [reordered[i] = remainingNewOwners.shift()]: when nothing remains the
    slot receives [undefined]. *)
Definition fillStep (st : list jsval * list string) (i : nat)
  : list jsval * list string :=
  let '(reordered, remainingNewOwners) := st in
  if negb (truthy (arr_get reordered i))
  then
    match remainingNewOwners with
    | next :: rest => (<[i := JString next]> reordered, rest)
    | [] => (<[i := JUndefined]> reordered, [])
    end
  else st.

Definition reorderNewOwners (currentOwners newOwners : list string)
  : list jsval :=
  let '(reordered, remainingNewOwners) :=
    foldl alignStep ([], newOwners) currentOwners in
  let '(reordered, remainingNewOwners) :=
    foldl fillStep (reordered, remainingNewOwners)
          (seq 0 (length reordered)) in
  reordered ++ (JString <$> remainingNewOwners).

Record Collected : Type := mkCollected {
  swaps : list (jsval * jsval);
  ownersToRemove : list jsval;
  ownersToAdd : list jsval;
  interimOwnersSet : JsSet.t;
}.

(** One iteration of the collecting loop at index [i]. *)
Definition collectStep (currentOwners : list string)
    (newOwnersReordered : list jsval) (acc : Outcome Collected) (i : nat)
  : Outcome Collected :=
  c ← acc;
  let oldOwner := arr_get (JString <$> currentOwners) i in
  let newOwner := arr_get newOwnersReordered i in
  if truthy oldOwner && truthy newOwner then
    if negb (strict_eq oldOwner newOwner) then
      if JsSet.has (interimOwnersSet c) (toPropertyKey newOwner)
      then Thrown (DuplicateOwnerDetected (toPropertyKey newOwner))
      else Returned
             {| swaps := swaps c ++ [(oldOwner, newOwner)];
                ownersToRemove := ownersToRemove c;
                ownersToAdd := ownersToAdd c;
                interimOwnersSet :=
                  JsSet.add (JsSet.delete (interimOwnersSet c)
                               (toPropertyKey oldOwner))
                            (toPropertyKey newOwner) |}
    else Returned c
  else if truthy oldOwner && negb (truthy newOwner) then
    Returned {| swaps := swaps c;
                ownersToRemove := ownersToRemove c ++ [oldOwner];
                ownersToAdd := ownersToAdd c;
                interimOwnersSet :=
                  JsSet.delete (interimOwnersSet c) (toPropertyKey oldOwner) |}
  else if negb (truthy oldOwner) && truthy newOwner then
    if JsSet.has (interimOwnersSet c) (toPropertyKey newOwner)
    then Thrown (DuplicateOwnerDetected (toPropertyKey newOwner))
    else Returned
           {| swaps := swaps c;
              ownersToRemove := ownersToRemove c;
              ownersToAdd := ownersToAdd c ++ [newOwner];
              interimOwnersSet :=
                JsSet.add (interimOwnersSet c) (toPropertyKey newOwner) |}
  else Returned c.

(** From the fetched state and the validated input to the transactions.
    The three processing loops run one after the other with the loop body
    of the matching operation, so they are one pass over the swaps, then
    the removals, then the additions. *)
Definition buildTransactions (safeAddressChecksum : string)
    (currentOwners : list string) (currentThreshold : Z)
    (validatedNewOwners : list string) (threshold : Z)
  : Outcome (list Transaction) :=
  let newOwnersReordered :=
    reorderNewOwners currentOwners validatedNewOwners in
  let ownerLinkedList :=
    buildOwnerLinkedList currentOwners SENTINEL_OWNERS in
  c ← foldl (collectStep currentOwners newOwnersReordered)
         (Returned {| swaps := [];
                      ownersToRemove := [];
                      ownersToAdd := [];
                      interimOwnersSet := JsSet.of_array currentOwners |})
         (seq 0 (Nat.max (length currentOwners)
                         (length newOwnersReordered)));
  st ← processOperations safeAddressChecksum threshold
         {| ls_transactions := [];
            ls_ownerLinkedList := ownerLinkedList;
            ls_hasAddOrRemove := false |}
         ((uncurry OpSwap <$> swaps c)
          ++ (OpRemove <$> ownersToRemove c)
          ++ (OpAdd <$> ownersToAdd c));
  let txs := ls_transactions st in
  if bool_decide (threshold ≠ currentThreshold)
  then
    if negb (ls_hasAddOrRemove st) && (0 <? length (swaps c))
    then Returned (txs ++
                   [createChangeThresholdTransaction safeAddressChecksum
                      threshold])
    else Returned txs
  else Returned txs.

Definition generateTransactions (w : World) (options : Options)
  : Outcome Batch :=
  match required (safeAddress options), newOwners options,
        required (chainId options) with
  | Some safeAddress, Some newOwners, Some chainId =>
      safeAddressChecksum ←
        orThrow (InvalidSafeAddress safeAddress) (getAddress w safeAddress);
      validatedNewOwners ← mapThrowing (validateNewOwner w) newOwners;
      providerUrl ← getRpcUrl chainId (alchemyApiKey options)
                      (rpcUrl options);
      currentOwnersRaw ←
        orThrow StateFetchFailed
          (getOwners w providerUrl safeAddressChecksum);
      currentOwners ←
        mapThrowing (λ addr, orThrow (InvalidEthereumAddress addr)
                               (getAddress w addr)) currentOwnersRaw;
      currentThreshold ←
        orThrow StateFetchFailed
          (getThreshold w providerUrl safeAddressChecksum);
      let threshold := default currentThreshold (newThreshold options) in
      if bool_decide (length (JsSet.of_array validatedNewOwners)
                      ≠ length validatedNewOwners)
      then Thrown DuplicateAddresses
      else if bool_decide (Z.of_nat (length validatedNewOwners) < threshold)%Z
      then Thrown ThresholdTooBig
      else
        txs ←
          buildTransactions safeAddressChecksum currentOwners
            currentThreshold validatedNewOwners threshold;
        Returned (finishBatch w chainId safeAddressChecksum txs)
  | _, _, _ => Thrown MissingRequiredParameters
  end.

Definition exampleOptions (owners : list string) (thr : option Z)
  : Options :=
  {| safeAddress := JString safeOne;
     newOwners := Some owners;
     chainId := JString "1";
     newThreshold := thr;
     alchemyApiKey := JUndefined;
     rpcUrl := JUndefined |}.

End Guarded.

(** The target threshold exceeds [n]: the given threshold when there is
    one, otherwise whatever threshold the contract reports. *)
Definition thresholdExceeds (w : World) (newThreshold : option Z) (n : nat)
  : Prop :=
  match newThreshold with
  | Some t => (Z.of_nat n < t)%Z
  | None =>
      ∀ url safe thr, getThreshold w url safe = Some thr → (Z.of_nat n < thr)%Z
  end.

(** What [calculateChecksum] hashes for a batch with [n] transactions. *)
Definition hashedText (w : World) (version chainId : string) (createdAt : Z)
    (n : nat) : string :=
  let q := quoteJSONString w in
  "{" +:+
  join_comma
    [q "chainId" +:+ ":" +:+ q chainId;
     q "createdAt" +:+ ":" +:+ numberToString createdAt;
     q "meta" +:+ ":" +:+ "{}";
     q "transactions" +:+ ":" +:+
       ("[" +:+ join_comma (replicate n "{}") +:+ "]");
     q "version" +:+ ":" +:+ q version]
  +:+ "}".

(** Two batches that differ in the arguments of their only transaction and
    in the Safe address recorded in [meta]. *)
Definition batchSwapBforD (w : World) : Batch :=
  finishBatch w "1" safeOne
    [createSwapOwnerTransaction safeOne (JString ownerB) (JString ownerD)
       (buildOwnerLinkedList [ownerA; ownerB; ownerC] SENTINEL_OWNERS)].

Definition batchSwapCforE (w : World) : Batch :=
  finishBatch w "1" ownerA
    [createSwapOwnerTransaction ownerA (JString ownerC) (JString ownerE)
       (buildOwnerLinkedList [ownerA; ownerB; ownerC] SENTINEL_OWNERS)].

(** ** Reading the alignment

    [freeSlots] reads, left to right, the positions of the aligned list
    that do not hold an owner kept at its index: the positions of the
    current owners that are not desired, then everything past the end of
    the current owners. *)
Definition freeSlots (currentOwners desiredOwners : list string)
    (aligned : list jsval) : list jsval :=
  (snd <$> filter (λ cv, cv.1 ∉ desiredOwners) (zip currentOwners aligned))
  ++ drop (length currentOwners) aligned.

(** The slot of a current owner after the first loop. *)
Definition markOwner (remaining : list string) (owner : string) : jsval :=
  if bool_decide (owner ∈ remaining) then JString owner else JNull.

(** The second loop as a recursion over the slots. *)
Fixpoint fillHoles (slots : list jsval) (remaining : list string)
  : list jsval * list string :=
  match slots, remaining with
  | [], _ => ([], remaining)
  | _, [] => (slots, [])
  | v :: slots', next :: rest =>
      if negb (truthy v)
      then let '(filled, unused) := fillHoles slots' rest in
           (JString next :: filled, unused)
      else let '(filled, unused) := fillHoles slots' remaining in
           (v :: filled, unused)
  end.

(** ** Where the addresses of a batch come from *)

(** [s] is the normalised form of one of the new-owner inputs. *)
Definition fromInputs (w : World) (ownersIn : list string) (s : string)
  : Prop :=
  ∃ addr, addr ∈ ownersIn ∧ getAddress w (trim w addr) = Some s.

(** [s] is the normalised form of one of the fetched owners. *)
Definition fromChain (w : World) (raw : list string) (s : string) : Prop :=
  ∃ addr, addr ∈ raw ∧ getAddress w addr = Some s.

(** A value is [null] or a string from [known]. *)
Definition nullOrKnown (known : string → Prop) (v : jsval) : Prop :=
  v = JNull ∨ ∃ s, v = JString s ∧ known s.

(** What an operation takes from the two arrays it was computed from. *)
Definition operationFrom (currentOwners newOwners : list jsval)
    (op : EditOperation) : Prop :=
  match op with
  | OpSwap oldOwner newOwner =>
      oldOwner ∈ currentOwners ∧ newOwner ∈ newOwners
  | OpAdd owner => owner ∈ newOwners
  | OpRemove owner => owner ∈ currentOwners
  end.

(** The strings that can be keys of the simulator in a run. *)
Definition knownKey (currentOwners validatedNewOwners : list string)
    (k : string) : Prop :=
  k = SENTINEL_OWNERS ∨ k = "null"
  ∨ k ∈ currentOwners ∨ k ∈ validatedNewOwners.

(** Every key of the simulator is known and every value is [undefined],
    [null] or a known string. *)
Definition knownEntries (known : string → Prop) (obj : JsObject.t) : Prop :=
  ∀ k v, (k, v) ∈ obj → known k ∧ (v = JUndefined ∨ nullOrKnown known v).

(** The errors raised by the validation of the options. *)
Definition isValidationError (e : Error) : Prop :=
  match e with
  | MissingRequiredParameters
  | InvalidSafeAddress _
  | InvalidEthereumAddress _ => True
  | _ => False
  end.

(** The values an operation carries are [null] or known strings. *)
Definition operationKnown (known : string → Prop) (op : EditOperation)
  : Prop :=
  match op with
  | OpSwap oldOwner newOwner =>
      nullOrKnown known oldOwner ∧ nullOrKnown known newOwner
  | OpAdd owner => nullOrKnown known owner
  | OpRemove owner => nullOrKnown known owner
  end.

(** An address of the current or of the validated new owners. *)
Definition ownedAddress (currentOwners validatedNewOwners : list string)
    (s : string) : Prop :=
  s ∈ currentOwners ∨ s ∈ validatedNewOwners.

(** The arguments of a descriptor: the threshold, a predecessor (a key of
    the simulator or [null]), or an owner ([null] or an owned address). *)
Definition argumentKnown (currentOwners validatedNewOwners : list string)
    (name : string) (v : jsval) : Prop :=
  name = "_threshold"
  ∨ (name = "prevOwner"
     ∧ nullOrKnown (knownKey currentOwners validatedNewOwners) v)
  ∨ (name ∈ ["owner"; "oldOwner"; "newOwner"]
     ∧ nullOrKnown (ownedAddress currentOwners validatedNewOwners) v).

(** [ownerD] written in upper case with blanks around it. *)
Definition ownerDshouted : string :=
  "  0xDDDDDDDDDDDDDDDDDDDDDDDDDDDDDDDDDDDDDDDD ".

(** ** Aligned lists

    When the desired owners are at least as many as the current ones the
    aligned list has no placeholder: it is a list [d] of strings in which
    every current owner that is desired sits at its current index. A hole
    is a position whose current owner is not desired. *)
Definition alignedShape (cur d : list string) : Prop :=
  NoDup cur ∧ NoDup d ∧ length cur ≤ length d ∧
  ∀ i c, cur !! i = Some c → c ∈ d → d !! i = Some c.

Definition holesBefore (cur d : list string) (k : nat) : nat :=
  length (filter (λ c, c ∉ d) (take k cur)).

Definition isHole (cur d : list string) (k : nat) : Prop :=
  ∃ c, cur !! k = Some c ∧ c ∉ d.

(** The owners after the part of the script that turns the first [i]
    current owners into the first [j] aligned ones. *)
Definition ownersAt (cur d : list string) (i j : nat) : list jsval :=
  JString <$> (take j d ++ drop i cur).

(** ** Edit scripts as lists of operations

    [editScript a b ops]: reading [a] and [b] from left to right, a
    position where both hold the same owner is kept without an operation,
    a position where they differ is a swap, a position of [b] alone is an
    add and a position of [a] alone is a remove; [ops] lists the
    operations in that order. *)
Inductive editScript
  : list jsval → list jsval → list EditOperation → Prop :=
  | editScript_nil : editScript [] [] []
  | editScript_keep a b ops x :
      editScript a b ops → editScript (a ++ [x]) (b ++ [x]) ops
  | editScript_swap a b ops x y :
      x ≠ y → editScript a b ops →
      editScript (a ++ [x]) (b ++ [y]) (ops ++ [OpSwap x y])
  | editScript_add a b ops y :
      editScript a b ops → editScript a (b ++ [y]) (ops ++ [OpAdd y])
  | editScript_remove a b ops x :
      editScript a b ops → editScript (a ++ [x]) b (ops ++ [OpRemove x]).

(** The owner a swap or an add puts into the list. *)
Definition insertedOwner (op : EditOperation) : option jsval :=
  match op with
  | OpSwap _ newOwner => Some newOwner
  | OpAdd owner => Some owner
  | OpRemove _ => None
  end.

(** ** The shape of a batch *)

(** The method an operation is turned into. *)
Definition methodOf (op : EditOperation) : string :=
  match op with
  | OpSwap _ _ => "swapOwner"
  | OpAdd _ => "addOwnerWithThreshold"
  | OpRemove _ => "removeOwner"
  end.

(** The four [contractMethod] objects of the descriptors (lines 306-314,
    329-336, 350-358 and 373-379). *)
Definition safeMethods : list ContractMethod :=
  [ {| inputs := [addressInput "prevOwner"; addressInput "oldOwner";
                  addressInput "newOwner"];
       method_name := "swapOwner";
       payable := false |};
    {| inputs := [addressInput "owner"; uint256Input "_threshold"];
       method_name := "addOwnerWithThreshold";
       payable := false |};
    {| inputs := [addressInput "prevOwner"; addressInput "owner";
                  uint256Input "_threshold"];
       method_name := "removeOwner";
       payable := false |};
    {| inputs := [uint256Input "_threshold"];
       method_name := "changeThreshold";
       payable := false |} ].

(** A descriptor sends no value and no raw data, calls one of the four
    methods, gives one value per declared input, under the name of the
    input and in the order of the inputs, and passes [threshold] in decimal
    wherever a threshold is expected. *)
Definition wellFormedDescriptor (threshold : Z) (tx : Transaction) : Prop :=
  tx_value tx = "0" ∧
  tx_data tx = JNull ∧
  contractMethod tx ∈ safeMethods ∧
  (contractInputsValues tx).*1 = input_name <$> inputs (contractMethod tx) ∧
  ∀ v, ("_threshold", v) ∈ contractInputsValues tx →
       v = JString (numberToString threshold).

(** The same options for another chain id. *)
Definition withChainId (options : Options) (other : jsval) : Options :=
  {| safeAddress := safeAddress options;
     newOwners := newOwners options;
     chainId := other;
     newThreshold := newThreshold options;
     alchemyApiKey := alchemyApiKey options |}.

(** ** The provider of the guarded revision *)

(** The case labels of the [switch] in [getRpcUrl]. *)
Definition supportedChainIds : list string :=
  ["1"; "5"; "11155111"; "137"; "80001"; "1101"; "56"; "97"; "100";
   "43114"; "43113"; "250"; "4002"; "10"; "420"; "42161"; "421613";
   "8453"].

(** The endpoint written under the second [case '97'] label. *)
Definition chiadoUrl : string := "https://rpc.chiado.gnosis.gateway.fm/".

(** ** The positional diff of the guarded revision *)

(** The second loop of the guarded [reorderNewOwners] as a recursion over
    the slots: a falsy slot takes the next remaining owner, and
    [undefined] when none remains. *)
Fixpoint fillHolesOrUndefined (slots : list jsval) (remaining : list string)
  : list jsval * list string :=
  match slots with
  | [] => ([], remaining)
  | v :: slots' =>
      if negb (truthy v)
      then
        match remaining with
        | next :: rest =>
            let '(filled, unused) := fillHolesOrUndefined slots' rest in
            (JString next :: filled, unused)
        | [] =>
            let '(filled, unused) := fillHolesOrUndefined slots' [] in
            (JUndefined :: filled, unused)
        end
      else
        let '(filled, unused) := fillHolesOrUndefined slots' remaining in
        (v :: filled, unused)
  end.

(** The body of the collecting loop for one pair
    [(currentOwners[i], newOwnersReordered[i])]. *)
Definition collectPair (c : Guarded.Collected) (oldOwner newOwner : jsval)
  : Outcome Guarded.Collected :=
  if truthy oldOwner && truthy newOwner then
    if negb (strict_eq oldOwner newOwner) then
      if JsSet.has (Guarded.interimOwnersSet c) (toPropertyKey newOwner)
      then Thrown (DuplicateOwnerDetected (toPropertyKey newOwner))
      else Returned
             {| Guarded.swaps := Guarded.swaps c ++ [(oldOwner, newOwner)];
                Guarded.ownersToRemove := Guarded.ownersToRemove c;
                Guarded.ownersToAdd := Guarded.ownersToAdd c;
                Guarded.interimOwnersSet :=
                  JsSet.add (JsSet.delete (Guarded.interimOwnersSet c)
                               (toPropertyKey oldOwner))
                            (toPropertyKey newOwner) |}
    else Returned c
  else if truthy oldOwner && negb (truthy newOwner) then
    Returned {| Guarded.swaps := Guarded.swaps c;
                Guarded.ownersToRemove :=
                  Guarded.ownersToRemove c ++ [oldOwner];
                Guarded.ownersToAdd := Guarded.ownersToAdd c;
                Guarded.interimOwnersSet :=
                  JsSet.delete (Guarded.interimOwnersSet c)
                    (toPropertyKey oldOwner) |}
  else if negb (truthy oldOwner) && truthy newOwner then
    if JsSet.has (Guarded.interimOwnersSet c) (toPropertyKey newOwner)
    then Thrown (DuplicateOwnerDetected (toPropertyKey newOwner))
    else Returned
           {| Guarded.swaps := Guarded.swaps c;
              Guarded.ownersToRemove := Guarded.ownersToRemove c;
              Guarded.ownersToAdd := Guarded.ownersToAdd c ++ [newOwner];
              Guarded.interimOwnersSet :=
                JsSet.add (Guarded.interimOwnersSet c)
                  (toPropertyKey newOwner) |}
  else Returned c.

(** The collecting loop of the guarded [generateTransactions], from its
    first iteration to its last. *)
Definition guardedCollect (currentOwners : list string)
    (newOwnersReordered : list jsval) : Outcome Guarded.Collected :=
  foldl (Guarded.collectStep currentOwners newOwnersReordered)
    (Returned {| Guarded.swaps := [];
                 Guarded.ownersToRemove := [];
                 Guarded.ownersToAdd := [];
                 Guarded.interimOwnersSet := JsSet.of_array currentOwners |})
    (seq 0 (Nat.max (length currentOwners) (length newOwnersReordered))).

(** The operations behind the three processing loops: the swaps, then the
    removals, then the additions. *)
Definition collectedOperations (c : Guarded.Collected)
  : list EditOperation :=
  (uncurry OpSwap <$> Guarded.swaps c)
  ++ (OpRemove <$> Guarded.ownersToRemove c)
  ++ (OpAdd <$> Guarded.ownersToAdd c).

(** The state of the processing loops before the first swap. *)
Definition guardedInitialLoopState (currentOwners : list string)
  : LoopState :=
  {| ls_transactions := [];
     ls_ownerLinkedList :=
       Guarded.buildOwnerLinkedList currentOwners SENTINEL_OWNERS;
     ls_hasAddOrRemove := false |}.

(** The pairs the collecting loop meets when the current owners are [cur]
    and the desired owners that are not current are [remaining]: a current
    owner that is desired faces itself, another current owner faces the
    next remaining owner, or [undefined] when none remains, and the owners
    that remain after the last current owner face [undefined]. *)
Fixpoint facingPairs (desired : list string) (cur remaining : list string)
  : list (jsval * jsval) :=
  match cur with
  | [] => (λ d, (JUndefined, JString d)) <$> remaining
  | c :: cur' =>
      if bool_decide (c ∈ desired)
      then (JString c, JString c) :: facingPairs desired cur' remaining
      else
        match remaining with
        | d :: rest =>
            (JString c, JString d) :: facingPairs desired cur' rest
        | [] => (JString c, JUndefined) :: facingPairs desired cur' []
        end
  end.

(** The collecting loop over a list of pairs. *)
Definition collectPairs (acc : Outcome Guarded.Collected)
    (pairs : list (jsval * jsval)) : Outcome Guarded.Collected :=
  foldl (λ acc p, c ← acc; collectPair c p.1 p.2) acc pairs.

Definition emptyCollected (currentOwners : list string)
  : Guarded.Collected :=
  {| Guarded.swaps := [];
     Guarded.ownersToRemove := [];
     Guarded.ownersToAdd := [];
     Guarded.interimOwnersSet := JsSet.of_array currentOwners |}.

(** ** Counting the operations of a script *)

Definition isAdd (op : EditOperation) : bool :=
  match op with
  | OpAdd _ => true
  | _ => false
  end.

Definition isRemove (op : EditOperation) : bool :=
  match op with
  | OpRemove _ => true
  | _ => false
  end.

Definition countOperations (kind : EditOperation → bool)
    (operations : list EditOperation) : nat :=
  length (filter (λ op, kind op = true) operations).

(** The cost of the script that works position by position: a swap where
    the two arrays differ, then adds or removes for what one array has
    beyond the other. *)
Fixpoint positionalCost (a b : list jsval) : nat :=
  match a, b with
  | [], _ => length b
  | _, [] => length a
  | x :: a', y :: b' =>
      (if decide (x = y) then 0 else 1) + positionalCost a' b'
  end.

(** The placeholder of the library read as the one of the guarded
    revision. *)
Definition nullAsUndefined (v : jsval) : jsval :=
  match v with
  | JNull => JUndefined
  | _ => v
  end.

(** * Properties *)

(** ** The reference edit distance is the least cost of an edit script *)

Section EditDistanceFacts.
Context {A : Type} `{EqDecision A}.
Implicit Types a b : list A.

Lemma edit_distance_nil_r a : edit_distance a [] = length a.
Proof. by destruct a. Qed.

Lemma edit_distance_cons x y a b :
  edit_distance (x :: a) (y :: b) =
  Nat.min (Nat.min (edit_distance a b + (if decide (x = y) then 0 else 1))
                   (edit_distance (x :: a) b + 1))
          (edit_distance a (y :: b) + 1).
Proof. reflexivity. Qed.

Lemma edit_script_lower a b n :
  edit_script a b n → edit_distance a b ≤ n.
Proof.
  induction 1 as [|x a b n _ IH|x y a b n _ IH|y a b n _ IH|x a b n _ IH].
  - done.
  - rewrite edit_distance_cons. rewrite decide_True by done. lia.
  - rewrite edit_distance_cons. case_decide; lia.
  - destruct a as [|x a]; [simpl in *; lia|].
    rewrite edit_distance_cons. lia.
  - destruct b as [|y b].
    + rewrite edit_distance_nil_r in *. simpl. lia.
    + rewrite edit_distance_cons. lia.
Qed.

Lemma edit_script_inserts b : edit_script [] b (length b).
Proof. induction b; simpl; by constructor. Qed.

Lemma edit_script_deletes a : edit_script a [] (length a).
Proof. induction a; simpl; by constructor. Qed.

Lemma edit_script_exists a b : edit_script a b (edit_distance a b).
Proof.
  revert b. induction a as [|x a IHa]; intros b.
  - apply edit_script_inserts.
  - induction b as [|y b IHb].
    + rewrite edit_distance_nil_r. apply edit_script_deletes.
    + rewrite edit_distance_cons.
      pose proof (IHa b) as Hd. pose proof (IHa (y :: b)) as Hr.
      destruct (Nat.min_spec
                  (Nat.min (edit_distance a b + (if decide (x = y) then 0 else 1))
                           (edit_distance (x :: a) b + 1))
                  (edit_distance a (y :: b) + 1)) as [[_ ->]|[_ ->]].
      * destruct (Nat.min_spec
                    (edit_distance a b + (if decide (x = y) then 0 else 1))
                    (edit_distance (x :: a) b + 1)) as [[_ ->]|[_ ->]].
        -- case_decide as Hxy.
           ++ subst y. rewrite Nat.add_0_r. by constructor.
           ++ rewrite Nat.add_1_r. by constructor.
        -- rewrite Nat.add_1_r. by constructor.
      * rewrite Nat.add_1_r. by constructor.
Qed.

(** Scripts can be extended at the far end, hence reversed. *)
Lemma edit_script_keep_end x a b n :
  edit_script a b n → edit_script (a ++ [x]) (b ++ [x]) n.
Proof. induction 1; simpl; by repeat constructor. Qed.

Lemma edit_script_subst_end x y a b n :
  edit_script a b n → edit_script (a ++ [x]) (b ++ [y]) (S n).
Proof. induction 1; simpl; by repeat constructor. Qed.

Lemma edit_script_insert_end y a b n :
  edit_script a b n → edit_script a (b ++ [y]) (S n).
Proof. induction 1; simpl; by repeat constructor. Qed.

Lemma edit_script_delete_end x a b n :
  edit_script a b n → edit_script (a ++ [x]) b (S n).
Proof. induction 1; simpl; by repeat constructor. Qed.

Lemma edit_script_reverse a b n :
  edit_script a b n → edit_script (reverse a) (reverse b) n.
Proof.
  induction 1; rewrite ?reverse_cons.
  - constructor.
  - by apply edit_script_keep_end.
  - by apply edit_script_subst_end.
  - by apply edit_script_insert_end.
  - by apply edit_script_delete_end.
Qed.

Lemma edit_distance_reverse a b :
  edit_distance (reverse a) (reverse b) = edit_distance a b.
Proof.
  apply Nat.le_antisymm.
  - apply edit_script_lower, edit_script_reverse, edit_script_exists.
  - rewrite <-(reverse_involutive a), <-(reverse_involutive b) at 1.
    apply edit_script_lower, edit_script_reverse, edit_script_exists.
Qed.

(** Dropping the first element of the source costs at most one more. *)
Lemma edit_script_drop_first x a b n :
  edit_script (x :: a) b n → ∃ n', edit_script a b n' ∧ n' ≤ S n.
Proof.
  intros Hs. remember (x :: a) as xa eqn:Hxa.
  revert x a Hxa. induction Hs as [|x' a' b n Hs IH|x' y a' b n Hs IH
                                  |y a' b n Hs IH|x' a' b n Hs IH];
    intros x a Hxa; simplify_eq.
  - exists (S n). split; [by constructor|lia].
  - exists (S n). split; [by constructor|lia].
  - destruct (IH x a eq_refl) as (n' & Hn' & Hle).
    exists (S n'). split; [by constructor|lia].
  - exists n. split; [done|lia].
Qed.

Lemma edit_script_drop_first_target y a b n :
  edit_script a (y :: b) n → ∃ n', edit_script a b n' ∧ n' ≤ S n.
Proof.
  intros Hs. remember (y :: b) as yb eqn:Hyb.
  revert y b Hyb. induction Hs as [|x' a' b' n Hs IH|x' y' a' b' n Hs IH
                                  |y' a' b' n Hs IH|x' a' b' n Hs IH];
    intros y b Hyb; simplify_eq.
  - exists (S n). split; [by constructor|lia].
  - exists (S n). split; [by constructor|lia].
  - exists n. split; [done|lia].
  - destruct (IH y b eq_refl) as (n' & Hn' & Hle).
    exists (S n'). split; [by constructor|lia].
Qed.

Lemma edit_distance_drop_first x a b :
  edit_distance a b ≤ edit_distance (x :: a) b + 1.
Proof.
  destruct (edit_script_drop_first x a b _ (edit_script_exists (x :: a) b))
    as (n' & Hn' & Hle).
  apply edit_script_lower in Hn'. lia.
Qed.

Lemma edit_distance_drop_first_target y a b :
  edit_distance a b ≤ edit_distance a (y :: b) + 1.
Proof.
  destruct (edit_script_drop_first_target y a b _
              (edit_script_exists a (y :: b))) as (n' & Hn' & Hle).
  apply edit_script_lower in Hn'. lia.
Qed.

(** The recurrence on the last elements, the one the matrix follows. *)
Lemma edit_distance_snoc_eq x a b :
  edit_distance (a ++ [x]) (b ++ [x]) = edit_distance a b.
Proof.
  rewrite <-edit_distance_reverse, !reverse_snoc, edit_distance_cons.
  rewrite decide_True by done.
  pose proof (edit_distance_drop_first x (reverse a) (reverse b)).
  pose proof (edit_distance_drop_first_target x (reverse a) (reverse b)).
  rewrite <-(edit_distance_reverse a b). lia.
Qed.

Lemma edit_distance_snoc_ne x y a b :
  x ≠ y →
  edit_distance (a ++ [x]) (b ++ [y]) =
  Nat.min (Nat.min (edit_distance a b + 1) (edit_distance (a ++ [x]) b + 1))
          (edit_distance a (b ++ [y]) + 1).
Proof.
  intros Hxy.
  rewrite <-(edit_distance_reverse (a ++ [x]) (b ++ [y])).
  rewrite <-(edit_distance_reverse a b).
  rewrite <-(edit_distance_reverse (a ++ [x]) b).
  rewrite <-(edit_distance_reverse a (b ++ [y])).
  rewrite !reverse_snoc, edit_distance_cons.
  by rewrite decide_False by done.
Qed.
End EditDistanceFacts.

(** ** The matrix of [calculateEditOperations] holds the edit distances of
    the prefixes *)

Lemma foldl_seq_invariant {S : Type} (P : nat → S → Prop) (f : S → nat → S)
    (s0 : S) (start len : nat) :
  P start s0 →
  (∀ k s, start ≤ k < start + len → P k s → P (Datatypes.S k) (f s k)) →
  P (start + len) (foldl f s0 (seq start len)).
Proof.
  intros H0 Hstep. induction len as [|len IH].
  - by rewrite Nat.add_0_r.
  - rewrite seq_S, foldl_app. simpl.
    rewrite Nat.add_succ_r. apply Hstep; [lia|].
    apply IH. intros k s Hk. apply Hstep. lia.
Qed.

Lemma dp_init_shape m n : dp_shape m n (dp_init m n).
Proof.
  unfold dp_init. split; [by rewrite length_replicate|].
  intros i row [-> _]%lookup_replicate. by rewrite length_replicate.
Qed.

Lemma dp_set_shape m n dp i j v :
  dp_shape m n dp → dp_shape m n (dp_set dp i j v).
Proof.
  intros [Hlen Hrows]. unfold dp_set.
  destruct (dp !! i) as [row|] eqn:Hrow; [|done].
  split; [by rewrite length_insert|].
  intros i' row' Hi'.
  destruct (decide (i = i')) as [->|Hne].
  - rewrite list_lookup_insert_eq in Hi' by (by eapply lookup_lt_Some).
    simplify_eq. rewrite length_insert. by eapply Hrows.
  - rewrite list_lookup_insert_ne in Hi' by done. by eapply Hrows.
Qed.

Lemma dp_get_set m n dp i j v i' j' :
  dp_shape m n dp → i ≤ m → j ≤ n →
  dp_get (dp_set dp i j v) i' j' =
  if decide (i = i' ∧ j = j') then v else dp_get dp i' j'.
Proof.
  intros [Hlen Hrows] Hi Hj. unfold dp_set, dp_get.
  destruct (lookup_lt_is_Some_2 dp i) as [row Hrow]; [lia|].
  rewrite Hrow. pose proof (Hrows _ _ Hrow) as Hrowlen.
  destruct (decide (i = i')) as [<-|Hne].
  - rewrite list_lookup_insert_eq by lia. simpl.
    destruct (decide (j = j')) as [<-|Hnej].
    + rewrite list_lookup_insert_eq by lia. simpl.
      by rewrite decide_True.
    + rewrite list_lookup_insert_ne by done.
      rewrite decide_False by lia. by rewrite Hrow.
  - rewrite list_lookup_insert_ne by done.
    by rewrite decide_False by lia.
Qed.

Section Matrix.
Variables currentOwners newOwners : list jsval.
#[local] Abbreviation m := (length currentOwners).
#[local] Abbreviation n := (length newOwners).
#[local] Abbreviation D := (prefix_distance currentOwners newOwners).
#[local] Abbreviation dp_known := (dp_known currentOwners newOwners).

Lemma D_row0 j : j ≤ n → D 0 j = j.
Proof. intros Hj. unfold prefix_distance. simpl. rewrite length_take. lia. Qed.

Lemma D_col0 i : i ≤ m → D i 0 = i.
Proof.
  intros Hi. unfold prefix_distance. rewrite take_0, edit_distance_nil_r, length_take. lia.
Qed.

Lemma D_step i j :
  i < m → j < n →
  D (S i) (S j) =
  if strict_eq (arr_get currentOwners i) (arr_get newOwners j)
  then D i j
  else Nat.min (Nat.min (D i j + 1) (D (S i) j + 1)) (D i (S j) + 1).
Proof.
  intros Hi Hj. unfold prefix_distance, arr_get, strict_eq.
  destruct (lookup_lt_is_Some_2 currentOwners i) as [x Hx]; [done|].
  destruct (lookup_lt_is_Some_2 newOwners j) as [y Hy]; [done|].
  rewrite Hx, Hy. simpl.
  rewrite (take_S_r _ _ _ Hx), (take_S_r _ _ _ Hy).
  case_bool_decide as Hxy.
  - subst y. apply edit_distance_snoc_eq.
  - by apply edit_distance_snoc_ne.
Qed.

Lemma dp_base_known :
  dp_known (λ i j, i = 0 ∨ j = 0) (dp_base m n (dp_init m n)).
Proof.
  unfold dp_base.
  pose (P1 := λ (k : nat) (dp : list (list nat)),
          dp_shape m n dp ∧ ∀ i, i < k → dp_get dp i 0 = i).
  assert (P1 (0 + S m) (foldl (λ dp i, dp_set dp i 0 i) (dp_init m n)
                              (seq 0 (S m)))) as [Hs1 Hc1].
  { apply (foldl_seq_invariant P1).
    - split; [apply dp_init_shape|lia].
    - intros k dp Hk [Hs Hc]. split; [by apply dp_set_shape|].
      intros i Hi. rewrite (dp_get_set m n) by (done || lia).
      case_decide; [lia|]. apply Hc. lia. }
  pose (P2 := λ (k : nat) (dp : list (list nat)),
          dp_shape m n dp ∧ (∀ i, i ≤ m → dp_get dp i 0 = i) ∧
          ∀ j, j < k → dp_get dp 0 j = j).
  match goal with |- dp_known _ (foldl ?f ?a _) =>
    assert (P2 (0 + S n) (foldl f a (seq 0 (S n)))) as (Hs2 & Hc2 & Hr2)
  end.
  { apply (foldl_seq_invariant P2).
    - split; [done|]. split; [|lia]. intros i Hi. apply Hc1. lia.
    - intros k dp Hk (Hs & Hc & Hr). split; [by apply dp_set_shape|].
      split.
      + intros i Hi. rewrite (dp_get_set m n) by (done || lia).
        case_decide; [lia|]. by apply Hc.
      + intros j Hj. rewrite (dp_get_set m n) by (done || lia).
        case_decide; [lia|]. apply Hr. lia. }
  split; [done|].
  intros i j Hi Hj [->| ->].
  - rewrite D_row0 by done. apply Hr2. lia.
  - rewrite D_col0 by done. by apply Hc2.
Qed.

Lemma dp_cell_known i j dp :
  1 ≤ i ≤ m → 1 ≤ j ≤ n →
  dp_known (λ i' j', i' < i ∨ j' = 0 ∨ (i' = i ∧ j' < j)) dp →
  dp_known (λ i' j', i' < i ∨ j' = 0 ∨ (i' = i ∧ j' < S j))
           (dp_cell currentOwners newOwners i dp j).
Proof.
  intros Hi Hj [Hs Hk].
  destruct i as [|i]; [lia|]. destruct j as [|j]; [lia|].
  assert (dp_get (dp_cell currentOwners newOwners (S i) dp (S j)) (S i) (S j)
          = D (S i) (S j) ∧
          ∀ i' j', ¬ (S i = i' ∧ S j = j') →
            dp_get (dp_cell currentOwners newOwners (S i) dp (S j)) i' j'
            = dp_get dp i' j') as [Hnew Hold].
  { unfold dp_cell. rewrite D_step by lia.
    replace (S i - 1) with i by lia. replace (S j - 1) with j by lia.
    rewrite <-!Hk by (lia || auto with lia).
    destruct (strict_eq _ _); (split;
      [rewrite (dp_get_set m n) by (done || lia); by rewrite decide_True
      |intros i' j' Hne; rewrite (dp_get_set m n) by (done || lia);
       by rewrite decide_False]). }
  split.
  { unfold dp_cell. destruct (strict_eq _ _); by apply dp_set_shape. }
  intros i' j' Hi' Hj' Hp.
  destruct (decide (S i = i' ∧ S j = j')) as [[<- <-]|Hne]; [done|].
  rewrite Hold by done. apply Hk; lia.
Qed.

Lemma dp_fill_known :
  dp_known (λ _ _, True)
    (dp_fill currentOwners newOwners (dp_base m n (dp_init m n))).
Proof.
  unfold dp_fill.
  pose (P := λ (k : nat) (dp : list (list nat)),
          dp_known (λ i j, i < k ∨ j = 0) dp).
  match goal with |- dp_known _ (foldl ?f ?a _) =>
    assert (P (1 + m) (foldl f a (seq 1 m))) as [Hs Hk]
  end.
  { apply (foldl_seq_invariant P).
    - destruct dp_base_known as [Hs Hk]. split; [done|].
      intros i j Hi Hj Hp. apply Hk; lia.
    - intros i dp Hi Hdp.
      pose (Q := λ (c : nat) (dp : list (list nat)),
              dp_known (λ i' j', i' < i ∨ j' = 0 ∨ (i' = i ∧ j' < c)) dp).
      assert (Q (1 + n) (foldl (dp_cell currentOwners newOwners i) dp
                               (seq 1 n))) as [Hs Hk].
      { apply (foldl_seq_invariant Q).
        - destruct Hdp as [Hs Hk]. split; [done|].
          intros i' j' Hi' Hj' Hp. apply Hk; lia.
        - intros j dp' Hj Hdp'. apply dp_cell_known; [lia..|done]. }
      split; [done|]. intros i' j' Hi' Hj' Hp. apply Hk; lia. }
  split; [done|]. intros i j Hi Hj _. apply Hk; lia.
Qed.

Lemma backtrack_unfold dp i j operations :
  backtrack currentOwners newOwners dp i j operations =
  match i, j with
  | 0, 0 => inr operations
  | S i', S j' =>
      if strict_eq (arr_get currentOwners i') (arr_get newOwners j')
      then backtrack currentOwners newOwners dp i' j' operations
      else if dp_get dp i j =? dp_get dp i' j' + 1
      then backtrack currentOwners newOwners dp i' j'
             (OpSwap (arr_get currentOwners i') (arr_get newOwners j')
                :: operations)
      else if dp_get dp i j =? dp_get dp i j' + 1
      then backtrack currentOwners newOwners dp i j'
             (OpAdd (arr_get newOwners j') :: operations)
      else if dp_get dp i j =? dp_get dp i' j + 1
      then backtrack currentOwners newOwners dp i' j
             (OpRemove (arr_get currentOwners i') :: operations)
      else inl EditOperationsError
  | 0, S j' =>
      if dp_get dp i j =? dp_get dp i j' + 1
      then backtrack currentOwners newOwners dp i j'
             (OpAdd (arr_get newOwners j') :: operations)
      else inl EditOperationsError
  | S i', 0 =>
      if dp_get dp i j =? dp_get dp i' j + 1
      then backtrack currentOwners newOwners dp i' j
             (OpRemove (arr_get currentOwners i') :: operations)
      else inl EditOperationsError
  end.
Proof. destruct i, j; reflexivity. Qed.

(** The backtracking never reaches its [throw] and emits as many
    operations as the cell it starts from says. *)
Lemma backtrack_count dp :
  dp_known (λ _ _, True) dp →
  ∀ i j operations, i ≤ m → j ≤ n →
    ∃ emitted,
      backtrack currentOwners newOwners dp i j operations
        = inr (emitted ++ operations) ∧
      length emitted = D i j.
Proof.
  intros [Hs Hk] i.
  induction i as [|i IHi]; intros j; induction j as [|j IHj];
    intros operations Hi Hj; rewrite backtrack_unfold.
  - exists []. by rewrite D_row0 by lia.
  - rewrite !Hk by (lia || done). rewrite !D_row0 by lia.
    rewrite (proj2 (Nat.eqb_eq _ _)) by lia.
    destruct (IHj (OpAdd (arr_get newOwners j) :: operations))
      as (em & -> & Hlen); [lia..|].
    exists (em ++ [OpAdd (arr_get newOwners j)]).
    rewrite <-app_assoc. split; [done|].
    rewrite length_app, Hlen, !D_row0 by lia. simpl. lia.
  - rewrite !Hk by (lia || done). rewrite !D_col0 by lia.
    rewrite (proj2 (Nat.eqb_eq _ _)) by lia.
    destruct (IHi 0 (OpRemove (arr_get currentOwners i) :: operations))
      as (em & -> & Hlen); [lia..|].
    exists (em ++ [OpRemove (arr_get currentOwners i)]).
    rewrite <-app_assoc. split; [done|].
    rewrite length_app, Hlen, !D_col0 by lia. simpl. lia.
  - rewrite !Hk by (lia || done).
    pose proof (D_step i j ltac:(lia) ltac:(lia)) as Hstep.
    destruct (strict_eq _ _).
    { destruct (IHi j operations) as (em & -> & Hlen); [lia..|].
      exists em. split; [done|]. by rewrite Hstep. }
    destruct (Nat.eqb_spec (D (S i) (S j)) (D i j + 1)) as [Heq|Hne1].
    { destruct (IHi j (OpSwap (arr_get currentOwners i)
                         (arr_get newOwners j) :: operations))
        as (em & -> & Hlen); [lia..|].
      eexists (em ++ [_]). rewrite <-app_assoc. split; [done|].
      rewrite length_app, Hlen. simpl. lia. }
    destruct (Nat.eqb_spec (D (S i) (S j)) (D (S i) j + 1)) as [Heq|Hne2].
    { destruct (IHj (OpAdd (arr_get newOwners j) :: operations))
        as (em & -> & Hlen); [lia..|].
      eexists (em ++ [_]). rewrite <-app_assoc. split; [done|].
      rewrite length_app, Hlen. simpl. lia. }
    destruct (Nat.eqb_spec (D (S i) (S j)) (D i (S j) + 1)) as [Heq|Hne3].
    { destruct (IHi (S j) (OpRemove (arr_get currentOwners i) :: operations))
        as (em & -> & Hlen); [lia..|].
      eexists (em ++ [_]). rewrite <-app_assoc. split; [done|].
      rewrite length_app, Hlen. simpl. lia. }
    lia.
Qed.
End Matrix.

(** C5. For every pair of sequences [calculateEditOperations] returns (its
    [throw] is never reached) and the number of operations it emits is the
    unit-cost edit distance of the two sequences, as given by the reference
    definition [edit_distance]: substitutions, insertions and deletions cost
    one, equal elements cost nothing. *)
Theorem calculateEditOperations_count_is_edit_distance
    (currentOwners newOwners : list jsval) :
  ∃ operations,
    calculateEditOperations currentOwners newOwners = inr operations ∧
    length operations = edit_distance currentOwners newOwners.
Proof.
  unfold calculateEditOperations.
  destruct (backtrack_count currentOwners newOwners _
              (dp_fill_known currentOwners newOwners)
              (length currentOwners) (length newOwners) [])
    as (emitted & Heq & Hlen); [done..|].
  exists emitted. rewrite app_nil_r in Heq. split; [done|].
  unfold prefix_distance in Hlen. by rewrite Hlen, !firstn_all.
Qed.

(** ** Objects used as maps *)

Section JsObjectFacts.
Implicit Types obj rest : JsObject.t.
Implicit Types k : string.
Implicit Types v : jsval.

Lemma JsObject_set_fresh obj k v :
  k ∉ obj.*1 → JsObject.set obj k v = obj ++ [(k, v)].
Proof.
  induction obj as [|[k' v'] obj IH]; simpl; [done|].
  intros Hk%not_elem_of_cons. destruct Hk as [Hne Hk].
  rewrite decide_False by done. by rewrite IH.
Qed.

Lemma JsObject_set_middle obj1 obj2 k v0 v :
  k ∉ obj1.*1 →
  JsObject.set (obj1 ++ (k, v0) :: obj2) k v = obj1 ++ (k, v) :: obj2.
Proof.
  induction obj1 as [|[k' v'] obj1 IH]; simpl.
  - intros _. by rewrite decide_True.
  - intros Hk%not_elem_of_cons. destruct Hk as [Hne Hk].
    rewrite decide_False by done. by rewrite IH.
Qed.

Lemma JsObject_split obj k v :
  NoDup obj.*1 → (k, v) ∈ obj →
  ∃ obj1 obj2,
    obj = obj1 ++ (k, v) :: obj2 ∧ (k ∉ obj1.*1) ∧ (k ∉ obj2.*1).
Proof.
  intros Hnd (obj1 & obj2 & ->)%list_elem_of_split.
  exists obj1, obj2. split; [done|].
  rewrite fmap_app, fmap_cons in Hnd. simpl in Hnd.
  apply NoDup_app in Hnd as (_ & Hdisj & Hnd2).
  apply NoDup_cons in Hnd2 as [Hk2 _].
  split; [|done]. intros Hk1. apply (Hdisj _ Hk1). left.
Qed.

Lemma JsObject_set_perm obj rest k v0 v :
  NoDup obj.*1 → obj ≡ₚ (k, v0) :: rest →
  JsObject.set obj k v ≡ₚ (k, v) :: rest.
Proof.
  intros Hnd Hperm.
  destruct (JsObject_split obj k v0 Hnd) as (obj1 & obj2 & -> & Hk1 & Hk2).
  { rewrite Hperm. left. }
  rewrite JsObject_set_middle by done.
  rewrite <-Permutation_middle in Hperm.
  apply Permutation_cons_inv in Hperm.
  by rewrite <-Permutation_middle, Hperm.
Qed.

Lemma JsObject_set_perm_fresh obj k v :
  k ∉ obj.*1 → JsObject.set obj k v ≡ₚ (k, v) :: obj.
Proof.
  intros Hk. rewrite JsObject_set_fresh by done.
  by rewrite Permutation_app_comm.
Qed.

Lemma JsObject_delete_perm obj rest k v :
  NoDup obj.*1 → obj ≡ₚ (k, v) :: rest → JsObject.delete obj k ≡ₚ rest.
Proof.
  intros Hnd Hperm. unfold JsObject.delete.
  rewrite Hperm in Hnd. rewrite Hperm.
  rewrite fmap_cons in Hnd. apply NoDup_cons in Hnd as [Hk _].
  rewrite filter_cons_False by (simpl; intros Hne; by apply Hne).
  assert (Forall (λ e : string * jsval, e.1 ≠ k) rest) as Hall.
  { apply Forall_forall. intros [k' v'] Hin. simpl. intros ->.
    apply Hk. rewrite list_elem_of_fmap. by exists (k, v'). }
  clear Hk Hperm. induction Hall as [|e rest He Hall IH]; [done|].
  rewrite filter_cons_True by done. by rewrite IH.
Qed.

Lemma JsObject_get_elem obj k v :
  NoDup obj.*1 → (k, v) ∈ obj → JsObject.get obj k = v.
Proof.
  intros Hnd Hin.
  destruct (JsObject_split obj k v Hnd Hin) as (obj1 & obj2 & -> & Hk1 & _).
  clear Hnd Hin. induction obj1 as [|[k' v'] obj1 IH]; simpl.
  - by rewrite decide_True.
  - apply not_elem_of_cons in Hk1 as [Hne Hk1].
    rewrite decide_False by done. by apply IH.
Qed.

Lemma JsObject_get_absent obj k :
  k ∉ obj.*1 → JsObject.get obj k = JUndefined.
Proof.
  induction obj as [|[k' v'] obj IH]; simpl; [done|].
  intros Hk%not_elem_of_cons. destruct Hk as [Hne Hk].
  rewrite decide_False by done. by apply IH.
Qed.

(** What [getPrevOwner] gives: the first key whose value is the owner, and
    [null] when no entry has it as value. *)
Lemma getPrevOwner_found owner obj p :
  getPrevOwner owner obj = JString p →
  (p, owner) ∈ obj.
Proof.
  unfold getPrevOwner, JsObject.entries.
  induction obj as [|[k v] obj IH]; simpl; [done|].
  unfold strict_eq. case_bool_decide as Hv.
  - intros [= ->]. subst v. left.
  - intros Hp. right. by apply IH.
Qed.

Lemma getPrevOwner_none owner obj :
  getPrevOwner owner obj = JNull ↔ ∀ k, (k, owner) ∉ obj.
Proof.
  unfold getPrevOwner, JsObject.entries.
  induction obj as [|[k v] obj IH]; simpl.
  - split; [|done]. intros _ k. apply not_elem_of_nil.
  - unfold strict_eq. case_bool_decide as Hv.
    + split; [done|]. intros Hno. subst v. destruct (Hno k). left.
    + rewrite IH. split.
      * intros Hno k' [Heq|Hin]%elem_of_cons; [by simplify_eq|].
        by apply (Hno k').
      * intros Hno k' Hin. apply (Hno k'). by right.
Qed.

Lemma getPrevOwner_unique owner obj p :
  NoDup obj.*2 → (p, owner) ∈ obj → getPrevOwner owner obj = JString p.
Proof.
  unfold getPrevOwner, JsObject.entries.
  induction obj as [|[k v] obj IH]; simpl.
  - by intros _ ?%elem_of_nil.
  - intros [Hv Hnd]%NoDup_cons [Heq|Hin]%elem_of_cons.
    + simplify_eq. unfold strict_eq. by rewrite bool_decide_eq_true_2.
    + unfold strict_eq. case_bool_decide as Hvo.
      * subst v. destruct Hv. rewrite list_elem_of_fmap. by exists (p, owner).
      * by apply IH.
Qed.
End JsObjectFacts.

(** ** The entries of a well-formed list *)

Section LinksFacts.
Implicit Types L : list string.
Implicit Types p f x : string.

Lemma lastOf_cons p y L : lastOf p (y :: L) = lastOf y L.
Proof.
  unfold lastOf. revert y. induction L as [|z L IH]; intros y; [done|].
  rewrite last_cons. destruct (last (z :: L)) eqn:Hl; [done|].
  by destruct L.
Qed.

Lemma lastOf_snoc p L x : lastOf p (L ++ [x]) = x.
Proof. unfold lastOf. by rewrite last_snoc. Qed.

Lemma lastOf_elem p L : lastOf p L ∈ p :: L.
Proof.
  revert p. induction L as [|y L IH]; intros p; [left|].
  rewrite lastOf_cons. right. apply IH.
Qed.

Lemma links_keys p L f : (links p L f).*1 = p :: L.
Proof. revert p. induction L as [|y L IH]; intros p; simpl; by f_equal. Qed.

Lemma links_values p L f : (links p L f).*2 = JString <$> (L ++ [f]).
Proof. revert p. induction L as [|y L IH]; intros p; simpl; by f_equal. Qed.

Lemma links_length p L f : length (links p L f) = S (length L).
Proof. revert p. induction L as [|y L IH]; intros p; simpl; by f_equal. Qed.

Lemma links_head p L f :
  links p L f = (p, JString (headOf L f)) :: afterHead L f.
Proof. by destruct L. Qed.

Lemma links_inner p L f :
  links p L f = innerLinks p L ++ [(lastOf p L, JString f)].
Proof.
  revert p. induction L as [|y L IH]; intros p; simpl; [done|].
  by rewrite lastOf_cons, IH.
Qed.

Lemma links_app p L1 L2 f :
  links p (L1 ++ L2) f = innerLinks p L1 ++ links (lastOf p L1) L2 f.
Proof.
  revert p. induction L1 as [|y L1 IH]; intros p; simpl; [done|].
  by rewrite lastOf_cons, IH.
Qed.

(** The list around one of its owners: the entry of its predecessor, its
    own entry, and the rest. *)
Lemma links_around p L1 x L2 f :
  links p (L1 ++ x :: L2) f ≡ₚ
  (lastOf p L1, JString x) :: (x, JString (headOf L2 f))
    :: (innerLinks p L1 ++ afterHead L2 f).
Proof.
  rewrite links_app. simpl. rewrite (links_head x).
  by rewrite <-!Permutation_middle.
Qed.

(** The list with the two parts joined directly. *)
Lemma links_joined p L1 L2 f :
  links p (L1 ++ L2) f ≡ₚ
  (lastOf p L1, JString (headOf L2 f)) :: (innerLinks p L1 ++ afterHead L2 f).
Proof.
  rewrite links_app, (links_head (lastOf p L1)).
  by rewrite <-Permutation_middle.
Qed.

Lemma links_entry p L1 x L2 f :
  (x, JString (headOf L2 f)) ∈ links p (L1 ++ x :: L2) f.
Proof. rewrite links_around. right. left. Qed.

Lemma JString_inj_NoDup L : NoDup L → NoDup (JString <$> L).
Proof. apply NoDup_fmap_2. by intros ?? [=]. Qed.

Lemma invariant_keys obj L :
  NoDup (SENTINEL_OWNERS :: L) →
  obj ≡ₚ links SENTINEL_OWNERS L SENTINEL_OWNERS →
  NoDup obj.*1 ∧ NoDup obj.*2 ∧ obj.*1 ≡ₚ SENTINEL_OWNERS :: L.
Proof.
  intros Hnd Hperm.
  assert (obj.*1 ≡ₚ SENTINEL_OWNERS :: L) as Hkeys.
  { by rewrite Hperm, links_keys. }
  split_and!; [by rewrite Hkeys| |done].
  rewrite Hperm, links_values. apply JString_inj_NoDup.
  by rewrite <-Permutation_cons_append.
Qed.
End LinksFacts.

(** ** The three mutations on a well-formed list *)

Section Mutations.
Implicit Types L : list string.
Implicit Types obj : list (string * jsval).
#[local] Abbreviation S0 := SENTINEL_OWNERS.

Lemma links_entry_at p L L1 x L2 f :
  p :: L = L1 ++ x :: L2 →
  (x, JString (headOf L2 f)) ∈ links p L f.
Proof.
  destruct L1 as [|q L1]; simpl; intros [= -> ->].
  - rewrite links_head. left.
  - apply links_entry.
Qed.

Lemma applyRemove_links obj L1 x L2 :
  NoDup (S0 :: L1 ++ x :: L2) →
  obj ≡ₚ links S0 (L1 ++ x :: L2) S0 →
  getPrevOwner (JString x) obj = JString (lastOf S0 L1) ∧
  applyRemove (JString x) obj ≡ₚ links S0 (L1 ++ L2) S0.
Proof.
  intros Hnd Hperm.
  destruct (invariant_keys _ _ Hnd Hperm) as (Hk & Hv & _).
  rewrite links_around in Hperm.
  assert (getPrevOwner (JString x) obj = JString (lastOf S0 L1)) as Hprev.
  { apply getPrevOwner_unique; [done|]. rewrite Hperm. left. }
  split; [done|].
  unfold applyRemove. rewrite Hprev. simpl.
  rewrite (JsObject_get_elem obj x (JString (headOf L2 S0)))
    by (done || (rewrite Hperm; right; left)).
  pose proof (JsObject_set_perm obj _ _ _ (JString (headOf L2 S0)) Hk Hperm)
    as Hset.
  rewrite links_joined.
  apply (JsObject_delete_perm _ _ x (JString (headOf L2 S0))).
  - rewrite Hset. rewrite Hperm in Hk. by rewrite !fmap_cons in *.
  - rewrite Hset. apply perm_swap.
Qed.

Lemma updateOwnerLinkedList_links obj L1 oldOwner newOwner L2 :
  NoDup (S0 :: L1 ++ oldOwner :: L2) →
  newOwner ∉ S0 :: L1 ++ oldOwner :: L2 →
  obj ≡ₚ links S0 (L1 ++ oldOwner :: L2) S0 →
  updateOwnerLinkedList (JString oldOwner) (JString newOwner) obj
    ≡ₚ links S0 (L1 ++ newOwner :: L2) S0.
Proof.
  intros Hnd Hnew Hperm.
  destruct (invariant_keys _ _ Hnd Hperm) as (Hk & Hv & Hkeys).
  destruct (applyRemove_links obj L1 oldOwner L2 Hnd Hperm) as [Hprev _].
  rewrite links_around in Hperm.
  unfold updateOwnerLinkedList. rewrite Hprev. simpl.
  pose proof (JsObject_set_perm obj _ _ _ (JString newOwner) Hk Hperm)
    as Hset.
  set (obj1 := JsObject.set obj (lastOf S0 L1) (JString newOwner)) in *.
  assert (obj1.*1 ≡ₚ S0 :: L1 ++ oldOwner :: L2) as Hkeys1.
  { rewrite Hset, <-Hkeys, Hperm. by rewrite !fmap_cons. }
  assert (NoDup obj1.*1) as Hk1 by by rewrite Hkeys1.
  rewrite (JsObject_get_elem obj1 oldOwner (JString (headOf L2 S0)))
    by (done || (rewrite Hset; right; left)).
  pose proof (JsObject_set_perm_fresh obj1 newOwner
                (JString (headOf L2 S0))) as Hset2.
  rewrite Hkeys1 in Hset2. specialize (Hset2 Hnew).
  set (obj2 := JsObject.set obj1 newOwner (JString (headOf L2 S0))) in *.
  rewrite links_around.
  apply (JsObject_delete_perm _ _ oldOwner (JString (headOf L2 S0))).
  - rewrite Hset2, fmap_cons, Hkeys1. simpl. by apply NoDup_cons.
  - rewrite Hset2, Hset.
    etrans; [apply perm_skip, perm_swap|].
    etrans; [apply perm_swap|].
    apply perm_skip, perm_swap.
Qed.

Lemma getLastOwner_loop_links obj L :
  NoDup obj.*1 →
  obj ≡ₚ links S0 L S0 →
  EmptyString ∉ L → S0 ∉ L →
  ∀ L2 L1 p fuel,
    S0 :: L = L1 ++ p :: L2 → length L2 < fuel →
    getLastOwner_loop fuel obj S0 (JString p) = Some (JString (lastOf p L2)).
Proof.
  intros Hk Hperm Hne Hs L2.
  induction L2 as [|y L2 IH]; intros L1 p fuel Hsplit Hfuel;
    (destruct fuel as [|fuel]; [simpl in Hfuel; lia|]);
    pose proof (links_entry_at S0 L L1 p _ S0 Hsplit) as Hentry;
    rewrite <-Hperm in Hentry;
    apply (JsObject_get_elem obj p _ Hk) in Hentry;
    simpl; rewrite Hentry; simpl.
  - done.
  - assert (y ∈ L) as Hy.
    { destruct L1 as [|q L1]; simpl in Hsplit; injection Hsplit as _ HL;
        rewrite HL, ?elem_of_app, ?elem_of_cons; tauto. }
    assert (y ≠ S0) as Hys by (intros Heq; by rewrite Heq in Hy).
    assert (y ≠ EmptyString) as Hye by (intros Heq; by rewrite Heq in Hy).
    unfold strict_eq. rewrite bool_decide_eq_false_2 by (by intros [= ?]).
    rewrite (proj2 (String.eqb_neq _ _)) by done. simpl.
    rewrite lastOf_cons.
    apply (IH (L1 ++ [p])); [by rewrite <-app_assoc|simpl in Hfuel; lia].
Qed.

Lemma getLastOwner_links obj L :
  NoDup (S0 :: L) → EmptyString ∉ L →
  obj ≡ₚ links S0 L S0 →
  getLastOwner obj S0 = Some (JString (lastOf S0 L)).
Proof.
  intros Hnd Hne Hperm.
  destruct (invariant_keys _ _ Hnd Hperm) as (Hk & _ & _).
  apply NoDup_cons in Hnd as [Hs _].
  unfold getLastOwner.
  apply (getLastOwner_loop_links obj L Hk Hperm Hne Hs L [] S0); [done|].
  rewrite Hperm, links_length. lia.
Qed.

Lemma applyAdd_links obj L x :
  NoDup (S0 :: L) → EmptyString ∉ L →
  x ∉ S0 :: L →
  obj ≡ₚ links S0 L S0 →
  ∃ obj', applyAdd (JString x) obj = Some obj' ∧
          obj' ≡ₚ links S0 (L ++ [x]) S0.
Proof.
  intros Hnd Hne Hx Hperm.
  destruct (invariant_keys _ _ Hnd Hperm) as (Hk & _ & Hkeys).
  unfold applyAdd. rewrite (getLastOwner_links obj L) by done. simpl.
  eexists. split; [done|].
  pose proof (links_joined S0 L [] S0) as Hj.
  rewrite app_nil_r in Hj. simpl in Hj. rewrite Hj in Hperm.
  pose proof (JsObject_set_perm obj _ _ _ (JString x) Hk Hperm) as Hset.
  set (obj1 := JsObject.set obj (lastOf S0 L) (JString x)) in *.
  assert (obj1.*1 ≡ₚ S0 :: L) as Hkeys1.
  { rewrite Hset, <-Hkeys, Hperm. by rewrite !fmap_cons. }
  rewrite JsObject_set_perm_fresh by (by rewrite Hkeys1).
  rewrite links_around, Hset. simpl. apply perm_swap.
Qed.

Lemma walk_unfold fuel obj p :
  walk (S fuel) obj p =
  match JsObject.get obj p with
  | JString next =>
      if decide (next = SENTINEL_OWNERS) then Some []
      else (JString next ::.) <$> walk fuel obj next
  | _ => None
  end.
Proof. reflexivity. Qed.

Lemma walk_links obj L :
  NoDup obj.*1 →
  obj ≡ₚ links S0 L S0 →
  S0 ∉ L →
  ∀ L2 L1 p fuel,
    S0 :: L = L1 ++ p :: L2 → length L2 < fuel →
    walk fuel obj p = Some (JString <$> L2).
Proof.
  intros Hk Hperm Hs L2.
  induction L2 as [|y L2 IH]; intros L1 p fuel Hsplit Hfuel;
    (destruct fuel as [|fuel]; [simpl in Hfuel; lia|]);
    pose proof (links_entry_at S0 L L1 p _ S0 Hsplit) as Hentry;
    rewrite <-Hperm in Hentry;
    apply (JsObject_get_elem obj p _ Hk) in Hentry;
    rewrite walk_unfold, Hentry.
  - done.
  - assert (y ∈ L) as Hy.
    { destruct L1 as [|q L1]; simpl in Hsplit; injection Hsplit as _ HL;
        rewrite HL, ?elem_of_app, ?elem_of_cons; tauto. }
    assert (y ≠ S0) as Hys by (intros Heq; by rewrite Heq in Hy).
    change (headOf (y :: L2) S0) with y. cbv beta iota.
    rewrite decide_False by done.
    rewrite (IH (L1 ++ [p]) y fuel); [done|by rewrite <-app_assoc|].
    simpl in Hfuel. lia.
Qed.

Lemma linkedListInvariant_walk obj owners :
  linkedListInvariant obj owners → walkOwners obj = Some owners.
Proof.
  intros (L & -> & Hnd & Hne & Hperm).
  destruct (invariant_keys _ _ Hnd Hperm) as (Hk & _ & _).
  apply NoDup_cons in Hnd as [Hs _].
  unfold walkOwners.
  apply (walk_links obj L Hk Hperm Hs L [] S0); [done|].
  rewrite Hperm, links_length. lia.
Qed.
End Mutations.

(** ** Seeding the simulator and replaying operations on owner lists *)

Section Replay.
Implicit Types L : list string.
#[local] Abbreviation S1 := SENTINEL_OWNERS.

Lemma linkSuccessors_fresh rest c acc :
  NoDup (c :: rest) →
  (∀ o, o ∈ c :: rest → o ∉ acc.*1) →
  linkSuccessors (c :: rest) acc = acc ++ innerLinks c rest.
Proof.
  revert c acc. induction rest as [|d rest IH]; intros c acc Hnd Hfresh.
  - simpl. by rewrite app_nil_r.
  - change (linkSuccessors (c :: d :: rest) acc)
      with (linkSuccessors (d :: rest) (JsObject.set acc c (JString d))).
    rewrite JsObject_set_fresh by (apply Hfresh; left).
    apply NoDup_cons in Hnd as [Hc Hnd].
    rewrite IH; [by rewrite <-app_assoc|done|].
    intros o Ho. rewrite fmap_app, elem_of_app. simpl.
    intros [Hin|Hin%list_elem_of_singleton].
    + by apply (Hfresh o); [right|].
    + by subst o.
Qed.

Lemma innerLinks_keys_last p L :
  NoDup (p :: L) → lastOf p L ∉ (innerLinks p L).*1.
Proof.
  intros Hnd.
  pose proof (links_keys p L p) as Hkeys.
  rewrite links_inner, fmap_app in Hkeys. simpl in Hkeys.
  rewrite <-Hkeys in Hnd. apply NoDup_app in Hnd as (_ & Hdisj & _).
  intros Hin. apply (Hdisj _ Hin). left.
Qed.

Lemma buildOwnerLinkedList_links current :
  NoDup (S1 :: current) → (EmptyString ∉ current) →
  buildOwnerLinkedList current S1 = links S1 current S1.
Proof.
  intros Hnd Hne. unfold buildOwnerLinkedList.
  destruct current as [|c rest]; [done|].
  assert (c ≠ EmptyString) as Hc by (intros ->; apply Hne; left).
  assert (truthy (arr_get (JString <$> c :: rest) 0) = true) as ->.
  { simpl. by rewrite (proj2 (String.eqb_neq _ _)). }
  change (arr_get (JString <$> c :: rest) 0) with (JString c).
  pose proof Hnd as [Hs Hnd']%NoDup_cons.
  rewrite linkSuccessors_fresh; [|done|].
  2:{ intros o Ho. simpl. rewrite list_elem_of_singleton. by intros ->. }
  change (JsObject.set [] S1 (JString c) ++ innerLinks c rest)
    with (innerLinks S1 (c :: rest)).
  assert (last (c :: rest) = Some (lastOf S1 (c :: rest))) as ->.
  { unfold lastOf. destruct (last (c :: rest)) eqn:Hl; [done|].
    by apply last_None in Hl. }
  rewrite JsObject_set_fresh by (by apply innerLinks_keys_last).
  by rewrite <-links_inner.
Qed.

Lemma buildOwnerLinkedList_invariant current :
  NoDup (S1 :: current) → (EmptyString ∉ current) →
  linkedListInvariant (buildOwnerLinkedList current S1) (JString <$> current).
Proof.
  intros Hnd Hne. exists current.
  by rewrite buildOwnerLinkedList_links.
Qed.

Lemma replay_remove_fmap L1 x L2 :
  x ∉ L1 → x ∉ L2 →
  replayOperation (JString <$> (L1 ++ x :: L2)) (OpRemove (JString x))
  = JString <$> (L1 ++ L2).
Proof.
  intros H1 H2. simpl. rewrite !fmap_app, filter_app, fmap_cons.
  rewrite filter_cons_False by (intros Hne; by apply Hne).
  assert (∀ L, x ∉ L →
            filter (λ v, v ≠ JString x) (JString <$> L) = JString <$> L)
    as Hkeep.
  { intros L HL. induction L as [|y L IH]; [done|].
    apply not_elem_of_cons in HL as [Hxy HL]. rewrite fmap_cons.
    rewrite filter_cons_True by congruence. by rewrite IH. }
  by rewrite !Hkeep.
Qed.

Lemma replay_swap_fmap L1 x y L2 :
  x ∉ L1 → x ∉ L2 →
  replayOperation (JString <$> (L1 ++ x :: L2))
    (OpSwap (JString x) (JString y))
  = JString <$> (L1 ++ y :: L2).
Proof.
  intros H1 H2. simpl. rewrite !fmap_app, !fmap_cons.
  rewrite decide_True by done.
  assert (∀ L, x ∉ L →
            (λ v, if decide (v = JString x) then JString y else v)
              <$> (JString <$> L) = JString <$> L) as Hkeep.
  { intros L HL. induction L as [|z L IH]; [done|].
    apply not_elem_of_cons in HL as [Hxz HL]. rewrite !fmap_cons.
    rewrite decide_False by congruence. by rewrite IH. }
  by rewrite !Hkeep.
Qed.

Lemma isNewAddress_inv v :
  isNewAddress v → ∃ s, v = JString s ∧ s ≠ EmptyString ∧ s ≠ SENTINEL_OWNERS.
Proof. destruct v; simpl; [done..|]. intros [??]. eauto. Qed.

Lemma elem_of_JString_fmap v L :
  v ∈ (JString <$> L) ↔ ∃ x, v = JString x ∧ x ∈ L.
Proof. apply list_elem_of_fmap. Qed.

(** Each mutation keeps the invariant when its operation is applicable,
    and the list it leaves is the replayed owner list. *)
Lemma applyOperation_invariant obj owners op :
  linkedListInvariant obj owners →
  applicable owners op →
  ∃ obj', applyOperation obj op = Some obj' ∧
          linkedListInvariant obj' (replayOperation owners op).
Proof.
  intros (L & -> & Hnd & Hne & Hperm) Happ.
  destruct op as [oldOwner newOwner|owner|owner].
  - destruct Happ as (Hold & (y & -> & Hy & Hys)%isNewAddress_inv & Hnew).
    apply elem_of_JString_fmap in Hold as (x & -> & Hx).
    apply list_elem_of_split in Hx as (L1 & L2 & ->).
    assert (y ∉ L1 ++ x :: L2) as HyL.
    { intros Hin. apply Hnew, elem_of_JString_fmap. eauto. }
    pose proof Hnd as [Hs HndL]%NoDup_cons.
    apply NoDup_app in HndL as (Hnd1 & Hdisj & [Hx2 Hnd2]%NoDup_cons).
    assert (x ∉ L1) as Hx1 by (intros Hin; apply (Hdisj _ Hin); left).
    eexists. split; [done|].
    exists (L1 ++ y :: L2). rewrite replay_swap_fmap by done.
    split_and!; [done| | |].
    + apply NoDup_cons. split.
      * rewrite elem_of_app, elem_of_cons in *. intros [?|[?|?]]; [tauto|done|tauto].
      * apply NoDup_app. split_and!; [done| |].
        -- intros z Hz1 [->|Hz2]%elem_of_cons.
           ++ apply HyL. rewrite elem_of_app. by left.
           ++ apply (Hdisj _ Hz1). by right.
        -- apply NoDup_cons. split; [|done].
           intros Hin. apply HyL. rewrite elem_of_app, elem_of_cons. tauto.
    + rewrite elem_of_app, elem_of_cons in *.
      intros [?|[?|?]]; [tauto|done|tauto].
    + apply updateOwnerLinkedList_links; [done| |done].
      by apply not_elem_of_cons.
  - destruct Happ as ((y & -> & Hy & Hys)%isNewAddress_inv & Hnew).
    assert (y ∉ L) as HyL.
    { intros Hin. apply Hnew, elem_of_JString_fmap. eauto. }
    destruct (applyAdd_links obj L y Hnd Hne) as (obj' & Hadd & Hperm');
      [by apply not_elem_of_cons|done|].
    exists obj'. split; [done|].
    exists (L ++ [y]). simpl. rewrite fmap_app. split_and!; [done| | |done].
    + apply NoDup_cons in Hnd as [Hs HndL]. apply NoDup_cons. split.
      * rewrite elem_of_app, list_elem_of_singleton. intros [?|?]; [done|].
        by subst y.
      * apply NoDup_app. split_and!; [done| |apply NoDup_singleton].
        intros z Hz ->%list_elem_of_singleton. done.
    + rewrite elem_of_app, list_elem_of_singleton. intros [?|?]; [done|].
      by subst y.
  - simpl in Happ. apply elem_of_JString_fmap in Happ as (x & -> & Hx).
    apply list_elem_of_split in Hx as (L1 & L2 & ->).
    pose proof Hnd as [Hs HndL]%NoDup_cons.
    apply NoDup_app in HndL as (Hnd1 & Hdisj & [Hx2 Hnd2]%NoDup_cons).
    assert (x ∉ L1) as Hx1 by (intros Hin; apply (Hdisj _ Hin); left).
    eexists. split; [done|].
    exists (L1 ++ L2). rewrite replay_remove_fmap by done.
    split_and!; [done| | |].
    + apply NoDup_cons. split.
      * rewrite elem_of_app, elem_of_cons in *. tauto.
      * apply NoDup_app. split_and!; [done| |done].
        intros z Hz1 Hz2. apply (Hdisj _ Hz1). by right.
    + rewrite elem_of_app, elem_of_cons in *. tauto.
    + by apply applyRemove_links.
Qed.
End Replay.

(** ** The loop over the operations keeps descriptors and simulator in
    lockstep *)

Section Lockstep.
Variables (safeAddressChecksum : string) (threshold : Z).
#[local] Abbreviation process :=
  (processOperations safeAddressChecksum threshold).

Lemma processOperation_step st op st' :
  processOperation safeAddressChecksum threshold st op = Returned st' →
  applyOperation (ls_ownerLinkedList st) op = Some (ls_ownerLinkedList st') ∧
  ls_transactions st' =
    ls_transactions st ++
    [descriptorFor safeAddressChecksum threshold (ls_ownerLinkedList st) op] ∧
  ls_hasAddOrRemove st' = ls_hasAddOrRemove st || isAddOrRemove op.
Proof.
  destruct op as [oldOwner newOwner|owner|owner]; simpl.
  - intros [= <-]. simpl. by rewrite orb_false_r.
  - destruct (applyAdd owner (ls_ownerLinkedList st)) as [obj|]; [|done].
    simpl. intros [= <-]. simpl. by rewrite orb_true_r.
  - intros [= <-]. simpl. by rewrite orb_true_r.
Qed.

Lemma processOperation_returns st op obj :
  applyOperation (ls_ownerLinkedList st) op = Some obj →
  ∃ st', processOperation safeAddressChecksum threshold st op = Returned st'.
Proof.
  destruct op as [oldOwner newOwner|owner|owner]; simpl; [by eexists| |by eexists].
  intros ->. by eexists.
Qed.

Lemma processOperations_app st ops1 ops2 :
  process st (ops1 ++ ops2) =
  st1 ← process st ops1; process st1 ops2.
Proof.
  revert st. induction ops1 as [|op ops1 IH]; intros st; simpl; [done|].
  destruct (processOperation _ _ st op) as [st1| |]; simpl; [|done..].
  apply IH.
Qed.

Lemma processOperations_lockstep operations st st' :
  process st operations = Returned st' →
  replayLinkedList (ls_ownerLinkedList st) operations
    = Some (ls_ownerLinkedList st') ∧
  ls_hasAddOrRemove st' =
    ls_hasAddOrRemove st || existsb isAddOrRemove operations ∧
  ∃ emitted,
    ls_transactions st' = ls_transactions st ++ emitted ∧
    length emitted = length operations ∧
    ∀ k op, operations !! k = Some op →
      ∃ lst,
        replayLinkedList (ls_ownerLinkedList st) (take k operations)
          = Some lst ∧
        emitted !! k =
          Some (descriptorFor safeAddressChecksum threshold lst op).
Proof.
  revert st. induction operations as [|op ops IH]; intros st; simpl.
  - intros [= <-]. rewrite orb_false_r. split_and!; [done..|].
    exists []. by rewrite app_nil_r.
  - destruct (processOperation _ _ st op) as [st1| |] eqn:Hstep;
      simpl; [|done..].
    intros Hrest.
    destruct (processOperation_step _ _ _ Hstep) as (Happly & Htx & Hflag).
    destruct (IH _ Hrest) as (Hreplay & Hflag' & emitted & Hem & Hlen & Hk).
    rewrite Happly. simpl. split_and!; [done| |].
    { rewrite Hflag', Hflag. by rewrite orb_assoc. }
    exists (descriptorFor safeAddressChecksum threshold
              (ls_ownerLinkedList st) op :: emitted).
    split_and!.
    + rewrite Hem, Htx. by rewrite <-app_assoc.
    + simpl. by rewrite Hlen.
    + intros [|k] op' Hop'; simpl in *.
      * simplify_eq. by eexists.
      * rewrite Happly. simpl. by apply Hk.
Qed.
End Lockstep.

Lemma predecessorIn_split p L1 x L2 :
  x ∉ L1 → predecessorIn p (L1 ++ x :: L2) x = lastOf p L1.
Proof.
  revert p. induction L1 as [|y L1 IH]; intros p Hx; simpl.
  - by rewrite decide_True.
  - apply not_elem_of_cons in Hx as [Hxy Hx].
    rewrite decide_False by done. rewrite lastOf_cons. by apply IH.
Qed.

(** On a well-formed list [getPrevOwner] is the element before the owner
    in the sequence that starts at the sentinel. *)
Lemma getPrevOwner_predecessor obj L x :
  NoDup (SENTINEL_OWNERS :: L) →
  obj ≡ₚ links SENTINEL_OWNERS L SENTINEL_OWNERS →
  x ∈ L →
  getPrevOwner (JString x) obj = JString (predecessorIn SENTINEL_OWNERS L x).
Proof.
  intros Hnd Hperm (L1 & L2 & ->)%list_elem_of_split.
  destruct (applyRemove_links obj L1 x L2 Hnd Hperm) as [-> _].
  rewrite predecessorIn_split; [done|].
  apply NoDup_cons in Hnd as [_ Hnd].
  apply NoDup_app in Hnd as (_ & Hdisj & _).
  intros Hin. apply (Hdisj _ Hin). left.
Qed.

(** ** What a returned run went through *)

Lemma buildTransactions_Returned safeAddressChecksum currentOwners
    currentThreshold validatedNewOwners threshold txs :
  buildTransactions safeAddressChecksum currentOwners currentThreshold
    validatedNewOwners threshold = Returned txs →
  ∃ operations st,
    calculateEditOperations (JString <$> currentOwners)
      (reorderNewOwners currentOwners validatedNewOwners) = inr operations ∧
    processOperations safeAddressChecksum threshold
      (initialLoopState currentOwners) operations = Returned st ∧
    txs = ls_transactions st ++
          (if bool_decide (threshold ≠ currentThreshold)
              && negb (ls_hasAddOrRemove st) && existsb isSwap operations
           then [createChangeThresholdTransaction safeAddressChecksum
                   threshold]
           else []).
Proof.
  unfold buildTransactions.
  destruct (calculateEditOperations _ _) as [e|operations] eqn:Hops;
    simpl; [done|].
  fold (initialLoopState currentOwners).
  destruct (processOperations _ _ _ operations) as [st| |] eqn:Hst;
    simpl; [|done..].
  intros Htxs. exists operations, st. split_and!; [done..|].
  destruct (bool_decide (threshold ≠ currentThreshold)); simpl in *.
  - destruct (negb (ls_hasAddOrRemove st) && existsb isSwap operations);
      injection Htxs as <-; [done|by rewrite app_nil_r].
  - injection Htxs as <-. by rewrite app_nil_r.
Qed.

Lemma mapThrowing_Returned {A B : Type} (f : A → Outcome B) l ys :
  mapThrowing f l = Returned ys → Forall2 (λ x y, f x = Returned y) l ys.
Proof.
  revert ys. induction l as [|x l IH]; intros ys; simpl.
  - intros [= <-]. constructor.
  - destruct (f x) as [y| |] eqn:Hx; simpl; [|done..].
    destruct (mapThrowing f l) as [ys'| |]; simpl; [|done..].
    intros [= <-]. constructor; [done|]. by apply IH.
Qed.

Lemma mapThrowing_Forall2 {A B : Type} (f : A → Outcome B) l ys :
  Forall2 (λ x y, f x = Returned y) l ys → mapThrowing f l = Returned ys.
Proof. induction 1 as [|x y l ys Hx _ IH]; simpl; [done|]. by rewrite Hx, IH. Qed.

Lemma orThrow_Returned {A : Type} e (o : option A) a :
  orThrow e o = Returned a ↔ o = Some a.
Proof. destruct o; simpl; split; congruence. Qed.

Lemma generateTransactions_Returned w options batch :
  generateTransactions w options = Returned batch →
  ∃ safeIn ownersIn chain key safe validated raw current thr0,
    required (safeAddress options) = Some safeIn ∧
    newOwners options = Some ownersIn ∧
    required (chainId options) = Some chain ∧
    required (alchemyApiKey options) = Some key ∧
    getAddress w safeIn = Some safe ∧
    Forall2 (λ addr v, getAddress w (trim w addr) = Some v)
            ownersIn validated ∧
    getOwners w (alchemyMainnetUrl key) safe = Some raw ∧
    Forall2 (λ addr v, getAddress w addr = Some v) raw current ∧
    getThreshold w (alchemyMainnetUrl key) safe = Some thr0 ∧
    length (JsSet.of_array validated) = length validated ∧
    ∃ txs,
      buildTransactions safe current thr0 validated
        (default thr0 (newThreshold options)) = Returned txs ∧
      batch = finishBatch w chain safe txs.
Proof.
  unfold generateTransactions.
  destruct (required (safeAddress options)) as [safeIn|]; [|done].
  destruct (newOwners options) as [ownersIn|]; [|done].
  destruct (required (chainId options)) as [chain|]; [|done].
  destruct (required (alchemyApiKey options)) as [key|]; [|done].
  fold (alchemyMainnetUrl key).
  destruct (getAddress w safeIn) as [safe|] eqn:Hsafe; simpl; [|done].
  destruct (mapThrowing (validateNewOwner w) ownersIn) as [validated| |]
    eqn:Hval; simpl; [|done..].
  destruct (getOwners w _ safe) as [raw|] eqn:Hraw; simpl; [|done].
  destruct (mapThrowing _ raw) as [current| |] eqn:Hcur; simpl; [|done..].
  destruct (getThreshold w _ safe) as [thr0|] eqn:Hthr; simpl; [|done].
  case_bool_decide as Hdup; [done|].
  destruct (buildTransactions _ _ _ _ _) as [txs| |] eqn:Htxs;
    simpl; [|done..].
  intros [= <-].
  exists safeIn, ownersIn, chain, key, safe, validated, raw, current, thr0.
  split_and!; try done.
  - apply mapThrowing_Returned in Hval.
    eapply Forall2_impl; [exact Hval|]. intros addr v.
    unfold validateNewOwner. by rewrite orThrow_Returned.
  - apply mapThrowing_Returned in Hcur.
    eapply Forall2_impl; [exact Hcur|]. intros addr v.
    by rewrite orThrow_Returned.
  - by exists txs.
Qed.


Lemma processOperations_invariant safeAddressChecksum threshold
    operations st owners :
  linkedListInvariant (ls_ownerLinkedList st) owners →
  applicableInOrder owners operations →
  ∃ st',
    processOperations safeAddressChecksum threshold st operations
      = Returned st' ∧
    linkedListInvariant (ls_ownerLinkedList st')
      (replayOperations owners operations).
Proof.
  revert st owners.
  induction operations as [|op ops IH]; intros st owners Hinv Happ; simpl.
  - by exists st.
  - destruct Happ as [Hop Hrest].
    destruct (applyOperation_invariant _ _ _ Hinv Hop)
      as (obj' & Happly & Hinv').
    destruct (processOperation_returns safeAddressChecksum threshold
                _ _ _ Happly) as (st1 & Hstep).
    rewrite Hstep. simpl.
    destruct (processOperation_step _ _ _ _ _ Hstep) as (Happly' & _ & _).
    rewrite Happly in Happly'. injection Happly' as ->.
    by apply IH.
Qed.

Lemma applicableInOrder_take owners operations k :
  applicableInOrder owners operations →
  applicableInOrder owners (take k operations).
Proof.
  revert owners k. induction operations as [|op ops IH]; intros owners k.
  - by rewrite take_nil.
  - destruct k as [|k]; [done|]. simpl. intros [Hop Hrest].
    split; [done|]. by apply IH.
Qed.

(** When every operation is applicable to the owner list at the point
    where it is processed, the simulator is well formed after each mutation
    of the loop: after the first [k] operations the loop has not thrown,
    the simulator holds exactly the cycle through the owners obtained by
    replaying those operations, and the walk from the sentinel visits
    exactly these owners, once each. *)
Lemma applicable_operations_preserve_linked_list
    (safeAddressChecksum : string) (threshold : Z)
    (currentOwners : list string) (operations : list EditOperation) :
  NoDup (SENTINEL_OWNERS :: currentOwners) →
  (EmptyString ∉ currentOwners) →
  applicableInOrder (JString <$> currentOwners) operations →
  ∀ k, ∃ st,
    processOperations safeAddressChecksum threshold
      (initialLoopState currentOwners) (take k operations) = Returned st ∧
    linkedListInvariant (ls_ownerLinkedList st)
      (replayOperations (JString <$> currentOwners) (take k operations)) ∧
    walkOwners (ls_ownerLinkedList st)
      = Some (replayOperations (JString <$> currentOwners)
                (take k operations)) ∧
    NoDup (replayOperations (JString <$> currentOwners) (take k operations)).
Proof.
  intros Hnd Hne Happ k.
  destruct (processOperations_invariant safeAddressChecksum threshold
              (take k operations) (initialLoopState currentOwners)
              (JString <$> currentOwners))
    as (st & Hst & Hinv).
  { by apply buildOwnerLinkedList_invariant. }
  { by apply applicableInOrder_take. }
  exists st. split_and!; [done..| |].
  - by apply linkedListInvariant_walk.
  - destruct Hinv as (L & -> & HndL & _). apply JString_inj_NoDup.
    by apply NoDup_cons in HndL as [_ ?].
Qed.

(** ** The threshold guard *)

Lemma mapThrowing_length {A B : Type} (f : A → Outcome B) l ys :
  mapThrowing f l = Returned ys → length ys = length l.
Proof.
  intros Hmap%mapThrowing_Returned. symmetry. by eapply Forall2_length.
Qed.

Lemma mapThrowing_not_Diverges {A B : Type} (f : A → Outcome B) l :
  (∀ x, f x ≠ Diverges) → mapThrowing f l ≠ Diverges.
Proof.
  intros Hf. induction l as [|x l IH]; simpl; [done|].
  specialize (Hf x). destruct (f x); simpl; [|done..].
  destruct (mapThrowing f l); simpl; done.
Qed.

Lemma orThrow_not_Diverges {A : Type} e (o : option A) :
  orThrow e o ≠ Diverges.
Proof. by destruct o. Qed.

(** C3 (as amended). In the revision that carries the guard, a run whose
    target threshold exceeds the number of new owners ends in an error and
    returns no batch. *)
Theorem guarded_threshold_above_owner_count_is_rejected
    (w : World) (options : Guarded.Options) (ownersIn : list string) :
  Guarded.newOwners options = Some ownersIn →
  thresholdExceeds w (Guarded.newThreshold options) (length ownersIn) →
  ∃ e, Guarded.generateTransactions w options = Thrown e.
Proof.
  intros Howners Hexceeds. unfold Guarded.generateTransactions.
  rewrite Howners.
  destruct (required (Guarded.safeAddress options)) as [safeIn|];
    [|by eexists].
  destruct (required (Guarded.chainId options)) as [chain|]; [|by eexists].
  destruct (getAddress w safeIn) as [safe|]; simpl; [|by eexists].
  destruct (mapThrowing (validateNewOwner w) ownersIn) as [validated|e|]
    eqn:Hval; simpl; [|by eexists|].
  2:{ exfalso. revert Hval. apply mapThrowing_not_Diverges.
      intros x. apply orThrow_not_Diverges. }
  apply mapThrowing_length in Hval.
  destruct (Guarded.getRpcUrl chain _ _) as [url|e|] eqn:Hurl; simpl;
    [|by eexists|].
  2:{ exfalso. revert Hurl. unfold Guarded.getRpcUrl.
      repeat case_match; done. }
  destruct (getOwners w url safe) as [raw|]; simpl; [|by eexists].
  destruct (mapThrowing _ raw) as [current|e|] eqn:Hcur; simpl;
    [|by eexists|].
  2:{ exfalso. revert Hcur. apply mapThrowing_not_Diverges.
      intros x. apply orThrow_not_Diverges. }
  destruct (getThreshold w url safe) as [thr0|] eqn:Hthr; simpl;
    [|by eexists].
  case_bool_decide; [by eexists|].
  rewrite bool_decide_eq_true_2; [by eexists|].
  rewrite Hval. unfold thresholdExceeds in Hexceeds.
  destruct (Guarded.newThreshold options) as [t|]; simpl; [done|].
  by eapply Hexceeds.
Qed.

Lemma guarded_threshold_above_owner_count_is_rejected_witness :
  ∃ e, Guarded.generateTransactions
         (exampleWorld [ownerA; ownerB; ownerC] 2)
         (Guarded.exampleOptions [ownerD; ownerE; ownerC] (Some 4%Z))
       = Thrown e.
Proof.
  apply (guarded_threshold_above_owner_count_is_rejected
           (exampleWorld [ownerA; ownerB; ownerC] 2)
           (Guarded.exampleOptions [ownerD; ownerE; ownerC] (Some 4%Z))
           [ownerD; ownerE; ownerC]).
  - reflexivity.
  - simpl. lia.
Defined.

(** A target threshold of 0 with one desired owner is accepted: both
    revisions return a batch. *)
Lemma threshold_below_one_is_accepted :
  (0 < 1)%Z ∧
  (∃ batch,
     Guarded.generateTransactions (exampleWorld [ownerA] 1)
       (Guarded.exampleOptions [ownerA] (Some 0%Z)) = Returned batch) ∧
  (∃ batch,
     generateTransactions (exampleWorld [ownerA] 1)
       (exampleOptions [ownerA] (Some 0%Z)) = Returned batch).
Proof.
  split; [lia|]. split; eexists; vm_compute; reflexivity.
Qed.

(** ** Worked runs *)

(** C1 (the run where it fails). With current owners [A, B] and the
    desired set [{A}], the alignment leaves a [null] placeholder at B's
    index, the edit script turns it into a swap of B for [null], the batch
    is one [swapOwner(A, B, null)], and replaying the emitted operation on
    the current owners gives A and [null], which is not the desired set. *)
Theorem shrinking_owner_set_swaps_in_null_placeholder :
  reorderNewOwners [ownerA; ownerB] [ownerA] = [JString ownerA; JNull] ∧
  calculateEditOperations (JString <$> [ownerA; ownerB])
    (reorderNewOwners [ownerA; ownerB] [ownerA])
    = inr [OpSwap (JString ownerB) JNull] ∧
  generateTransactions (exampleWorld [ownerA; ownerB] 1)
    (exampleOptions [ownerA] None)
    = Returned
        (finishBatch (exampleWorld [ownerA; ownerB] 1) "1" safeOne
           [createSwapOwnerTransaction safeOne (JString ownerB) JNull
              (buildOwnerLinkedList [ownerA; ownerB] SENTINEL_OWNERS)]) ∧
  replayOperations (JString <$> [ownerA; ownerB])
    [OpSwap (JString ownerB) JNull] = [JString ownerA; JNull] ∧
  ¬ (∀ v, v ∈ [JString ownerA; JNull] ↔ v ∈ (JString <$> [ownerA])).
Proof.
  split_and!; [by vm_compute..|].
  intros Hsame. assert (JNull ∈ (JString <$> [ownerA])) as Hin.
  { apply Hsame. right. left. }
  apply list_elem_of_fmap in Hin as (? & [=] & _).
Qed.

(** C2 (the run where it fails). With current owners [A, B], the same
    desired owners and the threshold changed from 1 to 2, there is no
    operation, hence no swap, and the batch holds no transaction at all:
    the [changeThreshold(2)] is not emitted. *)
Theorem threshold_only_change_emits_nothing :
  calculateEditOperations (JString <$> [ownerA; ownerB])
    (reorderNewOwners [ownerA; ownerB] [ownerA; ownerB]) = inr [] ∧
  generateTransactions (exampleWorld [ownerA; ownerB] 1)
    (exampleOptions [ownerA; ownerB] (Some 2%Z))
    = Returned
        (finishBatch (exampleWorld [ownerA; ownerB] 1) "1" safeOne []) ∧
  [] ≠ [createChangeThresholdTransaction safeOne 2].
Proof. split_and!; [by vm_compute..|done]. Qed.

(** Example A as the code runs it: one swap, not a remove and an add. *)
Lemma exampleA_is_one_swap_not_remove_then_add :
  ∃ txs,
    buildTransactions safeOne [ownerA; ownerB; ownerC] 2
      [ownerA; ownerC; ownerD] 2 = Returned txs ∧
    generateTransactions (exampleWorld [ownerA; ownerB; ownerC] 2)
      (exampleOptions [ownerA; ownerC; ownerD] None)
      = Returned (finishBatch (exampleWorld [ownerA; ownerB; ownerC] 2)
                    "1" safeOne txs) ∧
    length txs = 1 ∧
    txs ≠ [createRemoveOwnerTransaction safeOne (JString ownerB) 2
             (buildOwnerLinkedList [ownerA; ownerB; ownerC] SENTINEL_OWNERS);
           createAddOwnerTransaction safeOne (JString ownerD) 2].
Proof.
  eexists. split; [by vm_compute|]. split_and!; [by vm_compute|done|done].
Qed.


(** In that run the second swap names the owner put in by the first swap
    as its predecessor, not the owner that was there when the state was
    fetched. *)
Lemma second_swap_uses_fresh_predecessor :
  ∃ batch tx,
    generateTransactions (exampleWorld [ownerA; ownerB; ownerC] 2)
      (exampleOptions [ownerD; ownerE; ownerC] None) = Returned batch ∧
    transactions batch !! 1 = Some tx ∧
    inputValue tx "oldOwner" = JString ownerB ∧
    inputValue tx "prevOwner" = JString ownerD ∧
    getPrevOwner (JString ownerB)
      (buildOwnerLinkedList [ownerA; ownerB; ownerC] SENTINEL_OWNERS)
      = JString ownerA.
Proof. do 2 eexists. split_and!; by vm_compute. Qed.


(** C9 (as amended). For current owners [A, B, C] and desired owners
    [{A, C, D}] with the threshold unchanged, the alignment keeps A at
    index 0 and C at index 2 and puts D into the hole at index 1, the edit
    script is the single swap of B for D, and the batch is exactly one
    transaction, [swapOwner(A, B, D)], whose prevOwner is A. *)
Theorem exampleA_emits_single_swap (safeAddressChecksum : string)
    (threshold : Z) :
  reorderNewOwners [ownerA; ownerB; ownerC] [ownerA; ownerC; ownerD]
    = [JString ownerA; JString ownerD; JString ownerC] ∧
  calculateEditOperations (JString <$> [ownerA; ownerB; ownerC])
    (reorderNewOwners [ownerA; ownerB; ownerC] [ownerA; ownerC; ownerD])
    = inr [OpSwap (JString ownerB) (JString ownerD)] ∧
  buildTransactions safeAddressChecksum [ownerA; ownerB; ownerC] threshold
    [ownerA; ownerC; ownerD] threshold
    = Returned
        [{| tx_to := safeAddressChecksum;
            tx_value := "0";
            tx_data := JNull;
            contractMethod :=
              {| inputs := [addressInput "prevOwner"; addressInput "oldOwner";
                            addressInput "newOwner"];
                 method_name := "swapOwner";
                 payable := false |};
            contractInputsValues :=
              [("prevOwner", JString ownerA);
               ("oldOwner", JString ownerB);
               ("newOwner", JString ownerD)] |}].
Proof.
  split; [by vm_compute|]. split; [by vm_compute|].
  unfold buildTransactions.
  replace (calculateEditOperations (JString <$> [ownerA; ownerB; ownerC])
             (reorderNewOwners [ownerA; ownerB; ownerC]
                [ownerA; ownerC; ownerD]))
    with (inr (A:=Error) [OpSwap (JString ownerB) (JString ownerD)])
    by (by vm_compute).
  simpl. by rewrite bool_decide_eq_false_2 by (by intros Hne).
Qed.

(** ** The checksum *)

Lemma json_clone_keys props :
  ∀ props', json_clone (JsonObject props) = JsonObject props' →
  props'.*1 ⊆ props.*1.
Proof.
  intros props' [= <-]. induction props as [|[k v] props IH]; [done|].
  simpl. destruct (json_clone v); simpl;
    first [apply list_subseteq_skip; exact IH
          |apply list_subseteq_cons; exact IH].
Qed.

Lemma prop_lookup_absent {V : Type} (props : list (string * V)) k :
  k ∉ props.*1 → prop_lookup props k = None.
Proof.
  induction props as [|[k' v] props IH]; simpl; [done|].
  intros [Hne Hk]%not_elem_of_cons. rewrite decide_False by done.
  by apply IH.
Qed.

Lemma stringifyWithAllowlist_object quote allowlist props :
  stringifyWithAllowlist quote allowlist (JsonObject props) =
  Some ("{" +:+
        join_comma
          (omap (λ k,
                   s ← mjoin (prop_lookup
                                (map (λ kv,
                                        (kv.1,
                                         stringifyWithAllowlist quote
                                           allowlist kv.2)) props) k);
                   Some (quote k +:+ ":" +:+ s))
                allowlist)
        +:+ "}").
Proof. reflexivity. Qed.

(** An object none of whose properties is named in the allowlist is
    written as the empty object, whatever it holds. *)
Lemma stringifyWithAllowlist_filtered quote allowlist props :
  (∀ k, k ∈ allowlist → k ∉ props.*1) →
  stringifyWithAllowlist quote allowlist (JsonObject props) = Some "{}".
Proof.
  intros Hout. rewrite stringifyWithAllowlist_object.
  set (written := map (λ kv : string * json,
                         (kv.1, stringifyWithAllowlist quote allowlist kv.2))
                      props).
  assert (written.*1 = props.*1) as Hkeys.
  { subst written. clear. induction props as [|[k v] props IH]; [done|].
    simpl. by f_equal. }
  assert (∀ ks, (∀ k, k ∈ ks → k ∉ props.*1) →
            omap (λ k, s ← mjoin (prop_lookup written k);
                       Some (quote k +:+ ":" +:+ s)) ks = []) as Hnone.
  { clear Hout. intros ks. induction ks as [|k ks IH]; intros Hout; [done|].
    simpl. rewrite prop_lookup_absent by (rewrite Hkeys; apply Hout; left).
    simpl. apply IH. intros k' Hk'. apply Hout. by right. }
  by rewrite Hnone.
Qed.

Lemma json_clone_object_is_object props :
  ∃ props', json_clone (JsonObject props) = JsonObject props'.
Proof. by eexists. Qed.

Lemma stringify_cloned_transaction quote (t : Transaction) :
  stringifyWithAllowlist quote
    ["chainId"; "createdAt"; "meta"; "transactions"; "version"]
    (json_clone (json_of_transaction t)) = Some "{}".
Proof.
  destruct (json_clone_object_is_object
              [("to", JsonString (tx_to t));
               ("value", JsonString (tx_value t));
               ("data", json_of_jsval (tx_data t));
               ("contractMethod", json_of_method (contractMethod t));
               ("contractInputsValues",
                JsonObject (prod_map id json_of_jsval
                              <$> contractInputsValues t))])
    as (props' & Hclone).
  unfold json_of_transaction. rewrite Hclone.
  apply stringifyWithAllowlist_filtered.
  intros k Hk Hin. apply (json_clone_keys _ _ Hclone) in Hin.
  simpl in Hin. rewrite !elem_of_cons, elem_of_nil in Hk, Hin.
  destruct Hk as [->|[->|[->|[->|[->|[]]]]]];
    destruct Hin as [?|[?|[?|[?|[?|[]]]]]]; done.
Qed.

(** The text that is hashed holds the chain id, the creation time, the
    version and one empty object per transaction; [meta] is written as an
    empty object. *)
Lemma blankChecksum_batch (b : Batch) :
  blankChecksum (json_of_batch b) =
  JsonObject
    [("version", JsonString (version b));
     ("chainId", JsonString (batch_chainId b));
     ("createdAt", JsonNumber (createdAt b));
     ("meta",
      JsonObject
        [("name", JsonString (meta_name (meta b)));
         ("description", JsonString (description (meta b)));
         ("txBuilderVersion", JsonString (txBuilderVersion (meta b)));
         ("createdFromSafeAddress",
          JsonString (createdFromSafeAddress (meta b)));
         ("createdFromOwnerAddress",
          JsonString (createdFromOwnerAddress (meta b)));
         ("checksum", JsonString EmptyString)]);
     ("transactions",
      JsonArray (json_clone <$> (json_of_transaction <$> transactions b)))].
Proof.
  assert (∀ items : list json,
            (∀ x, x ∈ items → x ≠ JsonUndefined) →
            map (λ x, match x with
                      | JsonUndefined => JsonNull
                      | _ => json_clone x
                      end) items = json_clone <$> items) as Hitems.
  { intros items. induction items as [|x items IH]; intros Hx; [done|].
    simpl. f_equal.
    - assert (x ≠ JsonUndefined) by (apply Hx; left). by destruct x.
    - apply IH. intros y Hy. apply Hx. by right. }
  unfold blankChecksum, json_of_batch, json_of_meta.
  assert (∀ x, x ∈ (json_of_transaction <$> transactions b) →
               x ≠ JsonUndefined) as Hdefined.
  { intros x (t & -> & _)%list_elem_of_fmap. done. }
  pose proof (Hitems _ Hdefined) as Hmap. clear Hitems Hdefined.
  revert Hmap. generalize (json_of_transaction <$> transactions b) as items.
  intros items Hmap. rewrite <-Hmap. reflexivity.
Qed.

(** The text that is hashed holds the chain id, the creation time, the
    version and one empty object per transaction; [meta] is written as an
    empty object. *)
Lemma calculateChecksum_hashedText w (b : Batch) :
  calculateChecksum w (json_of_batch b) =
  "0x" +:+ keccak256 w (hashedText w (version b) (batch_chainId b)
                          (createdAt b) (length (transactions b))).
Proof.
  unfold calculateChecksum. rewrite blankChecksum_batch.
  f_equal. f_equal.
  change (sort_keys (json_keys _))
    with ["chainId"; "createdAt"; "meta"; "transactions"; "version"].
  rewrite stringifyWithAllowlist_object.
  assert (map (λ x, default "null"
                (stringifyWithAllowlist (quoteJSONString w)
                   ["chainId"; "createdAt"; "meta"; "transactions";
                    "version"] x))
              (json_clone <$> (json_of_transaction <$> transactions b))
          = replicate (length (transactions b)) "{}") as Hitems.
  { induction (transactions b) as [|t txs IH]; [done|].
    rewrite !fmap_cons. cbn [map length replicate].
    rewrite stringify_cloned_transaction. simpl default. f_equal. apply IH. }
  revert Hitems.
  generalize (json_clone <$> (json_of_transaction <$> transactions b))
    as items.
  intros items Hitems. unfold hashedText. rewrite <-Hitems. reflexivity.
Qed.

(** The checksum is the same for any two batches that agree on version,
    chain id, creation time and number of transactions. *)
Lemma calculateChecksum_blind w (b1 b2 : Batch) :
  version b1 = version b2 →
  batch_chainId b1 = batch_chainId b2 →
  createdAt b1 = createdAt b2 →
  length (transactions b1) = length (transactions b2) →
  calculateChecksum w (json_of_batch b1)
  = calculateChecksum w (json_of_batch b2).
Proof.
  intros Hv Hc Ht Hn. rewrite !calculateChecksum_hashedText.
  by rewrite Hv, Hc, Ht, Hn.
Qed.

(** C8 (the batches where it fails). The two batches below differ in the
    target, in every owner argument of their transaction and in the Safe
    address of their [meta], yet in every world they get the same
    checksum: the text that is hashed mentions neither, it writes [meta]
    and the transaction as empty objects. *)
Theorem checksum_ignores_nested_fields (w : World) :
  transactions (batchSwapBforD w) ≠ transactions (batchSwapCforE w) ∧
  createdFromSafeAddress (meta (batchSwapBforD w))
    ≠ createdFromSafeAddress (meta (batchSwapCforE w)) ∧
  checksum (meta (batchSwapBforD w)) = checksum (meta (batchSwapCforE w)) ∧
  checksum (meta (batchSwapBforD w))
    = "0x" +:+ keccak256 w (hashedText w "1.0" "1" (dateNow w) 1) ∧
  calculateChecksum w (json_of_batch (batchSwapBforD w))
    = calculateChecksum w (json_of_batch (batchSwapCforE w)).
Proof.
  split_and!.
  - by vm_compute.
  - by vm_compute.
  - unfold batchSwapBforD, batchSwapCforE, finishBatch. simpl.
    by apply calculateChecksum_blind.
  - unfold batchSwapBforD, finishBatch. simpl.
    by rewrite calculateChecksum_hashedText.
  - by apply calculateChecksum_blind.
Qed.

(** ** Owner alignment *)

Section Alignment.
Implicit Types cur des rem : list string.

Lemma filter_ext_elem {A : Type} (P Q : A → Prop)
    `{∀ x, Decision (P x)} `{∀ x, Decision (Q x)} (l : list A) :
  (∀ x, x ∈ l → (P x ↔ Q x)) → filter P l = filter Q l.
Proof.
  induction l as [|x l IH]; intros Hext; [done|].
  rewrite !filter_cons.
  assert (P x ↔ Q x) as Hx by (apply Hext; left).
  rewrite IH by (intros y Hy; apply Hext; by right).
  destruct (decide (P x)), (decide (Q x)); tauto.
Qed.

Lemma JsSet_add_fresh (s : list string) x :
  x ∉ s → JsSet.add s x = s ++ [x].
Proof.
  intros Hx. unfold JsSet.add, JsSet.has. by rewrite bool_decide_eq_false_2.
Qed.

Lemma JsSet_of_array_NoDup des : NoDup des → JsSet.of_array des = des.
Proof.
  unfold JsSet.of_array.
  assert (∀ acc, NoDup (acc ++ des) → foldl JsSet.add acc des = acc ++ des)
    as Hgen.
  { induction des as [|d des IH]; intros acc Hnd; simpl.
    - by rewrite app_nil_r.
    - rewrite JsSet_add_fresh.
      + rewrite IH; [by rewrite <-app_assoc|]. by rewrite <-app_assoc.
      + apply NoDup_app in Hnd as (_ & Hdisj & _).
        intros Hin. apply (Hdisj _ Hin). left. }
  intros Hnd. by apply (Hgen []).
Qed.

Lemma alignStep_eq (acc : list jsval) rem c :
  alignStep (acc, rem) c =
  if bool_decide (c ∈ rem)
  then (acc ++ [JString c], filter (λ y, y ≠ c) rem)
  else (acc ++ [JNull], rem).
Proof. reflexivity. Qed.

Lemma foldl_alignStep cur :
  NoDup cur →
  ∀ acc rem,
    foldl alignStep (acc, rem) cur =
    (acc ++ (markOwner rem <$> cur), filter (λ d, d ∉ cur) rem).
Proof.
  induction cur as [|c cur IH]; intros Hnd acc rem.
  - simpl. rewrite app_nil_r. f_equal. symmetry.
    induction rem as [|d rem IHrem]; [done|].
    rewrite filter_cons_True by apply not_elem_of_nil. by f_equal.
  - apply NoDup_cons in Hnd as [Hc Hnd].
    change (foldl alignStep (acc, rem) (c :: cur))
      with (foldl alignStep (alignStep (acc, rem) c) cur).
    rewrite alignStep_eq, fmap_cons. unfold markOwner at 1.
    assert (∀ rem', (∀ d, d ≠ c → d ∈ rem' ↔ d ∈ rem) →
              markOwner rem' <$> cur = markOwner rem <$> cur) as Hmark.
    { intros rem' Hsame. apply list_fmap_ext. intros i d Hd.
      unfold markOwner.
      assert (d ≠ c) as Hdc.
      { intros ->. apply Hc. by eapply list_elem_of_lookup_2. }
      by rewrite (bool_decide_ext _ _ (Hsame d Hdc)). }
    case_bool_decide as Hin.
    + rewrite IH by done. rewrite <-app_assoc. simpl. f_equal.
      * f_equal. f_equal. apply Hmark. intros d Hd.
        rewrite list_elem_of_filter. tauto.
      * rewrite list_filter_filter. apply list_filter_iff. intros d.
        rewrite not_elem_of_cons. tauto.
    + rewrite IH by done. rewrite <-app_assoc. simpl. f_equal.
      apply filter_ext_elem. intros d Hd. rewrite not_elem_of_cons.
      split; [|tauto]. intros Hdc. split; [|done]. by intros ->.
Qed.
Lemma fillStep_eq (reordered : list jsval) rem i :
  fillStep (reordered, rem) i =
  match rem with
  | next :: rest =>
      if negb (truthy (arr_get reordered i))
      then (<[i := JString next]> reordered, rest)
      else (reordered, rem)
  | [] => (reordered, rem)
  end.
Proof. by destruct rem. Qed.

Lemma foldl_fillStep_empty (reordered : list jsval) (indices : list nat) :
  foldl fillStep (reordered, []) indices = (reordered, []).
Proof. induction indices as [|i indices IH]; [done|]. simpl. apply IH. Qed.

Lemma fillHoles_nil (slots : list jsval) : fillHoles slots [] = (slots, []).
Proof. by destruct slots. Qed.

Lemma fillHoles_cons_empty v (slots : list jsval) :
  fillHoles (v :: slots) [] =
  (v :: (fillHoles slots []).1, (fillHoles slots []).2).
Proof. by rewrite !fillHoles_nil. Qed.

Lemma fillHoles_cons_keep v (slots : list jsval) rem :
  truthy v = true →
  fillHoles (v :: slots) rem =
  (v :: (fillHoles slots rem).1, (fillHoles slots rem).2).
Proof.
  intros Hv. destruct rem as [|x rest]; [apply fillHoles_cons_empty|].
  simpl. rewrite Hv. simpl. by destruct (fillHoles slots (x :: rest)).
Qed.

Lemma fillHoles_cons_fill v (slots : list jsval) x rest :
  truthy v = false →
  fillHoles (v :: slots) (x :: rest) =
  (JString x :: (fillHoles slots rest).1, (fillHoles slots rest).2).
Proof.
  intros Hv. simpl. rewrite Hv. simpl. by destruct (fillHoles slots rest).
Qed.

Lemma arr_get_middle (p : list jsval) v slots :
  arr_get (p ++ v :: slots) (length p) = v.
Proof. unfold arr_get. by rewrite list_lookup_middle. Qed.

Lemma foldl_fillStep (slots : list jsval) :
  ∀ (p : list jsval) rem,
    foldl fillStep (p ++ slots, rem) (seq (length p) (length slots)) =
    (p ++ (fillHoles slots rem).1, (fillHoles slots rem).2).
Proof.
  induction slots as [|v slots IH]; intros p rem; [done|].
  cbn [length seq foldl]. rewrite fillStep_eq, arr_get_middle.
  assert (∀ u, foldl fillStep (p ++ u :: slots, rem)
                 (seq (S (length p)) (length slots))
               = (p ++ u :: (fillHoles slots rem).1, (fillHoles slots rem).2))
    as Hnext.
  { intros u. specialize (IH (p ++ [u]) rem).
    rewrite length_app, Nat.add_1_r, <-!app_assoc in IH. exact IH. }
  destruct rem as [|x rest].
  - rewrite foldl_fillStep_empty, fillHoles_nil. done.
  - destruct (truthy v) eqn:Hv; simpl negb; cbv iota.
    + rewrite fillHoles_cons_keep by done. apply Hnext.
    + rewrite fillHoles_cons_fill by done.
      rewrite insert_app_r_alt, Nat.sub_diag by done. simpl insert.
      specialize (IH (p ++ [JString x]) rest).
      rewrite length_app, Nat.add_1_r, <-!app_assoc in IH. exact IH.
Qed.

(** [reorderNewOwners] in closed form, for duplicate-free lists. *)
Lemma reorderNewOwners_closed cur des :
  NoDup cur → NoDup des →
  reorderNewOwners cur des =
  (fillHoles (markOwner des <$> cur) (filter (λ d, d ∉ cur) des)).1
  ++ (JString <$>
        (fillHoles (markOwner des <$> cur) (filter (λ d, d ∉ cur) des)).2).
Proof.
  intros Hcur Hdes. unfold reorderNewOwners, JsSet.to_array.
  rewrite JsSet_of_array_NoDup, foldl_alignStep by done.
  simpl app.
  pose proof (foldl_fillStep (markOwner des <$> cur) []
                (filter (λ d, d ∉ cur) des)) as Hfill.
  simpl in Hfill. rewrite Hfill.
  by destruct (fillHoles _ _).
Qed.
Lemma markOwner_desired des c : c ∈ des → markOwner des c = JString c.
Proof. intros Hc. unfold markOwner. by rewrite bool_decide_eq_true_2. Qed.

Lemma markOwner_other des c : c ∉ des → markOwner des c = JNull.
Proof. intros Hc. unfold markOwner. by rewrite bool_decide_eq_false_2. Qed.

Lemma zip_cons {A B : Type} (a : A) (b : B) l k :
  zip (a :: l) (b :: k) = (a, b) :: zip l k.
Proof. reflexivity. Qed.

Lemma fillHoles_spec des cur :
  (EmptyString ∉ cur) →
  ∀ rem,
    let r := fillHoles (markOwner des <$> cur) rem in
    let holes := length (filter (λ c, c ∉ des) cur) in
    length r.1 = length cur ∧
    (∀ i c, cur !! i = Some c → c ∈ des → r.1 !! i = Some (JString c)) ∧
    (snd <$> filter (λ cv : string * jsval, cv.1 ∉ des) (zip cur r.1))
      ++ (JString <$> r.2)
      = (JString <$> rem) ++ replicate (holes - length rem) JNull ∧
    r.1 ++ (JString <$> r.2) ≡ₚ
      (JString <$> filter (λ c, c ∈ des) cur) ++ (JString <$> rem)
      ++ replicate (holes - length rem) JNull.
Proof.
  induction cur as [|c cur IH]; intros Hne rem r holes.
  - subst r holes. simpl.
    split_and!; [done|by intros i c ?| |]; by rewrite app_nil_r.
  - apply not_elem_of_cons in Hne as [Hc Hne].
    specialize (IH Hne). subst r holes. rewrite fmap_cons.
    destruct (decide (c ∈ des)) as [Hin|Hout].
    + rewrite markOwner_desired by done.
      rewrite fillHoles_cons_keep
        by (simpl; by rewrite (proj2 (String.eqb_neq _ _))).
      destruct (IH rem) as (Hlen & Hkeep & Hslots & Hperm).
      rewrite filter_cons_False by tauto.
      rewrite (filter_cons_True (λ c, c ∈ des)) by done.
      cbn [fst snd]. rewrite zip_cons.
      rewrite filter_cons_False by (cbn [fst]; tauto).
      split_and!.
      * cbn [length]. by rewrite Hlen.
      * intros [|i] c' Hi Hc'; [by simplify_eq/=|]. by apply Hkeep.
      * exact Hslots.
      * rewrite fmap_cons, <-!app_comm_cons. by rewrite Hperm.
    + rewrite markOwner_other by done.
      rewrite filter_cons_True by done.
      rewrite (filter_cons_False (λ c, c ∈ des)) by done.
      destruct rem as [|x rest].
      * rewrite fillHoles_cons_empty.
        destruct (IH []) as (Hlen & Hkeep & Hslots & Hperm).
        cbn [fst snd]. rewrite zip_cons.
        rewrite filter_cons_True by done.
        cbn [length fmap list_fmap app] in *.
        rewrite Nat.sub_0_r in *. cbn [replicate].
        split_and!.
        -- by rewrite Hlen.
        -- intros [|i] c' Hi Hc'; [by simplify_eq/=|]. by apply Hkeep.
        -- cbn [snd]. by rewrite Hslots.
        -- by rewrite Hperm, <-Permutation_middle.
      * rewrite fillHoles_cons_fill by done.
        destruct (IH rest) as (Hlen & Hkeep & Hslots & Hperm).
        cbn [fst snd]. rewrite zip_cons.
        rewrite filter_cons_True by done.
        rewrite !fmap_cons. cbn [length app snd Nat.sub].
        split_and!.
        -- by rewrite Hlen.
        -- intros [|i] c' Hi Hc'; [by simplify_eq/=|]. by apply Hkeep.
        -- by rewrite Hslots.
        -- by rewrite Hperm, <-Permutation_middle.
Qed.

Lemma common_owners_perm cur des :
  NoDup cur → NoDup des →
  filter (λ c, c ∈ des) cur ≡ₚ filter (λ d, d ∈ cur) des.
Proof.
  intros Hcur Hdes. apply NoDup_Permutation.
  - by apply NoDup_filter.
  - by apply NoDup_filter.
  - intros x. rewrite !list_elem_of_filter. tauto.
Qed.

Lemma zip_app_longer {A B : Type} (l : list A) (k extra : list B) :
  length k = length l → zip l (k ++ extra) = zip l k.
Proof.
  revert k. induction l as [|a l IH]; intros [|b k] Hlen; simplify_eq/=;
    [done|]. f_equal. by apply IH.
Qed.

(** The aligned list as a multiset, and the owners it keeps in place. *)
Lemma reorderNewOwners_multiset cur des :
  NoDup cur → NoDup des → (EmptyString ∉ cur) →
  reorderNewOwners cur des ≡ₚ
    (JString <$> des) ++ replicate (length cur - length des) JNull.
Proof.
  intros Hcur Hdes Hne.
  destruct (fillHoles_spec des cur Hne (filter (λ d, d ∉ cur) des))
    as (Hlen & Hkeep & Hslots & Hperm).
  pose proof (common_owners_perm _ _ Hcur Hdes) as Hcommon.
  pose proof (filter_app_complement (λ d, d ∈ cur) des) as Hsplit_des.
  pose proof (filter_app_complement (λ c, c ∈ des) cur) as Hsplit_cur.
  assert (length (filter (λ c, c ∉ des) cur)
          - length (filter (λ d, d ∉ cur) des)
          = length cur - length des) as Hsurplus.
  { apply Permutation_length in Hsplit_des, Hsplit_cur, Hcommon.
    rewrite length_app in Hsplit_des, Hsplit_cur. lia. }
  rewrite Hsurplus in Hperm.
  rewrite reorderNewOwners_closed by done.
  rewrite Hperm, app_assoc, <-fmap_app, Hcommon.
  by rewrite Hsplit_des.
Qed.

Lemma reorderNewOwners_kept cur des i owner :
  NoDup cur → NoDup des → (EmptyString ∉ cur) →
  cur !! i = Some owner → owner ∈ des →
  reorderNewOwners cur des !! i = Some (JString owner).
Proof.
  intros Hcur Hdes Hne Hi Hin.
  destruct (fillHoles_spec des cur Hne (filter (λ d, d ∉ cur) des))
    as (Hlen & Hkeep & _).
  rewrite reorderNewOwners_closed by done.
  rewrite lookup_app_l; [by apply Hkeep|].
  rewrite Hlen. by eapply lookup_lt_Some.
Qed.

(** With at least as many desired owners as current ones the aligned list
    has no placeholder and the shape the edit script relies on. *)
Lemma reorderNewOwners_alignedShape cur des :
  NoDup cur → NoDup des → (EmptyString ∉ cur) →
  length cur ≤ length des →
  ∃ d, reorderNewOwners cur des = JString <$> d ∧ d ≡ₚ des ∧
       alignedShape cur d.
Proof.
  intros Hcur Hdes Hne Hle.
  pose proof (reorderNewOwners_multiset cur des Hcur Hdes Hne) as Hperm.
  replace (length cur - length des) with 0 in Hperm by lia.
  rewrite app_nil_r in Hperm.
  destruct (Permutation_map_inv JString des Hperm) as (d & Hd & Hdd).
  change (map JString d) with (JString <$> d) in Hd.
  exists d. split_and!; [done|by symmetry|].
  split_and!.
  - done.
  - by rewrite <-Hdd.
  - by rewrite <-Hdd.
  - intros i c Hi Hin. rewrite <-Hdd in Hin.
    pose proof (reorderNewOwners_kept cur des i c Hcur Hdes Hne Hi Hin) as Hk.
    rewrite Hd, list_lookup_fmap in Hk.
    destruct (d !! i) as [x|]; simplify_eq/=; done.
Qed.

(** C4 (as amended). For duplicate-free current and desired owners (the
    current owners being non-empty strings) the alignment output holds the
    desired owners, each once, and one [null] placeholder for every owner
    by which the current list exceeds the desired one: every owner present
    in both lists sits at its current index; the other positions of the
    current owners, then the positions past the end of the current owners,
    hold from left to right the remaining desired owners in their original
    order and, once these are used up, [null]. The output is the same
    multiset as the desired owners exactly when the desired owners are at
    least as many as the current ones. *)
Theorem reorderNewOwners_alignment (currentOwners desiredOwners : list string) :
  NoDup currentOwners → NoDup desiredOwners →
  (EmptyString ∉ currentOwners) →
  let aligned := reorderNewOwners currentOwners desiredOwners in
  let surplus := length currentOwners - length desiredOwners in
  aligned ≡ₚ (JString <$> desiredOwners) ++ replicate surplus JNull ∧
  (∀ i owner, currentOwners !! i = Some owner → owner ∈ desiredOwners →
              aligned !! i = Some (JString owner)) ∧
  freeSlots currentOwners desiredOwners aligned
    = (JString <$> filter (λ d, d ∉ currentOwners) desiredOwners)
      ++ replicate surplus JNull ∧
  length aligned = Nat.max (length currentOwners) (length desiredOwners) ∧
  (length currentOwners ≤ length desiredOwners →
   aligned ≡ₚ JString <$> desiredOwners).
Proof.
  intros Hcur Hdes Hne aligned surplus.
  destruct (fillHoles_spec desiredOwners currentOwners Hne
              (filter (λ d, d ∉ currentOwners) desiredOwners))
    as (Hlen & Hkeep & Hslots & Hperm).
  pose proof (common_owners_perm _ _ Hcur Hdes) as Hcommon.
  pose proof (filter_app_complement (λ d, d ∈ currentOwners) desiredOwners)
    as Hsplit_des.
  pose proof (filter_app_complement (λ c, c ∈ desiredOwners) currentOwners)
    as Hsplit_cur.
  assert (length (filter (λ c, c ∉ desiredOwners) currentOwners)
          - length (filter (λ d, d ∉ currentOwners) desiredOwners)
          = surplus) as Hsurplus.
  { subst surplus. apply Permutation_length in Hsplit_des, Hsplit_cur, Hcommon.
    rewrite length_app in Hsplit_des, Hsplit_cur. lia. }
  rewrite Hsurplus in Hslots, Hperm.
  assert (aligned ≡ₚ (JString <$> desiredOwners) ++ replicate surplus JNull)
    as Hmulti.
  { subst aligned. rewrite reorderNewOwners_closed by done.
    rewrite Hperm, app_assoc, <-fmap_app, Hcommon.
    by rewrite Hsplit_des. }
  split_and!.
  - exact Hmulti.
  - intros i owner Hi Hin. subst aligned.
    rewrite reorderNewOwners_closed by done.
    rewrite lookup_app_l; [by apply Hkeep|].
    rewrite Hlen. by eapply lookup_lt_Some.
  - subst aligned. rewrite reorderNewOwners_closed by done.
    unfold freeSlots. rewrite zip_app_longer by done.
    rewrite <-Hlen, drop_app_length. exact Hslots.
  - rewrite Hmulti, length_app, !length_fmap, length_replicate.
    subst surplus. lia.
  - intros Hle. rewrite Hmulti.
    replace surplus with 0 by (subst surplus; lia).
    by rewrite app_nil_r.
Qed.
End Alignment.

Lemma reorderNewOwners_alignment_witness :
  let aligned := reorderNewOwners [ownerA; ownerB; ownerC] [ownerC; ownerD] in
  let surplus := length [ownerA; ownerB; ownerC] - length [ownerC; ownerD] in
  aligned ≡ₚ (JString <$> [ownerC; ownerD]) ++ replicate surplus JNull ∧
  (∀ i owner, [ownerA; ownerB; ownerC] !! i = Some owner →
              owner ∈ [ownerC; ownerD] →
              aligned !! i = Some (JString owner)) ∧
  freeSlots [ownerA; ownerB; ownerC] [ownerC; ownerD] aligned
    = (JString <$> filter (λ d, d ∉ [ownerA; ownerB; ownerC])
                     [ownerC; ownerD])
      ++ replicate surplus JNull ∧
  length aligned = Nat.max (length [ownerA; ownerB; ownerC])
                           (length [ownerC; ownerD]) ∧
  (length [ownerA; ownerB; ownerC] ≤ length [ownerC; ownerD] →
   aligned ≡ₚ JString <$> [ownerC; ownerD]).
Proof.
  apply (reorderNewOwners_alignment [ownerA; ownerB; ownerC]
           [ownerC; ownerD]).
  - apply (bool_decide_unpack _). by vm_compute.
  - apply (bool_decide_unpack _). by vm_compute.
  - apply (bool_decide_unpack _). by vm_compute.
Defined.

(** With current owners [A, B] and the desired set [{A}] the alignment
    output is [A, null]: it is not the same multiset as the desired
    owners. *)
Lemma alignment_of_smaller_set_keeps_placeholder :
  NoDup [ownerA; ownerB] ∧ NoDup [ownerA] ∧
  reorderNewOwners [ownerA; ownerB] [ownerA] = [JString ownerA; JNull] ∧
  ¬ (reorderNewOwners [ownerA; ownerB] [ownerA] ≡ₚ JString <$> [ownerA]).
Proof.
  split_and!.
  - apply (bool_decide_unpack _). by vm_compute.
  - apply (bool_decide_unpack _). by vm_compute.
  - by vm_compute.
  - intros Hperm%Permutation_length. by vm_compute in Hperm.
Qed.

(** ** Where the values of a run come from *)

Lemma JsSet_of_array_subseteq (l : list string) : JsSet.of_array l ⊆ l.
Proof.
  unfold JsSet.of_array.
  assert (∀ acc, foldl JsSet.add acc l ⊆ acc ++ l) as Hgen.
  { induction l as [|x l IH]; intros acc; simpl.
    - by rewrite app_nil_r.
    - etrans; [apply IH|]. unfold JsSet.add, JsSet.has.
      case_bool_decide; intros y;
        rewrite ?elem_of_app, ?elem_of_cons, ?elem_of_nil; tauto. }
  apply (Hgen []).
Qed.

(** Every entry of the aligned list is [null] or one of the new owners. *)
Lemma reorderNewOwners_entries (currentOwners new : list string) v :
  v ∈ reorderNewOwners currentOwners new →
  nullOrKnown (λ s, s ∈ new) v.
Proof.
  unfold reorderNewOwners, JsSet.to_array.
  pose (ok := λ st : list jsval * list string,
          Forall (nullOrKnown (λ s, s ∈ new)) st.1 ∧ st.2 ⊆ new).
  assert (∀ cur st, ok st → ok (foldl alignStep st cur)) as Halign.
  { induction cur as [|c cur IH]; intros st Hst; [done|].
    simpl. apply IH. destruct st as [r rem]. destruct Hst as [Hr Hrem].
    rewrite alignStep_eq. case_bool_decide as Hc; split; simpl.
    - apply Forall_app. split; [done|]. apply Forall_singleton.
      right. exists c. split; [done|]. by apply Hrem.
    - intros x [_ Hx]%list_elem_of_filter. by apply Hrem.
    - apply Forall_app. split; [done|]. apply Forall_singleton. by left.
    - done. }
  assert (∀ indices st, ok st → ok (foldl fillStep st indices)) as Hfill.
  { induction indices as [|i indices IH]; intros st Hst; [done|].
    simpl. apply IH. destruct st as [r rem]. destruct Hst as [Hr Hrem].
    rewrite fillStep_eq. destruct rem as [|x rest]; [done|].
    destruct (negb _); [|done]. split; simpl in *.
    - apply Forall_insert; [done|]. right. exists x. split; [done|].
      apply Hrem. left.
    - intros y Hy. apply Hrem. by right. }
  destruct (foldl alignStep _ currentOwners) as [r1 rem1] eqn:H1.
  assert (ok (r1, rem1)) as Hok1.
  { rewrite <-H1. apply Halign. split; [constructor|].
    apply JsSet_of_array_subseteq. }
  destruct (foldl fillStep _ _) as [r2 rem2] eqn:H2.
  assert (ok (r2, rem2)) as [Hr2 Hrem2].
  { rewrite <-H2. by apply Hfill. }
  simpl in *. rewrite elem_of_app. intros [Hv|Hv].
  - by eapply Forall_forall in Hr2.
  - apply list_elem_of_fmap in Hv as (s & -> & Hs).
    right. exists s. split; [done|]. by apply Hrem2.
Qed.

Lemma arr_get_elem (arr : list jsval) i : i < length arr → arr_get arr i ∈ arr.
Proof.
  intros Hi. unfold arr_get.
  destruct (lookup_lt_is_Some_2 arr i Hi) as [v Hv]. rewrite Hv. simpl.
  by eapply list_elem_of_lookup_2.
Qed.

(** The operations take their owners from the two arrays. *)
Lemma backtrack_operationFrom currentOwners newOwners dp :
  ∀ i j acc operations,
    i ≤ length currentOwners → j ≤ length newOwners →
    Forall (operationFrom currentOwners newOwners) acc →
    backtrack currentOwners newOwners dp i j acc = inr operations →
    Forall (operationFrom currentOwners newOwners) operations.
Proof.
  intros i. induction i as [|i IHi]; intros j; induction j as [|j IHj];
    intros acc operations Hi Hj Hacc; rewrite backtrack_unfold.
  - by intros [= <-].
  - destruct (_ =? _); [|done]. apply IHj; [lia..|].
    constructor; [|done]. simpl. apply arr_get_elem. lia.
  - destruct (_ =? _); [|done]. apply IHi; [lia..|].
    constructor; [|done]. simpl. apply arr_get_elem. lia.
  - destruct (strict_eq _ _); [apply IHi; (lia || done)|].
    destruct (_ =? _).
    { apply IHi; [lia..|]. constructor; [|done]. simpl.
      split; apply arr_get_elem; lia. }
    destruct (_ =? _).
    { apply IHj; [lia..|]. constructor; [|done]. simpl.
      apply arr_get_elem. lia. }
    destruct (_ =? _); [|done].
    apply IHi; [lia..|]. constructor; [|done]. simpl.
    apply arr_get_elem. lia.
Qed.

Lemma calculateEditOperations_operationFrom currentOwners newOwners ops :
  calculateEditOperations currentOwners newOwners = inr ops →
  Forall (operationFrom currentOwners newOwners) ops.
Proof.
  unfold calculateEditOperations.
  apply backtrack_operationFrom; done || constructor.
Qed.

Section KnownEntries.
Variable known : string → Prop.
Hypothesis known_sentinel : known SENTINEL_OWNERS.
Hypothesis known_null : known "null".

Lemma JsObject_set_elem (obj : list (string * jsval)) k v e :
  e ∈ JsObject.set obj k v → e = (k, v) ∨ e ∈ obj.
Proof.
  induction obj as [|[k' v'] obj IH]; simpl.
  - intros ->%list_elem_of_singleton. by left.
  - case_decide as Hk.
    + subst k'. intros [->|He]%elem_of_cons; [by left|].
      right. by right.
    + intros [->|He]%elem_of_cons; [right; left|].
      destruct (IH He) as [->|?]; [by left|]. right. by right.
Qed.

Lemma JsObject_get_elem_or_undefined (obj : list (string * jsval)) k :
  JsObject.get obj k = JUndefined ∨ (k, JsObject.get obj k) ∈ obj.
Proof.
  induction obj as [|[k' v'] obj IH]; simpl; [by left|].
  case_decide as Hk.
  - subst k'. right. left.
  - destruct IH as [->|?]; [by left|]. right. by right.
Qed.

Lemma knownEntries_set obj k v :
  knownEntries known obj → known k →
  v = JUndefined ∨ nullOrKnown known v →
  knownEntries known (JsObject.set obj k v).
Proof.
  intros Hobj Hk Hv k' v' [[= -> ->]|Hin]%JsObject_set_elem; [done|].
  by apply Hobj.
Qed.

Lemma knownEntries_delete obj k :
  knownEntries known obj → knownEntries known (JsObject.delete obj k).
Proof.
  intros Hobj k' v' [_ Hin]%list_elem_of_filter. by apply Hobj.
Qed.

Lemma knownEntries_get obj k :
  knownEntries known obj →
  JsObject.get obj k = JUndefined ∨ nullOrKnown known (JsObject.get obj k).
Proof.
  intros Hobj. destruct (JsObject_get_elem_or_undefined obj k) as [?|Hin];
    [by left|]. by apply Hobj in Hin as [_ ?].
Qed.

Lemma getPrevOwner_shape owner obj :
  getPrevOwner owner obj = JNull ∨ ∃ p, getPrevOwner owner obj = JString p.
Proof.
  unfold getPrevOwner, JsObject.entries.
  induction obj as [|[k v] obj IH]; simpl; [by left|].
  destruct (strict_eq v owner); [right; by eexists|done].
Qed.

Lemma getPrevOwner_known owner obj :
  knownEntries known obj → nullOrKnown known (getPrevOwner owner obj).
Proof.
  intros Hobj. destruct (getPrevOwner_shape owner obj) as [->|[p Hp]];
    [by left|].
  rewrite Hp. right. exists p. split; [done|].
  apply getPrevOwner_found in Hp. by apply Hobj in Hp as [? _].
Qed.

Lemma nullOrKnown_key v : nullOrKnown known v → known (toPropertyKey v).
Proof. intros [->|(s & -> & Hs)]; done. Qed.

Lemma getLastOwner_loop_known obj fuel :
  knownEntries known obj →
  ∀ currentOwner v,
    nullOrKnown known currentOwner →
    getLastOwner_loop fuel obj SENTINEL_OWNERS currentOwner = Some v →
    nullOrKnown known v.
Proof.
  intros Hobj. induction fuel as [|fuel IH]; intros cur v Hcur; [done|].
  simpl.
  destruct (knownEntries_get obj (toPropertyKey cur) Hobj) as [Hu|Hnext].
  - rewrite Hu. simpl. by intros [= <-].
  - destruct (truthy _ && _); [by apply IH|]. by intros [= <-].
Qed.

Lemma getLastOwner_known obj v :
  knownEntries known obj →
  getLastOwner obj SENTINEL_OWNERS = Some v → nullOrKnown known v.
Proof.
  intros Hobj. apply getLastOwner_loop_known; [done|].
  right. by eexists.
Qed.

Lemma applyOperation_known obj op obj' :
  knownEntries known obj → operationKnown known op →
  applyOperation obj op = Some obj' → knownEntries known obj'.
Proof.
  intros Hobj Hop. destruct op as [oldOwner newOwner|owner|owner]; simpl.
  - destruct Hop as [Hold Hnew]. intros [= <-]. unfold updateOwnerLinkedList.
    apply knownEntries_delete.
    assert (knownEntries known
              (JsObject.set obj
                 (toPropertyKey (getPrevOwner oldOwner obj)) newOwner))
      as Hobj1.
    { apply knownEntries_set; [done| |by right].
      by apply nullOrKnown_key, getPrevOwner_known. }
    apply knownEntries_set; [done|by apply nullOrKnown_key|].
    by apply knownEntries_get.
  - unfold applyAdd.
    destruct (getLastOwner obj SENTINEL_OWNERS) as [lastOwner|] eqn:Hlast;
      [|done].
    simpl. intros [= <-].
    apply knownEntries_set; [|by apply nullOrKnown_key|].
    + apply knownEntries_set; [done| |by right].
      eapply nullOrKnown_key, getLastOwner_known; done.
    + right. right. by eexists.
  - intros [= <-]. unfold applyRemove. apply knownEntries_delete.
    apply knownEntries_set; [done| |by apply knownEntries_get].
    by apply nullOrKnown_key, getPrevOwner_known.
Qed.

Lemma replayLinkedList_known operations :
  ∀ obj obj',
    knownEntries known obj → Forall (operationKnown known) operations →
    replayLinkedList obj operations = Some obj' → knownEntries known obj'.
Proof.
  induction operations as [|op ops IH]; intros obj obj' Hobj Hops; simpl.
  - by intros [= <-].
  - apply Forall_cons in Hops as [Hop Hops].
    destruct (applyOperation obj op) as [obj1|] eqn:Hstep; [|done]. simpl.
    apply IH; [|done]. by eapply applyOperation_known.
Qed.
End KnownEntries.

Section BatchArguments.
Variables currentOwners validatedNewOwners : list string.
#[local] Abbreviation known := (knownKey currentOwners validatedNewOwners).
#[local] Abbreviation owned :=
  (ownedAddress currentOwners validatedNewOwners).

Lemma owned_known s : owned s → known s.
Proof. unfold ownedAddress, knownKey. tauto. Qed.

Lemma nullOrKnown_owned_known v : nullOrKnown owned v → nullOrKnown known v.
Proof.
  intros [->|(s & -> & Hs)]; [by left|]. right. exists s.
  split; [done|]. by apply owned_known.
Qed.

Lemma linkSuccessors_known owners :
  ∀ acc, knownEntries known acc → (∀ c, c ∈ owners → known c) →
         knownEntries known (linkSuccessors owners acc).
Proof.
  induction owners as [|c [|d rest] IH]; intros acc Hacc Hown; [done..|].
  change (linkSuccessors (c :: d :: rest) acc)
    with (linkSuccessors (d :: rest) (JsObject.set acc c (JString d))).
  apply IH.
  - apply knownEntries_set; [done|apply Hown; left|].
    right. right. exists d. split; [done|]. apply Hown. right. left.
  - intros x Hx. apply Hown. by right.
Qed.

Lemma buildOwnerLinkedList_known :
  knownEntries known (buildOwnerLinkedList currentOwners SENTINEL_OWNERS).
Proof.
  assert (known SENTINEL_OWNERS) as Hs by (by left).
  assert (∀ c, c ∈ currentOwners → known c) as Hcur.
  { intros c Hc. right. right. by left. }
  unfold buildOwnerLinkedList.
  set (first := arr_get (JString <$> currentOwners) 0).
  assert (nullOrKnown known (if truthy first then first else JString
                               SENTINEL_OWNERS)) as Hfirst.
  { subst first. destruct currentOwners as [|c rest]; simpl.
    - right. by eexists.
    - destruct (negb _).
      + right. exists c. split; [done|]. apply Hcur. left.
      + right. by exists SENTINEL_OWNERS. }
  assert (knownEntries known
            (linkSuccessors currentOwners
               (JsObject.set [] SENTINEL_OWNERS
                  (if truthy first then first else JString SENTINEL_OWNERS))))
    as Hlinked.
  { apply linkSuccessors_known; [|done].
    apply knownEntries_set; [|done|by right].
    intros k v ?%elem_of_nil. done. }
  destruct (last currentOwners) as [lastOwner|] eqn:Hlast; [|done].
  apply knownEntries_set; [done| |].
  - apply Hcur. by apply last_Some_elem_of.
  - right. right. by eexists.
Qed.

Lemma operationFrom_known op :
  operationFrom (JString <$> currentOwners)
    (reorderNewOwners currentOwners validatedNewOwners) op →
  operationKnown owned op.
Proof.
  assert (∀ v, v ∈ (JString <$> currentOwners) → nullOrKnown owned v) as Hc.
  { intros v (s & -> & Hs)%list_elem_of_fmap. right. exists s.
    split; [done|]. by left. }
  assert (∀ v, v ∈ reorderNewOwners currentOwners validatedNewOwners →
               nullOrKnown owned v) as Hn.
  { intros v [->|(s & -> & Hs)]%reorderNewOwners_entries; [by left|].
    right. exists s. split; [done|]. by right. }
  destruct op; simpl; intuition.
Qed.

Lemma operationKnown_owned_known op :
  operationKnown owned op → operationKnown known op.
Proof.
  destruct op; simpl; intuition (by apply nullOrKnown_owned_known).
Qed.

Lemma descriptorFor_arguments safe thr lst op :
  knownEntries known lst → operationKnown owned op →
  tx_to (descriptorFor safe thr lst op) = safe ∧
  ∀ name v, (name, v) ∈ contractInputsValues (descriptorFor safe thr lst op) →
            argumentKnown currentOwners validatedNewOwners name v.
Proof.
  intros Hlst Hop. split; [by destruct op|].
  intros name v Hin. unfold argumentKnown.
  destruct op as [oldOwner newOwner|owner|owner]; simpl in Hin, Hop;
    rewrite ?elem_of_cons, elem_of_nil in Hin;
    destruct_or!; simplify_eq; try by left.
  - right. left. split; [done|]. by apply getPrevOwner_known.
  - right. right. split; [|tauto]. rewrite !elem_of_cons. tauto.
  - right. right. split; [|tauto]. rewrite !elem_of_cons. tauto.
  - right. right. split; [|tauto]. rewrite !elem_of_cons. tauto.
  - right. left. split; [done|]. by apply getPrevOwner_known.
  - right. right. split; [|tauto]. rewrite !elem_of_cons. tauto.
Qed.

Lemma buildTransactions_arguments safe thr0 thr txs :
  buildTransactions safe currentOwners thr0 validatedNewOwners thr
    = Returned txs →
  ∀ tx, tx ∈ txs →
    tx_to tx = safe ∧
    ∀ name v, (name, v) ∈ contractInputsValues tx →
              argumentKnown currentOwners validatedNewOwners name v.
Proof.
  intros Hrun tx Htx.
  destruct (buildTransactions_Returned _ _ _ _ _ _ Hrun)
    as (operations & st & Hops & Hst & ->).
  apply calculateEditOperations_operationFrom in Hops.
  assert (Forall (operationKnown owned) operations) as Howned.
  { eapply Forall_impl; [exact Hops|]. apply operationFrom_known. }
  destruct (processOperations_lockstep _ _ _ _ _ Hst)
    as (_ & _ & emitted & Hem & Hlen & Hk).
  simpl in Hem. rewrite Hem in Htx.
  apply elem_of_app in Htx as [Htx|Htx].
  - apply list_elem_of_lookup in Htx as [k Htx].
    destruct (lookup_lt_is_Some_2 operations k) as [op Hop].
    { rewrite <-Hlen. by eapply lookup_lt_Some. }
    destruct (Hk k op Hop) as (lst & Hlst & Htx').
    rewrite Htx in Htx'. injection Htx' as ->.
    apply descriptorFor_arguments.
    + eapply (replayLinkedList_known known);
        [by left|by right; left|apply buildOwnerLinkedList_known| |exact Hlst].
      apply Forall_take. eapply Forall_impl; [exact Howned|].
      apply operationKnown_owned_known.
    + eapply Forall_forall in Howned; [done|].
      by eapply list_elem_of_lookup_2.
  - destruct (_ && _); [|by apply elem_of_nil in Htx].
    apply list_elem_of_singleton in Htx as ->. split; [done|].
    intros name v [= -> ->]%list_elem_of_singleton. by left.
Qed.
End BatchArguments.

(** ** Validation and duplicate detection *)

Lemma JsSet_of_array_NoDup_result (l : list string) :
  NoDup (JsSet.of_array l).
Proof.
  unfold JsSet.of_array.
  assert (∀ acc, NoDup acc → NoDup (foldl JsSet.add acc l)) as Hgen.
  { induction l as [|x l IH]; intros acc Hacc; [done|]. simpl. apply IH.
    unfold JsSet.add, JsSet.has. case_bool_decide as Hx; [done|].
    apply NoDup_app. split_and!; [done| |apply NoDup_singleton].
    by intros y Hy ->%list_elem_of_singleton. }
  apply Hgen. constructor.
Qed.

(** The size test of the duplicate check passes exactly on duplicate-free
    lists. *)
Lemma JsSet_size_NoDup (l : list string) :
  length (JsSet.of_array l) = length l ↔ NoDup l.
Proof.
  split.
  - intros Hlen.
    assert (JsSet.of_array l ≡ₚ l) as Hperm.
    { apply submseteq_length_Permutation; [|lia].
      apply NoDup_submseteq; [apply JsSet_of_array_NoDup_result|].
      apply JsSet_of_array_subseteq. }
    rewrite <-Hperm. apply JsSet_of_array_NoDup_result.
  - intros Hnd. by rewrite JsSet_of_array_NoDup.
Qed.

Lemma mapThrowing_Thrown {A B : Type} (f : A → Outcome B) l x :
  (∀ y, f y ≠ Diverges) → x ∈ l → (∀ b, f x ≠ Returned b) →
  ∃ e y, mapThrowing f l = Thrown e ∧ y ∈ l ∧ f y = Thrown e.
Proof.
  intros Hf Hx Hfx. induction l as [|a l IH]; [by apply elem_of_nil in Hx|].
  simpl. destruct (f a) as [b|e|] eqn:Ha; simpl.
  - apply elem_of_cons in Hx as [->|Hx]; [by destruct (Hfx b)|].
    destruct (IH Hx) as (e & y & -> & Hy & Hfy). simpl.
    exists e, y. split_and!; [done|by right|done].
  - exists e, a. split_and!; [done|left|done].
  - by destruct (Hf a).
Qed.

Lemma Forall2_elem_r {A B : Type} (R : A → B → Prop) l k y :
  Forall2 R l k → y ∈ k → ∃ x, x ∈ l ∧ R x y.
Proof.
  intros HR [i Hi]%list_elem_of_lookup.
  destruct (Forall2_lookup_r _ _ _ _ _ HR Hi) as (x & Hx & Hxy).
  exists x. split; [by eapply list_elem_of_lookup_2|done].
Qed.



(** The same address in two letter cases is a duplicate; a string that is
    not an address is rejected whatever the contract holds. *)
Lemma duplicate_in_other_case_and_invalid_address :
  generateTransactions (exampleWorld [ownerA; ownerB; ownerC] 2)
    (exampleOptions [ownerD; ownerDshouted] None) = Thrown DuplicateAddresses ∧
  (∀ owners thr,
     generateTransactions (exampleWorld owners thr)
       (exampleOptions [ownerD; "0x123"] None)
     = Thrown (InvalidEthereumAddress "0x123")) ∧
  ∃ batch,
    generateTransactions (exampleWorld [ownerA; ownerB; ownerC] 2)
      (exampleOptions [ownerDshouted; ownerE; ownerC] None)
      = Returned batch ∧
    (λ tx, inputValue tx "newOwner") <$> transactions batch !! 0
      = Some (JString ownerD).
Proof.
  split; [by vm_compute|]. split; [intros owners thr; by vm_compute|].
  eexists. split; by vm_compute.
Qed.

(** ** The edit script of aligned lists *)

Ltac order_min_max :=
  repeat match goal with
         | |- context [Nat.min ?a ?b] =>
             first [rewrite (Nat.min_l a b) by lia
                   |rewrite (Nat.min_r a b) by lia]
         | |- context [Nat.max ?a ?b] =>
             first [rewrite (Nat.max_l a b) by lia
                   |rewrite (Nat.max_r a b) by lia]
         end.

Section AlignedScript.
Variables cur d : list string.
Hypothesis shape : alignedShape cur d.
#[local] Abbreviation m := (length cur).
#[local] Abbreviation n := (length d).
#[local] Abbreviation D :=
  (prefix_distance (JString <$> cur) (JString <$> d)).
#[local] Abbreviation h := (holesBefore cur d).

Lemma equal_only_on_diagonal i j c :
  cur !! i = Some c → d !! j = Some c → i = j.
Proof.
  destruct shape as (_ & Hd & _ & Hal). intros Hi Hj.
  assert (d !! i = Some c) as Hi'.
  { apply Hal; [done|]. by eapply list_elem_of_lookup_2. }
  by eapply NoDup_lookup.
Qed.

Lemma holesBefore_hole k c :
  cur !! k = Some c → c ∉ d → h (S k) = S (h k).
Proof.
  intros Hk Hc. unfold holesBefore.
  rewrite (take_S_r _ _ _ Hk), filter_app, length_app.
  rewrite filter_cons_True by done. simpl. lia.
Qed.

Lemma holesBefore_kept k c :
  cur !! k = Some c → c ∈ d → h (S k) = h k.
Proof.
  intros Hk Hc. unfold holesBefore.
  rewrite (take_S_r _ _ _ Hk), filter_app, length_app.
  rewrite filter_cons_False by tauto. simpl. lia.
Qed.

Lemma holesBefore_step k : k < m → h k ≤ h (S k) ≤ S (h k).
Proof.
  intros Hk. destruct (lookup_lt_is_Some_2 cur k Hk) as [c Hc].
  destruct (decide (c ∈ d)).
  - rewrite (holesBefore_kept k c) by done. lia.
  - rewrite (holesBefore_hole k c) by done. lia.
Qed.

Lemma arr_get_JString (l : list string) k x :
  l !! k = Some x → arr_get (JString <$> l) k = JString x.
Proof. intros Hk. unfold arr_get. by rewrite list_lookup_fmap, Hk. Qed.

Lemma strict_eq_JString x y :
  strict_eq (JString x) (JString y) = bool_decide (x = y).
Proof.
  unfold strict_eq. apply bool_decide_ext. split; [by intros [=]|by intros ->].
Qed.

(** The distance of two prefixes of aligned lists in closed form. *)
Lemma prefix_distance_aligned i :
  ∀ j, i ≤ m → j ≤ n →
       D i j = (Nat.max i j - Nat.min i j) + h (Nat.min i j).
Proof.
  induction i as [|i IHi]; intros j; induction j as [|j IHj]; intros Hi Hj.
  - by rewrite D_row0 by (rewrite length_fmap; lia).
  - rewrite D_row0 by (rewrite length_fmap; lia).
    unfold holesBefore. simpl. lia.
  - rewrite D_col0 by (rewrite length_fmap; lia).
    unfold holesBefore. simpl. lia.
  - rewrite D_step by (rewrite length_fmap; lia).
    destruct (lookup_lt_is_Some_2 cur i ltac:(lia)) as [c Hc].
    destruct (lookup_lt_is_Some_2 d j ltac:(lia)) as [x Hx].
    rewrite (arr_get_JString _ _ _ Hc), (arr_get_JString _ _ _ Hx).
    rewrite strict_eq_JString.
    rewrite (IHi j), (IHi (S j)), IHj by lia.
    case_bool_decide as Hcx.
    + subst x. assert (i = j) as <- by by eapply equal_only_on_diagonal.
      pose proof (holesBefore_kept i c Hc ltac:(by eapply list_elem_of_lookup_2)).
      order_min_max. lia.
    + destruct (lt_eq_lt_dec i j) as [[Hlt| <-]|Hgt].
      * pose proof (holesBefore_step i ltac:(lia)). order_min_max. lia.
      * assert (c ∉ d) as Hhole.
        { intros Hin. destruct shape as (_ & _ & _ & Hal).
          specialize (Hal i c Hc Hin). congruence. }
        pose proof (holesBefore_hole i c Hc Hhole). order_min_max. lia.
      * pose proof (holesBefore_step j ltac:(lia)). order_min_max. lia.
Qed.
Hypothesis d_new : ∀ x, x ∈ d → x ≠ EmptyString ∧ x ≠ SENTINEL_OWNERS.
#[local] Abbreviation C := (JString <$> cur).
#[local] Abbreviation N := (JString <$> d).

Lemma applicableInOrder_snoc owners operations op :
  applicableInOrder owners operations →
  applicable (replayOperations owners operations) op →
  applicableInOrder owners (operations ++ [op]).
Proof.
  revert owners. induction operations as [|o rest IH]; intros owners; simpl.
  - tauto.
  - intros [Ho Hrest] Hop. split; [done|]. by apply IH.
Qed.

Lemma replayOperations_snoc owners operations op :
  replayOperations owners (operations ++ [op])
  = replayOperation (replayOperations owners operations) op.
Proof. unfold replayOperations. by rewrite foldl_app. Qed.

Lemma elem_of_ownersAt v i j :
  v ∈ ownersAt cur d i j ↔
  ∃ s, v = JString s ∧ (s ∈ take j d ∨ s ∈ drop i cur).
Proof.
  unfold ownersAt. rewrite list_elem_of_fmap.
  by setoid_rewrite elem_of_app.
Qed.

Lemma not_in_earlier_columns j x : d !! j = Some x → x ∉ take j d.
Proof.
  destruct shape as (_ & Hd & _). intros Hj Hin.
  apply list_elem_of_lookup in Hin as [k Hk].
  pose proof (lookup_lt_Some _ _ _ Hk) as Hlt. rewrite length_take in Hlt.
  rewrite lookup_take_lt in Hk by lia.
  assert (k = j) by by eapply NoDup_lookup. lia.
Qed.

Lemma not_in_later_rows i c : cur !! i = Some c → c ∉ drop (S i) cur.
Proof.
  destruct shape as (Hc & _). intros Hi Hin.
  apply list_elem_of_lookup in Hin as [k Hk]. rewrite lookup_drop in Hk.
  assert (S i + k = i) by by eapply NoDup_lookup. lia.
Qed.

(** An aligned owner whose position is a hole, or lies beyond the current
    owners, is not a current owner. *)
Lemma fresh_column j x :
  d !! j = Some x → (j < m → isHole cur d j) → x ∉ cur.
Proof.
  intros Hj Hhole Hin. apply list_elem_of_lookup in Hin as [k Hk].
  assert (k = j) as -> by by eapply equal_only_on_diagonal.
  destruct Hhole as (c & Hc & Hcd); [by eapply lookup_lt_Some|].
  assert (c = x) as -> by congruence.
  apply Hcd. by eapply list_elem_of_lookup_2.
Qed.

Lemma ownersAt_add i j x v :
  d !! j = Some x →
  v ∈ ownersAt cur d i (S j) ↔ v ∈ ownersAt cur d i j ∨ v = JString x.
Proof.
  intros Hj. rewrite !elem_of_ownersAt. rewrite (take_S_r _ _ _ Hj).
  split.
  - intros (s & -> & Hs). revert Hs.
    rewrite elem_of_app, list_elem_of_singleton. intros [[?| ->]|?]; eauto 6.
  - intros [(s & -> & [?|?])| ->].
    + exists s. rewrite elem_of_app. tauto.
    + exists s. tauto.
    + exists x. rewrite elem_of_app, list_elem_of_singleton. tauto.
Qed.

Lemma ownersAt_kept i c v :
  cur !! i = Some c → d !! i = Some c →
  v ∈ ownersAt cur d (S i) (S i) ↔ v ∈ ownersAt cur d i i.
Proof.
  intros Hc Hd. rewrite !elem_of_ownersAt.
  rewrite (take_S_r _ _ _ Hd), (drop_S _ _ _ Hc).
  split; intros (s & -> & Hs); exists s; (split; [done|]); revert Hs;
    rewrite !elem_of_app, !elem_of_cons, elem_of_nil; tauto.
Qed.

Lemma ownersAt_swap owners i j c x v :
  cur !! i = Some c → d !! j = Some x → c ∉ d →
  (∀ u, u ∈ owners ↔ u ∈ ownersAt cur d i j) →
  v ∈ replayOperation owners (OpSwap (JString c) (JString x)) ↔
  v ∈ ownersAt cur d (S i) (S j).
Proof.
  intros Hc Hd Hhole Hown. simpl. rewrite list_elem_of_fmap.
  rewrite elem_of_ownersAt, (take_S_r _ _ _ Hd).
  pose proof (not_in_later_rows i c Hc) as Hlater.
  assert (∀ s, s ∈ drop i cur ↔ s = c ∨ s ∈ drop (S i) cur) as Hdrop.
  { intros s. by rewrite (drop_S _ _ _ Hc), elem_of_cons. }
  split.
  - intros (u & -> & Hu). apply Hown, elem_of_ownersAt in Hu.
    destruct Hu as (s & -> & Hs). rewrite Hdrop in Hs. case_decide as Hu.
    + exists x. rewrite elem_of_app, list_elem_of_singleton. tauto.
    + exists s. split; [done|]. rewrite elem_of_app.
      destruct Hs as [?|[->|?]]; tauto.
  - intros (s & -> & Hs). revert Hs.
    rewrite elem_of_app, list_elem_of_singleton. intros [[Hs| ->]|Hs].
    + exists (JString s). rewrite decide_False.
      * split; [done|]. apply Hown, elem_of_ownersAt. exists s. tauto.
      * intros [= ->]. apply Hhole. by eapply subseteq_take.
    + exists (JString c). rewrite decide_True by done.
      split; [done|]. apply Hown, elem_of_ownersAt. exists c.
      rewrite Hdrop. tauto.
    + exists (JString s). rewrite decide_False.
      * split; [done|]. apply Hown, elem_of_ownersAt. exists s.
        rewrite Hdrop. tauto.
      * intros [= ->]. done.
Qed.

(** On aligned lists the backtracking emits swaps at the holes and adds
    for the surplus, never a remove; every operation is applicable where
    it is replayed, and the owners after the script for the cell (i, j)
    are the first j aligned owners and the current owners from i on. *)
Lemma backtrack_aligned dp :
  dp_known C N (λ _ _, True) dp →
  ∀ i j operations, i ≤ m → j ≤ n → i ≤ j →
    (∀ k, i ≤ k < j → k < m → isHole cur d k) →
    ∃ emitted,
      backtrack C N dp i j operations = inr (emitted ++ operations) ∧
      applicableInOrder C emitted ∧
      ∀ v, v ∈ replayOperations C emitted ↔ v ∈ ownersAt cur d i j.
Proof.
  intros [_ Hk] i. rewrite !length_fmap in Hk.
  induction i as [|i IHi]; intros j; induction j as [|j IHj];
    intros operations Hi Hj Hij Hholes; rewrite backtrack_unfold.
  - exists []. split_and!; [done..|]. intros v. unfold ownersAt.
    by rewrite take_0, drop_0.
  - rewrite !Hk by (lia || done).
    rewrite !D_row0 by (rewrite length_fmap; lia).
    rewrite (proj2 (Nat.eqb_eq _ _)) by lia.
    destruct (lookup_lt_is_Some_2 d j ltac:(lia)) as [x Hx].
    rewrite (arr_get_JString _ _ _ Hx).
    destruct (IHj (OpAdd (JString x) :: operations))
      as (em & -> & Happ & Hmem); [lia..| |].
    { intros k ??. apply Hholes; lia. }
    exists (em ++ [OpAdd (JString x)]). rewrite <-app_assoc.
    split_and!; [done| |].
    + apply applicableInOrder_snoc; [done|]. simpl. split.
      * apply d_new. by eapply list_elem_of_lookup_2.
      * rewrite Hmem, elem_of_ownersAt. intros (s & [= <-] & [Hin|Hin]).
        -- by apply (not_in_earlier_columns j x).
        -- rewrite drop_0 in Hin. apply (fresh_column j x); [done| |done].
           intros ?. apply Hholes; lia.
    + intros v. rewrite replayOperations_snoc. simpl.
      rewrite elem_of_app, list_elem_of_singleton, Hmem.
      by rewrite (ownersAt_add _ _ x).
  - lia.
  - rewrite !Hk by (lia || done).
    destruct (lookup_lt_is_Some_2 cur i ltac:(lia)) as [c Hc].
    destruct (lookup_lt_is_Some_2 d j ltac:(lia)) as [x Hx].
    rewrite (arr_get_JString _ _ _ Hc), (arr_get_JString _ _ _ Hx).
    rewrite strict_eq_JString.
    rewrite !prefix_distance_aligned by lia.
    case_bool_decide as Hcx.
    { subst x. assert (i = j) as <- by by eapply equal_only_on_diagonal.
      destruct (IHi i operations) as (em & -> & Happ & Hmem); [lia..| |].
      { intros k ?. lia. }
      exists em. split_and!; [done..|]. intros v.
      by rewrite Hmem, (ownersAt_kept i c). }
    assert (j < m → isHole cur d j → x ∉ cur) as Hfresh.
    { intros ??. by apply (fresh_column j x). }
    destruct (decide (c ∈ d)) as [Hin|Hhole].
    + (* the position is kept by the alignment, the column is surplus *)
      assert (d !! i = Some c) as Hdi.
      { destruct shape as (_ & _ & _ & Hal). by apply Hal. }
      assert (i < j) as Hlt.
      { destruct (decide (i = j)) as [->|]; [congruence|lia]. }
      pose proof (holesBefore_kept i c Hc Hin) as Hh.
      order_min_max. rewrite Hh.
      rewrite (proj2 (Nat.eqb_neq _ _)) by lia.
      rewrite (proj2 (Nat.eqb_eq _ _)) by lia.
      destruct (IHj (OpAdd (JString x) :: operations))
        as (em & -> & Happ & Hmem); [lia..| |].
      { intros k ??. apply Hholes; lia. }
      exists (em ++ [OpAdd (JString x)]). rewrite <-app_assoc.
      split_and!; [done| |].
      * apply applicableInOrder_snoc; [done|]. simpl. split.
        { apply d_new. by eapply list_elem_of_lookup_2. }
        rewrite Hmem, elem_of_ownersAt. intros (s & [= <-] & [Hs|Hs]).
        { by apply (not_in_earlier_columns j x). }
        apply subseteq_drop in Hs.
        apply (fresh_column j x); [done| |done].
        intros ?. apply Hholes; lia.
      * intros v. rewrite replayOperations_snoc. simpl.
        rewrite elem_of_app, list_elem_of_singleton, Hmem.
        by rewrite (ownersAt_add _ _ x).
    + (* the position is a hole: a swap *)
      pose proof (holesBefore_hole i c Hc Hhole) as Hh.
      order_min_max. rewrite Hh.
      rewrite (proj2 (Nat.eqb_eq _ _)) by lia.
      assert (isHole cur d i) as Hi' by (by exists c).
      destruct (IHi j (OpSwap (JString c) (JString x) :: operations))
        as (em & -> & Happ & Hmem); [lia..| |].
      { intros k ??. destruct (decide (k = i)) as [->|]; [done|].
        apply Hholes; lia. }
      exists (em ++ [OpSwap (JString c) (JString x)]). rewrite <-app_assoc.
      split_and!; [done| |].
      * apply applicableInOrder_snoc; [done|]. cbn [applicable]. split_and!.
        { rewrite Hmem, elem_of_ownersAt. exists c. split; [done|]. right.
          rewrite (drop_S _ _ _ Hc). left. }
        { apply d_new. by eapply list_elem_of_lookup_2. }
        rewrite Hmem, elem_of_ownersAt. intros (s & [= <-] & [Hs|Hs]).
        { by apply (not_in_earlier_columns j x). }
        apply subseteq_drop in Hs.
        apply (fresh_column j x); [done| |done].
        intros ?. destruct (decide (j = i)) as [->|]; [done|].
        apply Hholes; lia.
      * intros v. rewrite replayOperations_snoc.
        by apply ownersAt_swap.
Qed.
End AlignedScript.

(** The edit script of duplicate-free owner lists, when the desired owners
    are at least as many as the current ones: every operation is applicable
    where it is replayed and the replay ends in the desired owners. *)
Lemma calculateEditOperations_aligned cur des :
  NoDup cur → NoDup des → (EmptyString ∉ cur) →
  (∀ x, x ∈ des → x ≠ EmptyString ∧ x ≠ SENTINEL_OWNERS) →
  length cur ≤ length des →
  ∃ operations,
    calculateEditOperations (JString <$> cur) (reorderNewOwners cur des)
      = inr operations ∧
    applicableInOrder (JString <$> cur) operations ∧
    ∀ v, v ∈ replayOperations (JString <$> cur) operations ↔
         v ∈ JString <$> des.
Proof.
  intros Hcur Hdes Hne Hnew Hle.
  destruct (reorderNewOwners_alignedShape cur des Hcur Hdes Hne Hle)
    as (d & -> & Hperm & Hshape).
  assert (∀ x, x ∈ d → x ≠ EmptyString ∧ x ≠ SENTINEL_OWNERS) as Hnew'.
  { intros x Hx. apply Hnew. by rewrite <-Hperm. }
  assert (length cur ≤ length d) as Hle' by (by rewrite Hperm).
  unfold calculateEditOperations.
  destruct (backtrack_aligned cur d Hshape Hnew' _
              (dp_fill_known (JString <$> cur) (JString <$> d))
              (length cur) (length d) [])
    as (emitted & Heq & Happ & Hmem); [lia..| |].
  { intros k ??. lia. }
  rewrite app_nil_r in Heq. rewrite !length_fmap in Heq |- *.
  exists emitted. split_and!; [done..|].
  intros v. rewrite Hmem. unfold ownersAt.
  rewrite firstn_all, drop_all, app_nil_r. by rewrite Hperm.
Qed.



(** ** The edit script, position by position *)

Section Script.
Variables currentOwners newOwners : list jsval.
#[local] Abbreviation m := (length currentOwners).
#[local] Abbreviation n := (length newOwners).

Lemma arr_get_lookup (arr : list jsval) i x :
  arr !! i = Some x → arr_get arr i = x.
Proof. intros Hi. unfold arr_get. by rewrite Hi. Qed.

(** The operations emitted from the cell (i, j) down to (0, 0) are an edit
    script from the first [i] current owners to the first [j] new ones. *)
Lemma backtrack_editScript dp :
  dp_known currentOwners newOwners (λ _ _, True) dp →
  ∀ i j operations, i ≤ m → j ≤ n →
    ∃ emitted,
      backtrack currentOwners newOwners dp i j operations
        = inr (emitted ++ operations) ∧
      editScript (take i currentOwners) (take j newOwners) emitted.
Proof.
  intros [_ Hk] i.
  induction i as [|i IHi]; intros j; induction j as [|j IHj];
    intros operations Hi Hj; rewrite backtrack_unfold.
  - exists []. split; [done|]. constructor.
  - rewrite !Hk by (lia || done). rewrite !D_row0 by lia.
    rewrite (proj2 (Nat.eqb_eq _ _)) by lia.
    destruct (lookup_lt_is_Some_2 newOwners j ltac:(lia)) as [y Hy].
    rewrite (arr_get_lookup _ _ _ Hy).
    destruct (IHj (OpAdd y :: operations)) as (em & -> & Hscript); [lia..|].
    exists (em ++ [OpAdd y]). rewrite <-app_assoc. split; [done|].
    rewrite (take_S_r _ _ _ Hy). by constructor.
  - rewrite !Hk by (lia || done). rewrite !D_col0 by lia.
    rewrite (proj2 (Nat.eqb_eq _ _)) by lia.
    destruct (lookup_lt_is_Some_2 currentOwners i ltac:(lia)) as [x Hx].
    rewrite (arr_get_lookup _ _ _ Hx).
    destruct (IHi 0 (OpRemove x :: operations)) as (em & -> & Hscript);
      [lia..|].
    exists (em ++ [OpRemove x]). rewrite <-app_assoc. split; [done|].
    rewrite (take_S_r _ _ _ Hx). by apply editScript_remove.
  - rewrite !Hk by (lia || done).
    destruct (lookup_lt_is_Some_2 currentOwners i ltac:(lia)) as [x Hx].
    destruct (lookup_lt_is_Some_2 newOwners j ltac:(lia)) as [y Hy].
    rewrite (arr_get_lookup _ _ _ Hx), (arr_get_lookup _ _ _ Hy).
    pose proof (D_step currentOwners newOwners i j ltac:(lia) ltac:(lia))
      as Hstep.
    rewrite (arr_get_lookup _ _ _ Hx), (arr_get_lookup _ _ _ Hy) in Hstep.
    rewrite (take_S_r _ _ _ Hx), (take_S_r _ _ _ Hy).
    unfold strict_eq in *. case_bool_decide as Hxy.
    { subst y. destruct (IHi j operations) as (em & -> & Hscript); [lia..|].
      exists em. split; [done|]. by constructor. }
    destruct (Nat.eqb_spec
                (prefix_distance currentOwners newOwners (S i) (S j))
                (prefix_distance currentOwners newOwners i j + 1)).
    { destruct (IHi j (OpSwap x y :: operations)) as (em & -> & Hscript);
        [lia..|].
      exists (em ++ [OpSwap x y]). rewrite <-app_assoc. split; [done|].
      by constructor. }
    destruct (Nat.eqb_spec
                (prefix_distance currentOwners newOwners (S i) (S j))
                (prefix_distance currentOwners newOwners (S i) j + 1)).
    { destruct (IHj (OpAdd y :: operations)) as (em & -> & Hscript);
        [lia..|].
      exists (em ++ [OpAdd y]). rewrite <-app_assoc. split; [done|].
      rewrite (take_S_r _ _ _ Hx) in Hscript. by constructor. }
    destruct (Nat.eqb_spec
                (prefix_distance currentOwners newOwners (S i) (S j))
                (prefix_distance currentOwners newOwners i (S j) + 1)).
    { destruct (IHi (S j) (OpRemove x :: operations))
        as (em & -> & Hscript); [lia..|].
      exists (em ++ [OpRemove x]). rewrite <-app_assoc. split; [done|].
      rewrite (take_S_r _ _ _ Hy) in Hscript. by apply editScript_remove. }
    lia.
Qed.

Lemma calculateEditOperations_script_count :
  ∃ operations,
    calculateEditOperations currentOwners newOwners = inr operations ∧
    editScript currentOwners newOwners operations ∧
    length operations = edit_distance currentOwners newOwners.
Proof.
  unfold calculateEditOperations.
  pose proof (dp_fill_known currentOwners newOwners) as Hknown.
  destruct (backtrack_editScript _ Hknown m n []) as (em & Heq & Hscript);
    [done..|].
  destruct (backtrack_count currentOwners newOwners _ Hknown m n [])
    as (em' & Heq' & Hlen); [done..|].
  rewrite Heq in Heq'. injection Heq' as Heq'.
  apply app_inv_tail in Heq'. subst em'.
  rewrite app_nil_r in Heq. rewrite !firstn_all in Hscript.
  exists em. split_and!; [done..|].
  unfold prefix_distance in Hlen. by rewrite Hlen, !firstn_all.
Qed.
End Script.

Section ScriptFacts.
Implicit Types a b : list jsval.
Implicit Types ops : list EditOperation.

Lemma editScript_from_empty a b ops :
  editScript a b ops → a = [] → ops = OpAdd <$> b.
Proof.
  induction 1 as [|a b ops x _ _|a b ops x y _ _ _|a b ops y _ IH
                 |a b ops x _ _]; intros Ha.
  - done.
  - by destruct a.
  - by destruct a.
  - by rewrite fmap_app, IH.
  - by destruct a.
Qed.

Lemma editScript_to_empty a b ops :
  editScript a b ops → b = [] → ops = OpRemove <$> a.
Proof.
  induction 1 as [|a b ops x _ _|a b ops x y _ _ _|a b ops y _ _
                 |a b ops x _ IH]; intros Hb.
  - done.
  - by destruct b.
  - by destruct b.
  - by destruct b.
  - by rewrite fmap_app, IH.
Qed.

Lemma editScript_no_operation a b ops :
  editScript a b ops → ops = [] → a = b.
Proof.
  induction 1 as [|a b ops x _ IH|a b ops x y _ _ _|a b ops y _ _
                 |a b ops x _ _]; intros Hops.
  - done.
  - by rewrite IH.
  - by destruct ops.
  - by destruct ops.
  - by destruct ops.
Qed.

Lemma editScript_accounts a b ops :
  editScript a b ops →
  omap removedOwner ops `sublist_of` a ∧
  omap insertedOwner ops `sublist_of` b ∧
  length a + length (omap insertedOwner ops)
    = length b + length (omap removedOwner ops).
Proof.
  induction 1 as [|a b ops x _ IH|a b ops x y _ _ IH|a b ops y _ IH
                 |a b ops x _ IH];
    try destruct IH as (Hout & Hin & Hlen);
    rewrite ?omap_app, ?length_app; simpl; rewrite ?app_nil_r.
  - split_and!; [constructor..|done].
  - split_and!; [by apply sublist_inserts_r..|lia].
  - split_and!; [by apply sublist_app..|simpl; lia].
  - split_and!; [done|by apply sublist_app|simpl; lia].
  - split_and!; [by apply sublist_app|done|simpl; lia].
Qed.

Lemma edit_distance_same (l : list jsval) : edit_distance l l = 0.
Proof.
  assert (edit_script l l 0) as Hs by (induction l; by constructor).
  apply edit_script_lower in Hs. lia.
Qed.

Lemma edit_script_le_max {A : Type} (a b : list A) :
  ∃ k, k ≤ Nat.max (length a) (length b) ∧ edit_script a b k.
Proof.
  revert b. induction a as [|x a IH]; intros b.
  - exists (length b). split; [simpl; lia|]. apply edit_script_inserts.
  - destruct b as [|y b].
    + exists (length (x :: a)). split; [simpl; lia|].
      apply edit_script_deletes.
    + destruct (IH b) as (k & Hk & Hs). exists (S k).
      split; [simpl; lia|]. by constructor.
Qed.
End ScriptFacts.

(** X1. [calculateEditOperations] returns an edit script from the current
    owners to the new ones: read from left to right, every position of the
    two arrays is kept (the same owner on both sides, no operation),
    swapped (different owners), added (a position of the new owners only)
    or removed (a position of the current owners only), and the operations
    are listed in that order. *)
Theorem calculateEditOperations_is_edit_script
    (currentOwners newOwners : list jsval) :
  ∃ operations,
    calculateEditOperations currentOwners newOwners = inr operations ∧
    editScript currentOwners newOwners operations.
Proof.
  destruct (calculateEditOperations_script_count currentOwners newOwners)
    as (operations & Heq & Hscript & _).
  by exists operations.
Qed.

(** X2. With no current owner the script is one add per new owner, in
    order; with no new owner it is one remove per current owner, in
    order. *)
Theorem calculateEditOperations_empty_side (owners : list jsval) :
  calculateEditOperations [] owners = inr (OpAdd <$> owners) ∧
  calculateEditOperations owners [] = inr (OpRemove <$> owners).
Proof.
  split.
  - destruct (calculateEditOperations_script_count [] owners)
      as (operations & -> & Hscript & _).
    by rewrite (editScript_from_empty _ _ _ Hscript).
  - destruct (calculateEditOperations_script_count owners [])
      as (operations & -> & Hscript & _).
    by rewrite (editScript_to_empty _ _ _ Hscript).
Qed.

(** X3. The script is empty exactly when the two arrays are equal, element
    by element. *)
Theorem calculateEditOperations_nothing_iff_equal
    (currentOwners newOwners : list jsval) :
  calculateEditOperations currentOwners newOwners = inr [] ↔
  currentOwners = newOwners.
Proof.
  destruct (calculateEditOperations_script_count currentOwners newOwners)
    as (operations & Heq & Hscript & Hlen).
  rewrite Heq. split.
  - intros [= ->]. by eapply editScript_no_operation.
  - intros <-. rewrite edit_distance_same in Hlen.
    by destruct operations.
Qed.

(** X4. What the script takes out (the old owner of a swap, the owner of a
    remove) is, in order, a sub-sequence of the current owners; what it
    puts in (the new owner of a swap, the owner of an add) is, in order, a
    sub-sequence of the new owners; the sizes balance; and there are never
    more operations than the longer of the two arrays has elements. *)
Theorem calculateEditOperations_accounts
    (currentOwners newOwners : list jsval) :
  ∃ operations,
    calculateEditOperations currentOwners newOwners = inr operations ∧
    omap removedOwner operations `sublist_of` currentOwners ∧
    omap insertedOwner operations `sublist_of` newOwners ∧
    length currentOwners + length (omap insertedOwner operations)
      = length newOwners + length (omap removedOwner operations) ∧
    length operations ≤ Nat.max (length currentOwners) (length newOwners).
Proof.
  destruct (calculateEditOperations_script_count currentOwners newOwners)
    as (operations & Heq & Hscript & Hlen).
  destruct (editScript_accounts _ _ _ Hscript) as (Hout & Hin & Hbal).
  exists operations. split_and!; [done..|].
  destruct (edit_script_le_max currentOwners newOwners) as (k & Hk & Hs).
  apply edit_script_lower in Hs. lia.
Qed.

(** ** The simulator, function by function *)

(** X5. Seeding the simulator from duplicate-free owners (non-empty
    strings other than the sentinel; possibly none) and walking it from
    the sentinel gives back the owners in their order; the last owner is
    the one [getLastOwner] finds (the sentinel when there is no owner) and
    the predecessor [getPrevOwner] finds for an owner is the element just
    before it, the sentinel for the first owner. *)
Theorem buildOwnerLinkedList_round_trip (currentOwners : list string) :
  NoDup (SENTINEL_OWNERS :: currentOwners) →
  (EmptyString ∉ currentOwners) →
  walkOwners (buildOwnerLinkedList currentOwners SENTINEL_OWNERS)
    = Some (JString <$> currentOwners) ∧
  getLastOwner (buildOwnerLinkedList currentOwners SENTINEL_OWNERS)
    SENTINEL_OWNERS
    = Some (JString (lastOf SENTINEL_OWNERS currentOwners)) ∧
  ∀ owner, owner ∈ currentOwners →
    getPrevOwner (JString owner)
      (buildOwnerLinkedList currentOwners SENTINEL_OWNERS)
    = JString (predecessorIn SENTINEL_OWNERS currentOwners owner).
Proof.
  intros Hnd Hne.
  pose proof (buildOwnerLinkedList_links currentOwners Hnd Hne) as Hlinks.
  split_and!.
  - apply linkedListInvariant_walk.
    by apply buildOwnerLinkedList_invariant.
  - apply getLastOwner_links; [done..|]. by rewrite Hlinks.
  - intros owner Hin. apply getPrevOwner_predecessor; [done| |done].
    by rewrite Hlinks.
Qed.

Lemma buildOwnerLinkedList_round_trip_witness :
  walkOwners (buildOwnerLinkedList [ownerA; ownerB; ownerC] SENTINEL_OWNERS)
    = Some (JString <$> [ownerA; ownerB; ownerC]) ∧
  getLastOwner (buildOwnerLinkedList [ownerA; ownerB; ownerC]
                  SENTINEL_OWNERS) SENTINEL_OWNERS
    = Some (JString (lastOf SENTINEL_OWNERS [ownerA; ownerB; ownerC])) ∧
  ∀ owner, owner ∈ [ownerA; ownerB; ownerC] →
    getPrevOwner (JString owner)
      (buildOwnerLinkedList [ownerA; ownerB; ownerC] SENTINEL_OWNERS)
    = JString (predecessorIn SENTINEL_OWNERS [ownerA; ownerB; ownerC] owner).
Proof.
  apply (buildOwnerLinkedList_round_trip [ownerA; ownerB; ownerC]).
  - apply (bool_decide_unpack _). by vm_compute.
  - apply (bool_decide_unpack _). by vm_compute.
Defined.

(** X6. [getPrevOwner] returns the key of the first entry, in the order of
    [Object.entries], whose value is the owner, and [null] exactly when no
    entry has the owner as its value; it never returns [undefined]. *)
Theorem getPrevOwner_first_match (owner : jsval)
    (ownerLinkedList : JsObject.t) :
  (getPrevOwner owner ownerLinkedList = JNull ↔
   ∀ key, (key, owner) ∉ ownerLinkedList) ∧
  (∀ key, getPrevOwner owner ownerLinkedList = JString key ↔
     ∃ before after,
       ownerLinkedList = before ++ (key, owner) :: after ∧
       ∀ k, (k, owner) ∉ before) ∧
  getPrevOwner owner ownerLinkedList ≠ JUndefined.
Proof.
  split_and!.
  - apply getPrevOwner_none.
  - unfold getPrevOwner, JsObject.entries.
    induction ownerLinkedList as [|[k v] obj IH]; intros key; simpl.
    + split; [done|]. intros (before & after & Heq & _). by destruct before.
    + unfold strict_eq. case_bool_decide as Hv.
      * subst v. split.
        -- intros [= ->]. exists [], obj. split; [done|].
           intros k'. apply not_elem_of_nil.
        -- intros (before & after & Heq & Hfirst).
           destruct before as [|[k' v'] before]; simplify_eq/=; [done|].
           destruct (Hfirst k'). left.
      * rewrite IH. split.
        -- intros (before & after & -> & Hfirst).
           exists ((k, v) :: before), after. split; [done|].
           intros k' [Heq|Hin]%elem_of_cons; [by simplify_eq|].
           by apply (Hfirst k').
        -- intros (before & after & Heq & Hfirst).
           destruct before as [|[k' v'] before]; simplify_eq/=.
           exists before, after. split; [done|].
           intros k'' Hin. apply (Hfirst k''). by right.
  - unfold getPrevOwner, JsObject.entries.
    induction ownerLinkedList as [|[k v] obj IH]; simpl; [done|].
    by destruct (strict_eq v owner).
Qed.

Lemma getLastOwner_loop_stops fuel obj sentinel from v :
  getLastOwner_loop fuel obj sentinel from = Some v →
  truthy (JsObject.get obj (toPropertyKey v)) = false
  ∨ JsObject.get obj (toPropertyKey v) = JString sentinel.
Proof.
  revert from. induction fuel as [|fuel IH]; intros from; simpl; [done|].
  destruct (truthy (JsObject.get obj (toPropertyKey from))) eqn:Ht; simpl.
  - unfold strict_eq. case_bool_decide as Hs; simpl.
    + intros [= <-]. by right.
    + apply IH.
  - intros [= <-]. by left.
Qed.

(** X7. On a well-formed list [getLastOwner] stops and returns the last
    owner of the list, the sentinel itself when the list has no owner; the
    successor of what it returns is the sentinel. *)
Theorem getLastOwner_is_last (ownerLinkedList : JsObject.t)
    (owners : list string) :
  linkedListInvariant ownerLinkedList (JString <$> owners) →
  getLastOwner ownerLinkedList SENTINEL_OWNERS
    = Some (JString (lastOf SENTINEL_OWNERS owners)) ∧
  JsObject.get ownerLinkedList (lastOf SENTINEL_OWNERS owners)
    = JString SENTINEL_OWNERS.
Proof.
  intros (L & HL & Hnd & Hne & Hperm).
  apply (inj (fmap JString)) in HL. subst L.
  pose proof (getLastOwner_links _ _ Hnd Hne Hperm) as Hlast.
  split; [done|].
  destruct (invariant_keys _ _ Hnd Hperm) as (Hk & _ & _).
  apply JsObject_get_elem; [done|].
  rewrite Hperm, links_inner, elem_of_app, list_elem_of_singleton. by right.
Qed.

Lemma getLastOwner_is_last_witness :
  getLastOwner (buildOwnerLinkedList [ownerA; ownerB] SENTINEL_OWNERS)
    SENTINEL_OWNERS
    = Some (JString (lastOf SENTINEL_OWNERS [ownerA; ownerB])) ∧
  JsObject.get (buildOwnerLinkedList [ownerA; ownerB] SENTINEL_OWNERS)
    (lastOf SENTINEL_OWNERS [ownerA; ownerB])
    = JString SENTINEL_OWNERS.
Proof.
  apply (getLastOwner_is_last
           (buildOwnerLinkedList [ownerA; ownerB] SENTINEL_OWNERS)
           [ownerA; ownerB]).
  exists [ownerA; ownerB]. split_and!.
  - reflexivity.
  - apply (bool_decide_unpack _). by vm_compute.
  - apply (bool_decide_unpack _). by vm_compute.
  - by vm_compute.
Defined.

Lemma linkedListInvariant_entries obj1 obj2 owners :
  linkedListInvariant obj1 owners → linkedListInvariant obj2 owners →
  obj1 ≡ₚ obj2.
Proof.
  intros (L1 & -> & _ & _ & H1) (L2 & HL & _ & _ & H2).
  apply (inj (fmap JString)) in HL. subst L2. by rewrite H1, H2.
Qed.

Lemma linkedListInvariant_owner obj owners v :
  linkedListInvariant obj owners → v ∈ owners → isNewAddress v.
Proof.
  intros (L & -> & Hnd & Hne & _) (x & -> & Hx)%elem_of_JString_fmap.
  apply NoDup_cons in Hnd as [Hs _]. simpl. split; intros ->; done.
Qed.

Lemma filter_all {A : Type} (P : A → Prop) `{∀ x, Decision (P x)}
    (l : list A) :
  (∀ x, x ∈ l → P x) → filter P l = l.
Proof.
  induction l as [|x l IH]; intros Hall; [done|].
  rewrite filter_cons_True by (apply Hall; left).
  f_equal. apply IH. intros y Hy. apply Hall. by right.
Qed.

(** X8. On a well-formed list the mutations undo each other: adding a new
    owner and then removing it, or swapping an owner for a new one and
    then swapping back, leaves the simulator with the entries it had. *)
Theorem mutations_undo_each_other (ownerLinkedList : JsObject.t)
    (owners : list jsval) (added oldOwner newOwner : jsval) :
  linkedListInvariant ownerLinkedList owners →
  applicable owners (OpAdd added) →
  applicable owners (OpSwap oldOwner newOwner) →
  (∃ obj1 obj2,
     applyOperation ownerLinkedList (OpAdd added) = Some obj1 ∧
     applyOperation obj1 (OpRemove added) = Some obj2 ∧
     obj2 ≡ₚ ownerLinkedList) ∧
  (∃ obj1 obj2,
     applyOperation ownerLinkedList (OpSwap oldOwner newOwner) = Some obj1 ∧
     applyOperation obj1 (OpSwap newOwner oldOwner) = Some obj2 ∧
     obj2 ≡ₚ ownerLinkedList).
Proof.
  intros Hinv Hadd Hswap. split.
  - destruct (applyOperation_invariant _ _ _ Hinv Hadd)
      as (obj1 & Hobj1 & Hinv1).
    destruct (applyOperation_invariant obj1 _ (OpRemove added) Hinv1)
      as (obj2 & Hobj2 & Hinv2).
    { simpl. rewrite elem_of_app, list_elem_of_singleton. by right. }
    exists obj1, obj2. split_and!; [done..|].
    apply (linkedListInvariant_entries _ _ owners); [|done].
    destruct Hadd as [_ Hfresh].
    assert (replayOperation (replayOperation owners (OpAdd added))
              (OpRemove added) = owners) as Hback.
    { simpl.
      rewrite filter_app, filter_cons_False by (intros Hne; by apply Hne).
      rewrite filter_nil, app_nil_r. apply filter_all.
      intros v Hv ->. done. }
    by rewrite Hback in Hinv2.
  - destruct (applyOperation_invariant _ _ _ Hinv Hswap)
      as (obj1 & Hobj1 & Hinv1).
    destruct Hswap as (Hold & Hnew & Hfresh).
    assert (oldOwner ≠ newOwner) as Hne by (intros ->; done).
    destruct (applyOperation_invariant obj1 _ (OpSwap newOwner oldOwner)
                Hinv1) as (obj2 & Hobj2 & Hinv2).
    { simpl. split_and!.
      - apply list_elem_of_fmap. exists oldOwner.
        by rewrite decide_True.
      - by apply (linkedListInvariant_owner ownerLinkedList owners).
      - intros (v & Hv & Hin)%list_elem_of_fmap. case_decide; congruence. }
    exists obj1, obj2. split_and!; [done..|].
    apply (linkedListInvariant_entries _ _ owners); [|done].
    assert (replayOperation
              (replayOperation owners (OpSwap oldOwner newOwner))
              (OpSwap newOwner oldOwner) = owners) as Hback.
    { simpl. rewrite <-list_fmap_compose.
      rewrite <-(list_fmap_id owners) at 2.
      apply list_fmap_ext. intros i v Hv. simpl.
      apply list_elem_of_lookup_2 in Hv.
      destruct (decide (v = oldOwner)) as [->|Hvo].
      - by rewrite decide_True.
      - rewrite decide_False; [done|]. by intros ->. }
    by rewrite Hback in Hinv2.
Qed.

Lemma mutations_undo_each_other_witness :
  (∃ obj1 obj2,
     applyOperation (buildOwnerLinkedList [ownerA; ownerB] SENTINEL_OWNERS)
       (OpAdd (JString ownerC)) = Some obj1 ∧
     applyOperation obj1 (OpRemove (JString ownerC)) = Some obj2 ∧
     obj2 ≡ₚ buildOwnerLinkedList [ownerA; ownerB] SENTINEL_OWNERS) ∧
  (∃ obj1 obj2,
     applyOperation (buildOwnerLinkedList [ownerA; ownerB] SENTINEL_OWNERS)
       (OpSwap (JString ownerA) (JString ownerD)) = Some obj1 ∧
     applyOperation obj1 (OpSwap (JString ownerD) (JString ownerA))
       = Some obj2 ∧
     obj2 ≡ₚ buildOwnerLinkedList [ownerA; ownerB] SENTINEL_OWNERS).
Proof.
  apply (mutations_undo_each_other
           (buildOwnerLinkedList [ownerA; ownerB] SENTINEL_OWNERS)
           (JString <$> [ownerA; ownerB])).
  - exists [ownerA; ownerB]. split_and!.
    + reflexivity.
    + apply (bool_decide_unpack _). by vm_compute.
    + apply (bool_decide_unpack _). by vm_compute.
    + by vm_compute.
  - apply (bool_decide_unpack _). by vm_compute.
  - apply (bool_decide_unpack _). by vm_compute.
Defined.

(** ** The batch as a whole *)

Lemma calculateEditOperations_same (owners : list jsval) :
  calculateEditOperations owners owners = inr [].
Proof.
  destruct (calculateEditOperations_script_count owners owners)
    as (operations & -> & _ & Hlen).
  rewrite edit_distance_same in Hlen. by destruct operations.
Qed.

(** X9. When the desired owners are the current owners in any order, the
    alignment gives back the current owners, there is no operation, and
    the batch holds no transaction at all, whatever the current and the
    target threshold are. *)
Theorem same_owner_set_emits_nothing (safeAddressChecksum : string)
    (currentOwners desiredOwners : list string)
    (currentThreshold threshold : Z) :
  NoDup currentOwners → (EmptyString ∉ currentOwners) →
  desiredOwners ≡ₚ currentOwners →
  reorderNewOwners currentOwners desiredOwners = JString <$> currentOwners ∧
  buildTransactions safeAddressChecksum currentOwners currentThreshold
    desiredOwners threshold = Returned [].
Proof.
  intros Hcur Hne Hperm.
  assert (NoDup desiredOwners) as Hdes by (by rewrite Hperm).
  assert (reorderNewOwners currentOwners desiredOwners
          = JString <$> currentOwners) as Haligned.
  { rewrite reorderNewOwners_closed by done.
    assert (filter (λ d, d ∉ currentOwners) desiredOwners = []) as ->.
    { destruct (filter _ desiredOwners) as [|d rest] eqn:Hf; [done|].
      assert (d ∈ filter (λ d, d ∉ currentOwners) desiredOwners) as Hd
        by (rewrite Hf; left).
      apply list_elem_of_filter in Hd as [Hout Hd].
      destruct Hout. by rewrite <-Hperm. }
    rewrite fillHoles_nil. simpl. rewrite app_nil_r.
    apply list_fmap_ext. intros i c Hc.
    apply markOwner_desired. rewrite Hperm.
    by eapply list_elem_of_lookup_2. }
  split; [done|].
  unfold buildTransactions.
  rewrite Haligned, calculateEditOperations_same. simpl.
  by destruct (bool_decide (threshold ≠ currentThreshold)).
Qed.

Lemma same_owner_set_emits_nothing_witness :
  reorderNewOwners [ownerA; ownerB; ownerC] [ownerC; ownerA; ownerB]
    = JString <$> [ownerA; ownerB; ownerC] ∧
  buildTransactions safeOne [ownerA; ownerB; ownerC] 2
    [ownerC; ownerA; ownerB] 3 = Returned [].
Proof.
  apply (same_owner_set_emits_nothing safeOne [ownerA; ownerB; ownerC]
           [ownerC; ownerA; ownerB] 2 3).
  - apply (bool_decide_unpack _). by vm_compute.
  - apply (bool_decide_unpack _). by vm_compute.
  - apply (bool_decide_unpack _). by vm_compute.
Defined.

Lemma only_swaps_iff (operations : list EditOperation) :
  negb (existsb isAddOrRemove operations) && existsb isSwap operations = true
  ↔ operations ≠ [] ∧ Forall (λ op, isSwap op = true) operations.
Proof.
  assert (∀ ops, existsb isAddOrRemove ops = false ↔
                 Forall (λ op, isSwap op = true) ops) as Hall.
  { intros ops. induction ops as [|op ops IH]; simpl.
    - split; [constructor|done].
    - rewrite Forall_cons, <-IH. destruct op; simpl; split; try done.
      + tauto.
      + by intros [? _].
      + by intros [? _]. }
  rewrite andb_true_iff, negb_true_iff, Hall. split.
  - intros [Hswaps Hsome]. split; [|done]. by intros ->.
  - intros [Hne Hswaps]. split; [done|].
    destruct operations as [|op ops]; [done|].
    apply Forall_cons in Hswaps as [Hop _]. simpl. by rewrite Hop.
Qed.

Lemma descriptorFor_method safe threshold lst op :
  method_name (contractMethod (descriptorFor safe threshold lst op))
  = methodOf op.
Proof. by destruct op. Qed.

(** X10. A returned run holds one transaction per operation of the edit
    script, in the order of the script and calling the method of the
    operation; after them comes one [changeThreshold] with the target
    threshold when the target differs from the fetched threshold and the
    script is not empty and made of swaps only, and nothing otherwise. *)
Theorem batch_is_script_then_threshold (safeAddressChecksum : string)
    (currentOwners validatedNewOwners : list string)
    (currentThreshold threshold : Z) (txs : list Transaction) :
  buildTransactions safeAddressChecksum currentOwners currentThreshold
    validatedNewOwners threshold = Returned txs →
  ∃ operations fromScript,
    calculateEditOperations (JString <$> currentOwners)
      (reorderNewOwners currentOwners validatedNewOwners) = inr operations ∧
    Forall2 (λ op tx, method_name (contractMethod tx) = methodOf op)
      operations fromScript ∧
    ((threshold ≠ currentThreshold ∧ operations ≠ [] ∧
      Forall (λ op, isSwap op = true) operations ∧
      txs = fromScript ++
            [createChangeThresholdTransaction safeAddressChecksum threshold])
     ∨ (¬ (threshold ≠ currentThreshold ∧ operations ≠ [] ∧
           Forall (λ op, isSwap op = true) operations) ∧
        txs = fromScript)).
Proof.
  intros Hrun.
  destruct (buildTransactions_Returned _ _ _ _ _ _ Hrun)
    as (operations & st & Hops & Hst & ->).
  destruct (processOperations_lockstep _ _ _ _ _ Hst)
    as (_ & Hflag & emitted & Hem & Hlen & Hk).
  simpl in Hem, Hflag. rewrite Hem.
  exists operations, emitted. split_and!; [done| |].
  - apply Forall2_same_length_lookup_2; [done|].
    intros k op tx Hop Htx. destruct (Hk k op Hop) as (lst & _ & Htx').
    rewrite Htx in Htx'. injection Htx' as ->.
    apply descriptorFor_method.
  - rewrite Hflag, <-andb_assoc.
    pose proof (only_swaps_iff operations) as Hiff.
    destruct (negb (existsb isAddOrRemove operations)
              && existsb isSwap operations).
    + destruct (proj1 Hiff eq_refl) as [Hne Hall].
      case_bool_decide as Hthr; simpl.
      * left. done.
      * right. split; [tauto|by rewrite app_nil_r].
    + rewrite andb_false_r. right. split; [|by rewrite app_nil_r].
      intros (_ & Hne & Hall). by pose proof (proj2 Hiff (conj Hne Hall)).
Qed.

Lemma batch_is_script_then_threshold_witness :
  ∃ operations fromScript,
    calculateEditOperations (JString <$> [ownerA; ownerB; ownerC])
      (reorderNewOwners [ownerA; ownerB; ownerC] [ownerA; ownerC; ownerD])
      = inr operations ∧
    Forall2 (λ op tx, method_name (contractMethod tx) = methodOf op)
      operations fromScript ∧
    ((3%Z ≠ 2%Z ∧ operations ≠ [] ∧
      Forall (λ op, isSwap op = true) operations ∧
      [createSwapOwnerTransaction safeOne (JString ownerB) (JString ownerD)
         (buildOwnerLinkedList [ownerA; ownerB; ownerC] SENTINEL_OWNERS);
       createChangeThresholdTransaction safeOne 3]
      = fromScript ++ [createChangeThresholdTransaction safeOne 3])
     ∨ (¬ (3%Z ≠ 2%Z ∧ operations ≠ [] ∧
           Forall (λ op, isSwap op = true) operations) ∧
        [createSwapOwnerTransaction safeOne (JString ownerB) (JString ownerD)
           (buildOwnerLinkedList [ownerA; ownerB; ownerC] SENTINEL_OWNERS);
         createChangeThresholdTransaction safeOne 3]
        = fromScript)).
Proof.
  apply (batch_is_script_then_threshold safeOne [ownerA; ownerB; ownerC]
           [ownerA; ownerC; ownerD] 2 3).
  by vm_compute.
Defined.

Lemma descriptorFor_wellFormed safe threshold lst op :
  wellFormedDescriptor threshold (descriptorFor safe threshold lst op).
Proof.
  destruct op as [oldOwner newOwner|owner|owner];
    (split_and!; [done|done| |done|]);
    try (intros v Hv; cbn in Hv; rewrite !elem_of_cons, elem_of_nil in Hv;
         destruct_or!; by simplify_eq).
  - left.
  - right. left.
  - right. right. left.
Qed.

Lemma changeThreshold_wellFormed safe threshold :
  wellFormedDescriptor threshold
    (createChangeThresholdTransaction safe threshold).
Proof.
  split_and!; [done|done| |done|].
  - do 3 right. left.
  - intros v Hv. cbn in Hv. rewrite !elem_of_cons, elem_of_nil in Hv.
    destruct_or!; by simplify_eq.
Qed.





(** X13. The checksum stored in a returned batch can be checked:
    [calculateChecksum] applied to the returned batch, with its checksum
    field filled in, gives the stored checksum again. *)
Theorem returned_checksum_verifies (w : World) (options : Options)
    (batch : Batch) :
  generateTransactions w options = Returned batch →
  calculateChecksum w (json_of_batch batch) = checksum (meta batch).
Proof.
  intros Hrun.
  destruct (generateTransactions_Returned _ _ _ Hrun)
    as (safeIn & ownersIn & chain & key & safe & validated & raw & current
        & thr0 & _ & _ & _ & _ & _ & _ & _ & _ & _ & _ & txs & _ & ->).
  unfold finishBatch. simpl. by apply calculateChecksum_blind.
Qed.

Lemma returned_checksum_verifies_witness :
  calculateChecksum (exampleWorld [ownerA; ownerB; ownerC] 2)
    (json_of_batch
       (finishBatch (exampleWorld [ownerA; ownerB; ownerC] 2) "1" safeOne
          [createSwapOwnerTransaction safeOne (JString ownerB)
             (JString ownerD)
             (buildOwnerLinkedList [ownerA; ownerB; ownerC]
                SENTINEL_OWNERS)]))
  = checksum
      (meta
         (finishBatch (exampleWorld [ownerA; ownerB; ownerC] 2) "1" safeOne
            [createSwapOwnerTransaction safeOne (JString ownerB)
               (JString ownerD)
               (buildOwnerLinkedList [ownerA; ownerB; ownerC]
                  SENTINEL_OWNERS)])).
Proof.
  apply (returned_checksum_verifies
           (exampleWorld [ownerA; ownerB; ownerC] 2)
           (exampleOptions [ownerA; ownerC; ownerD] None)).
  by vm_compute.
Defined.

(** ** The provider of the guarded revision *)

Lemma rpcTable_labels chainId :
  chainId ∈ Guarded.rpcTable.*1.*1 ↔ chainId ∈ supportedChainIds.
Proof.
  unfold supportedChainIds. cbn.
  rewrite !elem_of_cons, !elem_of_nil. tauto.
Qed.

(** X14. [getRpcUrl] returns the custom URL whenever one is given,
    whatever the chain id. Without a custom URL it throws exactly for the
    chain ids that are not a case label of its switch, returns an URL for
    every other chain id, and never returns the Chiado endpoint: the label
    ['97'] under which that endpoint is written is already taken by the
    case above it. *)
Theorem getRpcUrl_outcomes (chainId : string)
    (alchemyApiKey customRpcUrl : jsval) :
  if truthy customRpcUrl
  then Guarded.getRpcUrl chainId alchemyApiKey customRpcUrl
       = Returned (toPropertyKey customRpcUrl)
  else
    (Guarded.getRpcUrl chainId alchemyApiKey customRpcUrl
       = Thrown (UnsupportedChainId chainId)
     ↔ chainId ∉ supportedChainIds) ∧
    (chainId ∈ supportedChainIds ↔
     ∃ url, Guarded.getRpcUrl chainId alchemyApiKey customRpcUrl
            = Returned url) ∧
    Guarded.getRpcUrl chainId alchemyApiKey customRpcUrl
      ≠ Returned chiadoUrl.
Proof.
  unfold Guarded.getRpcUrl.
  destruct (truthy customRpcUrl); [done|].
  destruct (list_find _ Guarded.rpcTable) as [[i [[c host] public]]|] eqn:Hfind.
  - apply list_find_Some in Hfind as (Hi & Hc & Hfirst). simpl in Hc.
    assert (chainId ∈ supportedChainIds) as Hin.
    { apply rpcTable_labels. subst c.
      apply list_elem_of_fmap. exists (chainId, host).
      split; [done|]. apply list_elem_of_fmap. exists (chainId, host, public).
      split; [done|]. by eapply list_elem_of_lookup_2. }
    split_and!.
    + split; [by destruct host; [destruct (truthy alchemyApiKey)|]|done].
    + split; [|done]. intros _.
      destruct host; [destruct (truthy alchemyApiKey)|]; by eexists.
    + do 19 (destruct i as [|i];
             [simpl in Hi; injection Hi as <- <- <-;
              first [by (try destruct (truthy alchemyApiKey); intros [=])
                    |exfalso; apply (Hfirst 7 _ eq_refl); [lia|done]]|]).
      by destruct i.
  - apply list_find_None in Hfind.
    assert (chainId ∉ supportedChainIds) as Hout.
    { rewrite <-rpcTable_labels. intros Hin.
      apply list_elem_of_fmap in Hin as ([c host] & -> & Hin).
      apply list_elem_of_fmap in Hin as ([[c' host'] public] & [= <- <-] & Hin).
      rewrite Forall_forall in Hfind. by apply (Hfind _ Hin). }
    split_and!; [done| |done].
    split; [done|]. by intros [url ?].
Qed.

(** ** The positional diff of the guarded revision *)

Section GuardedAlignment.
Implicit Types cur des rem : list string.

Lemma removeFirst_NoDup rem c :
  NoDup rem → Guarded.removeFirst c rem = filter (λ y, y ≠ c) rem.
Proof.
  induction rem as [|x rem IH]; intros Hnd; simpl; [done|].
  apply NoDup_cons in Hnd as [Hx Hnd].
  case_decide as Hxc.
  - subst x. rewrite filter_cons_False by (intros Hne; by apply Hne).
    symmetry. apply filter_all. intros y Hy ->. done.
  - rewrite filter_cons_True by done. by rewrite IH.
Qed.

Lemma guarded_alignStep_NoDup (acc : list jsval) rem c :
  NoDup rem → Guarded.alignStep (acc, rem) c = alignStep (acc, rem) c.
Proof.
  intros Hnd. unfold Guarded.alignStep, alignStep, JsSet.has, JsSet.delete.
  by rewrite removeFirst_NoDup.
Qed.

Lemma guarded_foldl_alignStep cur :
  ∀ acc rem, NoDup rem →
    foldl Guarded.alignStep (acc, rem) cur = foldl alignStep (acc, rem) cur.
Proof.
  induction cur as [|c cur IH]; intros acc rem Hnd; [done|].
  cbn [foldl]. rewrite guarded_alignStep_NoDup by done.
  rewrite alignStep_eq. case_bool_decide.
  - apply IH. by apply NoDup_filter.
  - by apply IH.
Qed.

Lemma guarded_fillStep_eq (reordered : list jsval) rem i :
  Guarded.fillStep (reordered, rem) i =
  if negb (truthy (arr_get reordered i))
  then
    match rem with
    | next :: rest => (<[i := JString next]> reordered, rest)
    | [] => (<[i := JUndefined]> reordered, [])
    end
  else (reordered, rem).
Proof. reflexivity. Qed.

Lemma fillHolesOrUndefined_cons v (slots : list jsval) rem :
  fillHolesOrUndefined (v :: slots) rem =
  if negb (truthy v)
  then
    match rem with
    | next :: rest =>
        (JString next :: (fillHolesOrUndefined slots rest).1,
         (fillHolesOrUndefined slots rest).2)
    | [] =>
        (JUndefined :: (fillHolesOrUndefined slots []).1,
         (fillHolesOrUndefined slots []).2)
    end
  else (v :: (fillHolesOrUndefined slots rem).1,
        (fillHolesOrUndefined slots rem).2).
Proof.
  simpl. destruct (negb (truthy v)).
  - destruct rem as [|next rest]; by destruct (fillHolesOrUndefined slots _).
  - by destruct (fillHolesOrUndefined slots rem).
Qed.

Lemma guarded_foldl_fillStep (slots : list jsval) :
  ∀ (p : list jsval) rem,
    foldl Guarded.fillStep (p ++ slots, rem)
      (seq (length p) (length slots)) =
    (p ++ (fillHolesOrUndefined slots rem).1,
     (fillHolesOrUndefined slots rem).2).
Proof.
  induction slots as [|v slots IH]; intros p rem; [done|].
  cbn [length seq foldl].
  rewrite guarded_fillStep_eq, arr_get_middle, fillHolesOrUndefined_cons.
  assert (∀ u rem',
            foldl Guarded.fillStep (p ++ u :: slots, rem')
              (seq (S (length p)) (length slots))
            = (p ++ u :: (fillHolesOrUndefined slots rem').1,
               (fillHolesOrUndefined slots rem').2)) as Hnext.
  { intros u rem'. specialize (IH (p ++ [u]) rem').
    rewrite length_app, Nat.add_1_r, <-!app_assoc in IH. exact IH. }
  destruct (negb (truthy v)).
  - destruct rem as [|next rest];
      rewrite insert_app_r_alt, Nat.sub_diag by done; apply Hnext.
  - apply Hnext.
Qed.

(** The guarded [reorderNewOwners] in closed form, for duplicate-free
    lists. *)
Lemma guarded_reorderNewOwners_closed cur des :
  NoDup cur → NoDup des →
  Guarded.reorderNewOwners cur des =
  (fillHolesOrUndefined (markOwner des <$> cur)
     (filter (λ d, d ∉ cur) des)).1
  ++ (JString <$>
        (fillHolesOrUndefined (markOwner des <$> cur)
           (filter (λ d, d ∉ cur) des)).2).
Proof.
  intros Hcur Hdes. unfold Guarded.reorderNewOwners.
  rewrite guarded_foldl_alignStep, foldl_alignStep by done.
  simpl app.
  pose proof (guarded_foldl_fillStep (markOwner des <$> cur) []
                (filter (λ d, d ∉ cur) des)) as Hfill.
  simpl in Hfill. rewrite Hfill.
  by destruct (fillHolesOrUndefined _ _).
Qed.
End GuardedAlignment.

Section GuardedCollect.
Implicit Types cur des rem : list string.

Lemma index_pairs (a b : list jsval) :
  length a ≤ length b →
  (λ i, (arr_get a i, arr_get b i)) <$> seq 0 (length b) =
  zip a (take (length a) b)
  ++ ((λ v, (JUndefined, v)) <$> drop (length a) b).
Proof.
  revert b. induction a as [|x a IH]; intros b Hlen.
  - simpl. rewrite drop_0. apply list_eq. intros i.
    rewrite !list_lookup_fmap.
    destruct (decide (i < length b)) as [Hi|Hi].
    + rewrite lookup_seq_lt by done. simpl.
      destruct (lookup_lt_is_Some_2 b i Hi) as [y Hy].
      rewrite Hy. simpl. unfold arr_get. by rewrite Hy.
    + rewrite lookup_seq_ge by lia. by rewrite lookup_ge_None_2 by lia.
  - destruct b as [|y b]; [simpl in Hlen; lia|].
    cbn [length seq fmap list_fmap]. rewrite <-fmap_S_seq.
    rewrite <-list_fmap_compose. simpl. f_equal.
    apply IH. simpl in Hlen. lia.
Qed.

Lemma facingPairs_zip des cur :
  (EmptyString ∉ cur) →
  ∀ rem,
    length (fillHolesOrUndefined (markOwner des <$> cur) rem).1
      = length cur ∧
    zip (JString <$> cur)
        (fillHolesOrUndefined (markOwner des <$> cur) rem).1
    ++ ((λ v, (JUndefined, v)) <$>
          (JString <$>
             (fillHolesOrUndefined (markOwner des <$> cur) rem).2))
    = facingPairs des cur rem.
Proof.
  induction cur as [|c cur IH]; intros Hne rem.
  - simpl. split; [done|]. by rewrite <-list_fmap_compose.
  - apply not_elem_of_cons in Hne as [Hc Hne].
    rewrite !fmap_cons, fillHolesOrUndefined_cons.
    cbn [facingPairs].
    destruct (decide (c ∈ des)) as [Hin|Hout].
    + rewrite (markOwner_desired des c Hin).
      rewrite (bool_decide_eq_true_2 _ Hin).
      assert (truthy (JString c) = true) as ->.
      { simpl. by rewrite (proj2 (String.eqb_neq _ _)). }
      cbn [negb fst snd].
      destruct (IH Hne rem) as [Hlen Hzip].
      split; [cbn [length]; by rewrite Hlen|].
      cbn [zip zip_with app]. by rewrite Hzip.
    + rewrite (markOwner_other des c Hout).
      rewrite (bool_decide_eq_false_2 _ Hout).
      cbn [truthy negb].
      destruct rem as [|d rest]; cbn [fst snd].
      * destruct (IH Hne []) as [Hlen Hzip].
        split; [cbn [length]; by rewrite Hlen|].
        cbn [zip zip_with app]. by rewrite Hzip.
      * destruct (IH Hne rest) as [Hlen Hzip].
        split; [cbn [length]; by rewrite Hlen|].
        cbn [zip zip_with app]. by rewrite Hzip.
Qed.

Lemma collectStep_pair cur (aligned : list jsval) acc i :
  Guarded.collectStep cur aligned acc i =
  (c ← acc;
   collectPair c (arr_get (JString <$> cur) i) (arr_get aligned i)).
Proof. reflexivity. Qed.

(** The collecting loop runs over the facing pairs. *)
Lemma guardedCollect_pairs cur des :
  NoDup cur → NoDup des → (EmptyString ∉ cur) →
  guardedCollect cur (Guarded.reorderNewOwners cur des) =
  collectPairs (Returned (emptyCollected cur))
    (facingPairs des cur (filter (λ d, d ∉ cur) des)).
Proof.
  intros Hcur Hdes Hne.
  destruct (facingPairs_zip des cur Hne (filter (λ d, d ∉ cur) des))
    as [Hlen Hzip].
  rewrite <-Hzip. unfold guardedCollect, collectPairs.
  rewrite guarded_reorderNewOwners_closed by done.
  set (r := fillHolesOrUndefined _ _) in *.
  assert (length (JString <$> cur) ≤ length (r.1 ++ (JString <$> r.2)))
    as Hle by (rewrite length_app, length_fmap, Hlen; lia).
  rewrite length_fmap in Hle.
  rewrite Nat.max_r by done.
  pose proof (index_pairs (JString <$> cur) (r.1 ++ (JString <$> r.2))) as Hp.
  rewrite length_fmap in Hp. specialize (Hp Hle).
  rewrite <-Hlen in Hp.
  rewrite take_app_length, drop_app_length in Hp.
  rewrite <-Hp, foldl_fmap. done.
Qed.
End GuardedCollect.

Section GuardedPlan.
Implicit Types cur des rem : list string.
Implicit Types c : Guarded.Collected.

Lemma truthy_JString x : x ≠ EmptyString → truthy (JString x) = true.
Proof. intros Hx. simpl. by rewrite (proj2 (String.eqb_neq _ _)). Qed.

Lemma JsSet_elem_of_delete (s : list string) x y :
  y ∈ JsSet.delete s x ↔ y ∈ s ∧ y ≠ x.
Proof. unfold JsSet.delete. rewrite list_elem_of_filter. tauto. Qed.

Lemma JsSet_elem_of_add (s : list string) x y :
  y ∈ JsSet.add s x ↔ y ∈ s ∨ y = x.
Proof.
  unfold JsSet.add, JsSet.has. case_bool_decide as Hx.
  - split; [tauto|]. by intros [?| ->].
  - rewrite elem_of_app, list_elem_of_singleton. tauto.
Qed.

Lemma collectPairs_cons c p ps :
  collectPairs (Returned c) (p :: ps)
  = collectPairs (collectPair c p.1 p.2) ps.
Proof. reflexivity. Qed.

Lemma collectPair_same c x :
  x ≠ EmptyString → collectPair c (JString x) (JString x) = Returned c.
Proof.
  intros Hx. unfold collectPair. rewrite truthy_JString by done.
  unfold strict_eq. by rewrite bool_decide_eq_true_2.
Qed.

Lemma collectPair_swap c x y :
  x ≠ EmptyString → y ≠ EmptyString → x ≠ y →
  y ∉ Guarded.interimOwnersSet c →
  collectPair c (JString x) (JString y) =
  Returned
    {| Guarded.swaps := Guarded.swaps c ++ [(JString x, JString y)];
       Guarded.ownersToRemove := Guarded.ownersToRemove c;
       Guarded.ownersToAdd := Guarded.ownersToAdd c;
       Guarded.interimOwnersSet :=
         JsSet.add (JsSet.delete (Guarded.interimOwnersSet c) x) y |}.
Proof.
  intros Hx Hy Hxy Hfresh. unfold collectPair.
  rewrite !truthy_JString by done. unfold strict_eq, JsSet.has.
  rewrite bool_decide_eq_false_2 by congruence. simpl.
  by rewrite bool_decide_eq_false_2.
Qed.

Lemma collectPair_remove c x :
  x ≠ EmptyString →
  collectPair c (JString x) JUndefined =
  Returned
    {| Guarded.swaps := Guarded.swaps c;
       Guarded.ownersToRemove := Guarded.ownersToRemove c ++ [JString x];
       Guarded.ownersToAdd := Guarded.ownersToAdd c;
       Guarded.interimOwnersSet :=
         JsSet.delete (Guarded.interimOwnersSet c) x |}.
Proof.
  intros Hx. unfold collectPair. by rewrite truthy_JString.
Qed.

Lemma collectPair_add c y :
  y ≠ EmptyString → y ∉ Guarded.interimOwnersSet c →
  collectPair c JUndefined (JString y) =
  Returned
    {| Guarded.swaps := Guarded.swaps c;
       Guarded.ownersToRemove := Guarded.ownersToRemove c;
       Guarded.ownersToAdd := Guarded.ownersToAdd c ++ [JString y];
       Guarded.interimOwnersSet :=
         JsSet.add (Guarded.interimOwnersSet c) y |}.
Proof.
  intros Hy Hfresh. unfold collectPair.
  rewrite truthy_JString by done. unfold JsSet.has. simpl.
  by rewrite bool_decide_eq_false_2.
Qed.

(** The owners left over after the last current owner are all added. *)
Lemma collectPairs_adds rem :
  ∀ c, (EmptyString ∉ rem) → NoDup rem →
    (∀ d, d ∈ rem → d ∉ Guarded.interimOwnersSet c) →
    ∃ c',
      collectPairs (Returned c) ((λ d, (JUndefined, JString d)) <$> rem)
        = Returned c' ∧
      Guarded.swaps c' = Guarded.swaps c ∧
      Guarded.ownersToRemove c' = Guarded.ownersToRemove c ∧
      Guarded.ownersToAdd c' = Guarded.ownersToAdd c ++ (JString <$> rem).
Proof.
  induction rem as [|d rem IH]; intros c Hne Hnd Hfresh.
  - exists c. by rewrite app_nil_r.
  - apply not_elem_of_cons in Hne as [Hd Hne].
    apply NoDup_cons in Hnd as [Hdr Hnd].
    rewrite fmap_cons, collectPairs_cons. cbn [fst snd].
    rewrite collectPair_add by (done || apply Hfresh; left).
    match goal with
    | |- context [collectPairs (Returned ?c1) _] =>
        destruct (IH c1) as (c' & Hrun & Hs & Hr & Ha); [done..| |]
    end.
    { intros d' Hd'. cbn [Guarded.interimOwnersSet].
      rewrite JsSet_elem_of_add.
      intros [Hin| ->]; [|done]. apply (Hfresh d'); [by right|done]. }
    exists c'. split; [done|]. simpl in Hs, Hr, Ha.
    split_and!; [done..|]. by rewrite Ha, <-app_assoc.
Qed.

(** The collecting loop never throws on facing pairs: every current owner
    that is not desired is swapped out or removed, and every remaining
    desired owner is swapped in or added. *)
Lemma collectPairs_facing des cur :
  ∀ rem c, (EmptyString ∉ cur) → (EmptyString ∉ rem) → NoDup rem →
    (∀ d, d ∈ rem → d ∉ cur) →
    (∀ d, d ∈ rem → d ∉ Guarded.interimOwnersSet c) →
    ∃ c' sw rm ad,
      collectPairs (Returned c) (facingPairs des cur rem) = Returned c' ∧
      Guarded.swaps c' = Guarded.swaps c ++ sw ∧
      Guarded.ownersToRemove c' = Guarded.ownersToRemove c ++ rm ∧
      Guarded.ownersToAdd c' = Guarded.ownersToAdd c ++ ad ∧
      sw.*1 ++ rm ≡ₚ JString <$> filter (λ x, x ∉ des) cur ∧
      sw.*2 ++ ad ≡ₚ JString <$> rem ∧
      (rm = [] ∨ ad = []).
Proof.
  induction cur as [|c0 cur IH]; intros rem c Hne Hner Hnd Hdisj Hfresh.
  - destruct (collectPairs_adds rem c Hner Hnd Hfresh)
      as (c' & Hrun & Hs & Hr & Ha).
    exists c', [], [], (JString <$> rem).
    rewrite !app_nil_r. split_and!; [done..|by left].
  - apply not_elem_of_cons in Hne as [Hc0 Hne].
    cbn [facingPairs]. case_bool_decide as Hin.
    + rewrite collectPairs_cons. cbn [fst snd].
      rewrite collectPair_same by done.
      destruct (IH rem c) as (c' & sw & rm & ad & Hrun & Hs & Hr & Ha
                              & Hout & Hins & Hone); [done..| |done|].
      { intros d Hd Hdc. apply (Hdisj d Hd). by right. }
      exists c', sw, rm, ad. split_and!; [done..| |done|done].
      by rewrite filter_cons_False by tauto.
    + rewrite filter_cons_True by done. destruct rem as [|d rest].
      * rewrite collectPairs_cons. cbn [fst snd].
        rewrite collectPair_remove by done.
        match goal with
        | |- context [collectPairs (Returned ?c1) _] =>
            destruct (IH [] c1) as (c' & sw & rm & ad & Hrun & Hs & Hr & Ha
                                    & Hout & Hins & _); [done..| | |]
        end.
        { intros d Hd. by apply elem_of_nil in Hd. }
        { intros d Hd. by apply elem_of_nil in Hd. }
        simpl in Hs, Hr, Ha.
        exists c', sw, (JString c0 :: rm), ad.
        split_and!; [done|done|by rewrite Hr, <-app_assoc|done| |done|].
        -- rewrite fmap_cons, <-Hout. by rewrite Permutation_middle.
        -- right. apply Permutation_nil_r in Hins.
           by apply app_eq_nil in Hins as [_ ?].
      * apply not_elem_of_cons in Hner as [Hd Hner].
        apply NoDup_cons in Hnd as [Hdr Hnd].
        assert (c0 ≠ d) as Hcd.
        { intros ->. apply (Hdisj d); left. }
        rewrite collectPairs_cons. cbn [fst snd].
        rewrite collectPair_swap by (done || apply Hfresh; left).
        match goal with
        | |- context [collectPairs (Returned ?c1) _] =>
            destruct (IH rest c1) as (c' & sw & rm & ad & Hrun & Hs & Hr
                                      & Ha & Hout & Hins & Hone); [done..| | |]
        end.
        { intros d' Hd' Hin'. apply (Hdisj d'); by right. }
        { intros d' Hd'. cbn [Guarded.interimOwnersSet].
          rewrite JsSet_elem_of_add, JsSet_elem_of_delete.
          intros [[Hin' _]| ->]; [|done].
          apply (Hfresh d'); [by right|done]. }
        simpl in Hs, Hr, Ha.
        exists c', ((JString c0, JString d) :: sw), rm, ad.
        split_and!; [done|by rewrite Hs, <-app_assoc|done|done| | |done].
        -- rewrite !fmap_cons. simpl. by rewrite Hout.
        -- rewrite !fmap_cons. simpl. by rewrite Hins.
Qed.
End GuardedPlan.

(** ** Operations that do not interfere *)

Lemma elem_of_replay_swap (L : list jsval) a b v :
  v ∈ replayOperation L (OpSwap a b) ↔ (v ∈ L ∧ v ≠ a) ∨ (v = b ∧ a ∈ L).
Proof.
  simpl. rewrite list_elem_of_fmap. split.
  - intros (u & -> & Hu). case_decide as Hua.
    + subst u. by right.
    + by left.
  - intros [[Hv Hva]|[-> Ha]].
    + exists v. by rewrite decide_False.
    + exists a. by rewrite decide_True.
Qed.

Lemma elem_of_replay_remove (L : list jsval) a v :
  v ∈ replayOperation L (OpRemove a) ↔ v ∈ L ∧ v ≠ a.
Proof. simpl. rewrite list_elem_of_filter. tauto. Qed.

Lemma elem_of_replay_add (L : list jsval) b v :
  v ∈ replayOperation L (OpAdd b) ↔ v ∈ L ∨ v = b.
Proof. simpl. by rewrite elem_of_app, list_elem_of_singleton. Qed.

(** Operations that take out distinct owners of the list and put in
    distinct new addresses are applicable in the order they are given, and
    leave the owners that were not taken out together with the addresses
    put in. *)
Lemma independent_operations (operations : list EditOperation) :
  ∀ L : list jsval,
    NoDup (omap removedOwner operations) →
    (∀ v, v ∈ omap removedOwner operations → v ∈ L) →
    NoDup (omap insertedOwner operations) →
    (∀ v, v ∈ omap insertedOwner operations → isNewAddress v ∧ v ∉ L) →
    applicableInOrder L operations ∧
    ∀ v, v ∈ replayOperations L operations ↔
         (v ∈ L ∧ v ∉ omap removedOwner operations)
         ∨ v ∈ omap insertedOwner operations.
Proof.
  induction operations as [|op ops IH]; intros L Hnd_out Hout Hnd_in Hin.
  - split; [done|]. intros v. simpl.
    split; [intros ?; left; split; [done|apply not_elem_of_nil]|].
    intros [[? _]|?%elem_of_nil]; done.
  - destruct op as [a b|b|a]; simpl in Hnd_out, Hout, Hnd_in, Hin.
    + apply NoDup_cons in Hnd_out as [Ha Hnd_out].
      apply NoDup_cons in Hnd_in as [Hb Hnd_in].
      assert (a ∈ L) as HaL by (apply Hout; left).
      destruct (Hin b) as [Hnew HbL]; [left|].
      destruct (IH (replayOperation L (OpSwap a b))) as [Happ Hmem];
        [done| |done| |].
      { intros v Hv. apply elem_of_replay_swap. left.
        split; [apply Hout; by right|]. by intros ->. }
      { intros v Hv. destruct (Hin v) as [? HvL]; [by right|].
        split; [done|]. rewrite elem_of_replay_swap.
        intros [[? _]|[-> _]]; done. }
      split; [done|]. intros v.
      change (replayOperations L (OpSwap a b :: ops))
        with (replayOperations (replayOperation L (OpSwap a b)) ops).
      rewrite Hmem, elem_of_replay_swap. simpl.
      rewrite !elem_of_cons.
      assert (b ∉ omap removedOwner ops) as Hb'.
      { intros Hbo. apply HbL, Hout. by right. }
      split.
      * intros [[[[? ?]|[-> _]] ?]|?]; tauto.
      * intros [[? ?]|[->|?]]; [tauto| |tauto].
        left. split; [right; done|done].
    + apply NoDup_cons in Hnd_in as [Hb Hnd_in].
      destruct (Hin b) as [Hnew HbL]; [left|].
      destruct (IH (replayOperation L (OpAdd b))) as [Happ Hmem];
        [done| |done| |].
      { intros v Hv. apply elem_of_replay_add. left. by apply Hout. }
      { intros v Hv. destruct (Hin v) as [? HvL]; [by right|].
        split; [done|]. rewrite elem_of_replay_add.
        intros [?| ->]; done. }
      split; [done|]. intros v.
      change (replayOperations L (OpAdd b :: ops))
        with (replayOperations (replayOperation L (OpAdd b)) ops).
      rewrite Hmem, elem_of_replay_add. simpl. rewrite !elem_of_cons.
      assert (b ∉ omap removedOwner ops) as Hb'.
      { intros Hbo. by apply HbL, Hout. }
      split.
      * intros [[[?| ->] ?]|?]; tauto.
      * intros [[? ?]|[->|?]]; tauto.
    + apply NoDup_cons in Hnd_out as [Ha Hnd_out].
      assert (a ∈ L) as HaL by (apply Hout; left).
      destruct (IH (replayOperation L (OpRemove a))) as [Happ Hmem];
        [done| |done| |].
      { intros v Hv. apply elem_of_replay_remove.
        split; [apply Hout; by right|]. by intros ->. }
      { intros v Hv. destruct (Hin v) as [? HvL]; [done|].
        split; [done|]. rewrite elem_of_replay_remove. tauto. }
      split; [done|]. intros v.
      change (replayOperations L (OpRemove a :: ops))
        with (replayOperations (replayOperation L (OpRemove a)) ops).
      rewrite Hmem, elem_of_replay_remove. simpl.
      rewrite !not_elem_of_cons. tauto.
Qed.

(** ** The guarded revision reaches the desired owners *)

Lemma guarded_buildOwnerLinkedList_nonempty cur sentinel :
  cur ≠ [] → (EmptyString ∉ cur) →
  Guarded.buildOwnerLinkedList cur sentinel
  = buildOwnerLinkedList cur sentinel.
Proof.
  intros Hcur Hne. destruct cur as [|c rest]; [done|].
  apply not_elem_of_cons in Hne as [Hc _].
  unfold Guarded.buildOwnerLinkedList, buildOwnerLinkedList.
  rewrite fmap_last. cbn [fmap list_fmap arr_get lookup list_lookup default].
  unfold id. rewrite truthy_JString by done.
  destruct (last (c :: rest)) as [lastOwner|] eqn:Hlast; [done|].
  by apply last_None in Hlast.
Qed.

Lemma omap_swaps (l : list (jsval * jsval)) :
  omap removedOwner (uncurry OpSwap <$> l) = l.*1 ∧
  omap insertedOwner (uncurry OpSwap <$> l) = l.*2.
Proof.
  induction l as [|[a b] l [IH1 IH2]]; [done|].
  split; simpl; f_equal; [exact IH1|exact IH2].
Qed.

Lemma omap_removes (l : list jsval) :
  omap removedOwner (OpRemove <$> l) = l ∧
  omap insertedOwner (OpRemove <$> l) = [].
Proof.
  induction l as [|a l [IH1 IH2]]; [done|].
  split; simpl; [f_equal; exact IH1|exact IH2].
Qed.

Lemma omap_adds (l : list jsval) :
  omap removedOwner (OpAdd <$> l) = [] ∧
  omap insertedOwner (OpAdd <$> l) = l.
Proof.
  induction l as [|a l [IH1 IH2]]; [done|].
  split; simpl; [exact IH1|f_equal; exact IH2].
Qed.

Lemma collectedOperations_out (c : Guarded.Collected) :
  omap removedOwner (collectedOperations c)
  = (Guarded.swaps c).*1 ++ Guarded.ownersToRemove c.
Proof.
  unfold collectedOperations. rewrite !omap_app.
  rewrite (proj1 (omap_swaps _)), (proj1 (omap_removes _)),
    (proj1 (omap_adds _)).
  by rewrite app_nil_r.
Qed.

Lemma collectedOperations_in (c : Guarded.Collected) :
  omap insertedOwner (collectedOperations c)
  = (Guarded.swaps c).*2 ++ Guarded.ownersToAdd c.
Proof.
  unfold collectedOperations. rewrite !omap_app.
  by rewrite (proj2 (omap_swaps _)), (proj2 (omap_removes _)),
    (proj2 (omap_adds _)).
Qed.

Lemma guarded_buildTransactions_unfold safe cur thr0 des thr :
  Guarded.buildTransactions safe cur thr0 des thr =
  (c ← guardedCollect cur (Guarded.reorderNewOwners cur des);
   st ← processOperations safe thr (guardedInitialLoopState cur)
          (collectedOperations c);
   Returned
     (ls_transactions st ++
      (if bool_decide (thr ≠ thr0) && negb (ls_hasAddOrRemove st)
          && (0 <? length (Guarded.swaps c))
       then [createChangeThresholdTransaction safe thr]
       else []))).
Proof.
  unfold Guarded.buildTransactions.
  fold (guardedCollect cur (Guarded.reorderNewOwners cur des)).
  destruct (guardedCollect _ _) as [c| |]; simpl; [|done..].
  fold (guardedInitialLoopState cur). fold (collectedOperations c).
  destruct (processOperations _ _ _ _) as [st| |]; simpl; [|done..].
  destruct (bool_decide (thr ≠ thr0)); simpl; [|by rewrite app_nil_r].
  destruct (negb (ls_hasAddOrRemove st) && _); [done|by rewrite app_nil_r].
Qed.

(** What the collecting loop collects is applicable in its order, and
    replaying it gives the desired owners. *)
Lemma guarded_operations_applicable (cur des : list string) :
  NoDup cur → (EmptyString ∉ cur) →
  NoDup (SENTINEL_OWNERS :: des) → (EmptyString ∉ des) →
  ∃ c,
    guardedCollect cur (Guarded.reorderNewOwners cur des) = Returned c ∧
    applicableInOrder (JString <$> cur) (collectedOperations c) ∧
    ∀ v, v ∈ replayOperations (JString <$> cur) (collectedOperations c) ↔
         v ∈ JString <$> des.
Proof.
  intros Hcur Hne Hdes Hne'.
  apply NoDup_cons in Hdes as [Hs' Hdes].
  destruct (collectPairs_facing des cur (filter (λ d, d ∉ cur) des)
              (emptyCollected cur))
    as (c & sw & rm & ad & Hrun & Hsw & Hrm & Had & Hout & Hin & _).
  { done. }
  { intros Hin. by apply list_elem_of_filter in Hin as [_ ?]. }
  { by apply NoDup_filter. }
  { intros d Hd. by apply list_elem_of_filter in Hd as [? _]. }
  { intros d Hd. simpl. rewrite JsSet_of_array_NoDup by done.
    by apply list_elem_of_filter in Hd as [? _]. }
  simpl in Hsw, Hrm, Had.
  rewrite <-guardedCollect_pairs in Hrun by done.
  assert (omap removedOwner (collectedOperations c)
          ≡ₚ JString <$> filter (λ x, x ∉ des) cur)
    as Houts by (by rewrite collectedOperations_out, Hsw, Hrm).
  assert (omap insertedOwner (collectedOperations c)
          ≡ₚ JString <$> filter (λ d, d ∉ cur) des)
    as Hins by (by rewrite collectedOperations_in, Hsw, Had).
  destruct (independent_operations (collectedOperations c)
              (JString <$> cur)) as [Happ Hmem].
  { rewrite Houts. apply JString_inj_NoDup. by apply NoDup_filter. }
  { intros v. rewrite Houts.
    intros (x & -> & [_ Hx]%list_elem_of_filter)%elem_of_JString_fmap.
    apply elem_of_JString_fmap. eauto. }
  { rewrite Hins. apply JString_inj_NoDup. by apply NoDup_filter. }
  { intros v. rewrite Hins.
    intros (x & -> & [Hx Hxd]%list_elem_of_filter)%elem_of_JString_fmap.
    split.
    - simpl. split; intros ->; done.
    - intros (y & [= <-] & Hy)%elem_of_JString_fmap. done. }
  exists c. split_and!; [done..|].
  intros v. rewrite Hmem, Houts, Hins, !elem_of_JString_fmap. split.
  - intros [[(x & -> & Hx) Hnot]|(x & -> & Hx)].
    + exists x. split; [done|].
      destruct (decide (x ∈ des)) as [|Hxd]; [done|].
      destruct Hnot. exists x. split; [done|].
      by apply list_elem_of_filter.
    + exists x. split; [done|].
      by apply list_elem_of_filter in Hx as [_ ?].
  - intros (x & -> & Hx).
    destruct (decide (x ∈ cur)) as [Hxc|Hxc].
    + left. split; [by exists x|].
      intros (y & [= <-] & Hy). by apply list_elem_of_filter in Hy as [? _].
    + right. exists x. split; [done|]. by apply list_elem_of_filter.
Qed.

Lemma guarded_initial_invariant (cur : list string) :
  cur ≠ [] → NoDup (SENTINEL_OWNERS :: cur) → (EmptyString ∉ cur) →
  linkedListInvariant (ls_ownerLinkedList (guardedInitialLoopState cur))
    (JString <$> cur).
Proof.
  intros Hnonempty Hcur Hne. simpl.
  rewrite guarded_buildOwnerLinkedList_nonempty by done.
  by apply buildOwnerLinkedList_invariant.
Qed.

(** X15. In the guarded revision, for duplicate-free current owners (at
    least one) and duplicate-free desired owners, all of them non-empty
    addresses other than the sentinel, whether the desired owners are more
    or fewer than the current ones: the collecting loop never throws its
    duplicate-owner error, the run returns, the operations behind its
    transactions (the swaps, then the removals, then the additions) are
    each applicable where they are processed, the simulator is well formed
    at the end, and replaying the operations on the current owners gives
    exactly the desired owners. *)
Theorem guarded_batch_reaches_desired_owners (safeAddressChecksum : string)
    (currentOwners desiredOwners : list string)
    (currentThreshold threshold : Z) :
  currentOwners ≠ [] →
  NoDup (SENTINEL_OWNERS :: currentOwners) →
  (EmptyString ∉ currentOwners) →
  NoDup (SENTINEL_OWNERS :: desiredOwners) →
  (EmptyString ∉ desiredOwners) →
  ∃ collected st fromOperations tail,
    guardedCollect currentOwners
      (Guarded.reorderNewOwners currentOwners desiredOwners)
      = Returned collected ∧
    processOperations safeAddressChecksum threshold
      (guardedInitialLoopState currentOwners)
      (collectedOperations collected) = Returned st ∧
    Guarded.buildTransactions safeAddressChecksum currentOwners
      currentThreshold desiredOwners threshold
      = Returned (fromOperations ++ tail) ∧
    Forall2 (λ op tx, method_name (contractMethod tx) = methodOf op)
      (collectedOperations collected) fromOperations ∧
    (tail = [] ∨
     tail = [createChangeThresholdTransaction safeAddressChecksum
               threshold]) ∧
    applicableInOrder (JString <$> currentOwners)
      (collectedOperations collected) ∧
    linkedListInvariant (ls_ownerLinkedList st)
      (replayOperations (JString <$> currentOwners)
         (collectedOperations collected)) ∧
    replayOperations (JString <$> currentOwners)
      (collectedOperations collected)
      ≡ₚ JString <$> desiredOwners.
Proof.
  intros Hnonempty Hcur Hne Hdes Hne'.
  pose proof Hcur as [Hs Hcur']%NoDup_cons.
  destruct (guarded_operations_applicable currentOwners desiredOwners)
    as (c & Hrun & Happ & Hmem); [done..|].
  destruct (processOperations_invariant safeAddressChecksum threshold
              (collectedOperations c) (guardedInitialLoopState currentOwners)
              (JString <$> currentOwners))
    as (st & Hst & Hinv); [by apply guarded_initial_invariant|done|].
  destruct (processOperations_lockstep _ _ _ _ _ Hst)
    as (_ & _ & emitted & Hem & Hlen & Hk).
  simpl in Hem.
  eexists c, st, emitted, _. split_and!; [done|done| | | |done|done|].
  - rewrite guarded_buildTransactions_unfold, Hrun. simpl.
    rewrite Hst. simpl. by rewrite Hem.
  - apply Forall2_same_length_lookup_2; [done|].
    intros k op tx Hop Htx. destruct (Hk k op Hop) as (lst & _ & Htx').
    rewrite Htx in Htx'. injection Htx' as ->.
    apply descriptorFor_method.
  - destruct (_ && _); [by right|by left].
  - apply NoDup_Permutation; [| |done].
    + destruct Hinv as (L & -> & HndL & _). apply JString_inj_NoDup.
      by apply NoDup_cons in HndL as [_ ?].
    + apply JString_inj_NoDup. by apply NoDup_cons in Hdes as [_ ?].
Qed.

Lemma guarded_batch_reaches_desired_owners_witness :
  ∃ collected st fromOperations tail,
    guardedCollect [ownerA; ownerB; ownerC]
      (Guarded.reorderNewOwners [ownerA; ownerB; ownerC] [ownerC])
      = Returned collected ∧
    processOperations safeOne 1
      (guardedInitialLoopState [ownerA; ownerB; ownerC])
      (collectedOperations collected) = Returned st ∧
    Guarded.buildTransactions safeOne [ownerA; ownerB; ownerC] 2
      [ownerC] 1
      = Returned (fromOperations ++ tail) ∧
    Forall2 (λ op tx, method_name (contractMethod tx) = methodOf op)
      (collectedOperations collected) fromOperations ∧
    (tail = [] ∨ tail = [createChangeThresholdTransaction safeOne 1]) ∧
    applicableInOrder (JString <$> [ownerA; ownerB; ownerC])
      (collectedOperations collected) ∧
    linkedListInvariant (ls_ownerLinkedList st)
      (replayOperations (JString <$> [ownerA; ownerB; ownerC])
         (collectedOperations collected)) ∧
    replayOperations (JString <$> [ownerA; ownerB; ownerC])
      (collectedOperations collected)
      ≡ₚ JString <$> [ownerC].
Proof.
  apply (guarded_batch_reaches_desired_owners safeOne
           [ownerA; ownerB; ownerC] [ownerC] 2 1).
  - done.
  - apply (bool_decide_unpack _). by vm_compute.
  - apply (bool_decide_unpack _). by vm_compute.
  - apply (bool_decide_unpack _). by vm_compute.
  - apply (bool_decide_unpack _). by vm_compute.
Defined.

(** ** The shape of the script after the alignment *)

Section ScriptShape.
Implicit Types cur des rem : list string.
Implicit Types ops : list EditOperation.

Lemma countOperations_cons kind op ops :
  countOperations kind (op :: ops)
  = (if kind op then 1 else 0) + countOperations kind ops.
Proof.
  unfold countOperations. rewrite filter_cons.
  destruct (kind op); by case_decide.
Qed.

Lemma count_taken_out ops :
  length (omap removedOwner ops)
  = countOperations isSwap ops + countOperations isRemove ops.
Proof.
  induction ops as [|op ops IH]; [done|].
  rewrite !countOperations_cons. destruct op; cbn; lia.
Qed.

Lemma count_put_in ops :
  length (omap insertedOwner ops)
  = countOperations isSwap ops + countOperations isAdd ops.
Proof.
  induction ops as [|op ops IH]; [done|].
  rewrite !countOperations_cons. destruct op; cbn; lia.
Qed.

Lemma count_all ops :
  length ops
  = countOperations isSwap ops + countOperations isAdd ops
    + countOperations isRemove ops.
Proof.
  induction ops as [|op ops IH]; [done|].
  rewrite !countOperations_cons. destruct op; cbn; lia.
Qed.

Lemma edit_script_positional (a b : list jsval) :
  edit_script a b (positionalCost a b).
Proof.
  revert b. induction a as [|x a IH]; intros b.
  - destruct b; apply edit_script_inserts.
  - destruct b as [|y b]; [apply edit_script_deletes|].
    simpl. case_decide as Hxy.
    + subst y. by constructor.
    + by constructor.
Qed.

(** Every element of the first array is taken out by the script or stands
    in the second array. *)
Lemma editScript_kept_or_out (a b : list jsval) ops :
  editScript a b ops →
  ∀ x, x ∈ a → x ∈ omap removedOwner ops ∨ x ∈ b.
Proof.
  induction 1 as [|a b ops y _ IH|a b ops y z _ _ IH|a b ops z _ IH
                 |a b ops y _ IH]; intros x Hx.
  - by apply elem_of_nil in Hx.
  - apply elem_of_app in Hx as [Hx|Hx].
    + destruct (IH x Hx); [by left|right]. rewrite elem_of_app. by left.
    + right. rewrite elem_of_app. by right.
  - rewrite omap_app, !elem_of_app. simpl.
    apply elem_of_app in Hx as [Hx|Hx]; [destruct (IH x Hx)|]; tauto.
  - rewrite omap_app, !elem_of_app. simpl. destruct (IH x Hx); tauto.
  - rewrite omap_app, !elem_of_app. simpl.
    apply elem_of_app in Hx as [Hx|Hx]; [destruct (IH x Hx)|]; tauto.
Qed.

Lemma positionalCost_aligned des cur :
  (EmptyString ∉ cur) →
  ∀ rem (extra : list jsval),
    (∀ d, d ∈ rem → d ∉ cur) →
    positionalCost (JString <$> cur)
      ((fillHoles (markOwner des <$> cur) rem).1 ++ extra)
    = length (filter (λ c, c ∉ des) cur) + length extra.
Proof.
  induction cur as [|c cur IH]; intros Hne rem extra Hdisj.
  - by destruct rem.
  - apply not_elem_of_cons in Hne as [Hc Hne].
    rewrite !fmap_cons.
    destruct (decide (c ∈ des)) as [Hin|Hout].
    + rewrite (markOwner_desired des c Hin).
      rewrite fillHoles_cons_keep by (by apply truthy_JString).
      cbn [fst app positionalCost]. rewrite decide_True by done.
      rewrite filter_cons_False by tauto.
      apply IH; [done|]. intros d Hd Hdc. apply (Hdisj d Hd). by right.
    + rewrite (markOwner_other des c Hout).
      rewrite filter_cons_True by done.
      destruct rem as [|d rest].
      * rewrite fillHoles_cons_empty.
        cbn [fst app positionalCost]. rewrite decide_False by done.
        rewrite IH; [simpl; lia|done|].
        intros d Hd. by apply elem_of_nil in Hd.
      * rewrite fillHoles_cons_fill by done.
        cbn [fst app positionalCost].
        rewrite decide_False.
        -- rewrite IH; [simpl; lia|done|].
           intros d' Hd' Hin'. apply (Hdisj d'); by right.
        -- intros [= ->]. apply (Hdisj d); left.
Qed.
End ScriptShape.

(** The script after the alignment is not longer than the positional
    script, takes out every current owner that is not desired, and
    balances the sizes of the two lists. *)
Lemma script_after_alignment_bounds
    (currentOwners desiredOwners : list string) :
  NoDup currentOwners → NoDup desiredOwners →
  (EmptyString ∉ currentOwners) →
  ∃ operations,
    calculateEditOperations (JString <$> currentOwners)
      (reorderNewOwners currentOwners desiredOwners) = inr operations ∧
    length operations
      ≤ length (filter (λ c, c ∉ desiredOwners) currentOwners)
        + (length desiredOwners - length currentOwners) ∧
    length (filter (λ c, c ∉ desiredOwners) currentOwners)
      ≤ length (omap removedOwner operations) ∧
    length currentOwners + length (omap insertedOwner operations)
      = length desiredOwners + (length currentOwners - length desiredOwners)
        + length (omap removedOwner operations).
Proof.
  intros Hcur Hdes Hne.
  destruct (calculateEditOperations_script_count (JString <$> currentOwners)
              (reorderNewOwners currentOwners desiredOwners))
    as (operations & Heq & Hscript & Hcount).
  exists operations. split; [done|].
  pose proof (reorderNewOwners_multiset _ _ Hcur Hdes Hne) as Hmulti.
  pose proof (Permutation_length Hmulti) as Hn.
  rewrite length_app, length_fmap, length_replicate in Hn.
  destruct (editScript_accounts _ _ _ Hscript) as (Hout & _ & Hbal).
  rewrite length_fmap in Hbal.
  split_and!.
  - (* the script is not longer than the positional one *)
    rewrite Hcount.
    etransitivity; [apply edit_script_lower, edit_script_positional|].
    rewrite reorderNewOwners_closed in Hn |- * by done.
    destruct (fillHoles_spec desiredOwners currentOwners Hne
                (filter (λ d, d ∉ currentOwners) desiredOwners))
      as (Hlen & _).
    rewrite positionalCost_aligned; [|done|].
    + rewrite length_app, Hlen in Hn. lia.
    + intros d Hd. by apply list_elem_of_filter in Hd as [? _].
  - (* every current owner that is not desired is taken out *)
    rewrite <-(length_fmap JString).
    apply submseteq_length, NoDup_submseteq.
    + apply JString_inj_NoDup. by apply NoDup_filter.
    + intros v (x & -> & [Hxd Hx]%list_elem_of_filter)%elem_of_JString_fmap.
      destruct (editScript_kept_or_out _ _ _ Hscript (JString x)) as [?|Hin];
        [apply elem_of_JString_fmap; eauto|done|].
      rewrite Hmulti, elem_of_app in Hin. destruct Hin as [Hin|Hin].
      * apply elem_of_JString_fmap in Hin as (y & [= <-] & Hy). done.
      * by apply elem_of_replicate in Hin as [? _].
  - lia.
Qed.

(** X16. After the alignment of duplicate-free owners the script never
    holds a remove: it holds one swap for every current owner that is not
    desired, and one add for every owner by which the desired owners
    outnumber the current ones. *)
Theorem script_after_alignment_has_no_remove
    (currentOwners desiredOwners : list string) :
  NoDup currentOwners → NoDup desiredOwners →
  (EmptyString ∉ currentOwners) →
  ∃ operations,
    calculateEditOperations (JString <$> currentOwners)
      (reorderNewOwners currentOwners desiredOwners) = inr operations ∧
    countOperations isRemove operations = 0 ∧
    countOperations isSwap operations
      = length (filter (λ c, c ∉ desiredOwners) currentOwners) ∧
    countOperations isAdd operations
      = length desiredOwners - length currentOwners.
Proof.
  intros Hcur Hdes Hne.
  destruct (script_after_alignment_bounds _ _ Hcur Hdes Hne)
    as (operations & Heq & Hupper & Hlower & Hbalance).
  exists operations. split; [done|].
  pose proof (count_taken_out operations).
  pose proof (count_put_in operations).
  pose proof (count_all operations).
  lia.
Qed.

Lemma script_after_alignment_has_no_remove_witness :
  ∃ operations,
    calculateEditOperations (JString <$> [ownerA; ownerB; ownerC])
      (reorderNewOwners [ownerA; ownerB; ownerC] [ownerC]) = inr operations ∧
    countOperations isRemove operations = 0 ∧
    countOperations isSwap operations
      = length (filter (λ c, c ∉ [ownerC]) [ownerA; ownerB; ownerC]) ∧
    countOperations isAdd operations
      = length [ownerC] - length [ownerA; ownerB; ownerC].
Proof.
  apply (script_after_alignment_has_no_remove [ownerA; ownerB; ownerC]
           [ownerC]).
  - apply (bool_decide_unpack _). by vm_compute.
  - apply (bool_decide_unpack _). by vm_compute.
  - apply (bool_decide_unpack _). by vm_compute.
Defined.

Lemma countOperations_zero kind (operations : list EditOperation) :
  countOperations kind operations = 0 →
  Forall (λ op, kind op = false) operations.
Proof.
  induction operations as [|op ops IH]; [constructor|].
  rewrite countOperations_cons. destruct (kind op) eqn:Hk; [done|].
  intros Hz. constructor; [done|]. by apply IH.
Qed.

Lemma processOperations_without_add safe threshold
    (operations : list EditOperation) :
  Forall (λ op, isAdd op = false) operations →
  ∀ st, ∃ st', processOperations safe threshold st operations = Returned st'.
Proof.
  induction 1 as [|op ops Hop _ IH]; intros st; simpl; [by eexists|].
  destruct op as [oldOwner newOwner|owner|owner]; [|done|]; simpl; apply IH.
Qed.

(** X17. For duplicate-free current and desired owners, all of them
    non-empty addresses other than the sentinel, the part of
    [generateTransactions] that builds the transactions always returns: it
    does not throw and the walk of the simulator always ends. The
    transactions it returns never call removeOwner, whether the desired
    owners are more or fewer than the current ones. *)
Theorem library_batch_never_removes (safeAddressChecksum : string)
    (currentOwners desiredOwners : list string)
    (currentThreshold threshold : Z) :
  NoDup (SENTINEL_OWNERS :: currentOwners) →
  (EmptyString ∉ currentOwners) →
  NoDup (SENTINEL_OWNERS :: desiredOwners) →
  (EmptyString ∉ desiredOwners) →
  ∃ txs,
    buildTransactions safeAddressChecksum currentOwners currentThreshold
      desiredOwners threshold = Returned txs ∧
    ∀ tx, tx ∈ txs → method_name (contractMethod tx) ≠ "removeOwner".
Proof.
  intros Hcur Hne Hdes Hne'.
  pose proof Hcur as [Hs Hcur']%NoDup_cons.
  pose proof Hdes as [Hs' Hdes']%NoDup_cons.
  destruct (script_after_alignment_bounds _ _ Hcur' Hdes' Hne)
    as (operations & Hops & Hupper & Hlower & Hbalance).
  pose proof (count_taken_out operations) as Hout.
  pose proof (count_put_in operations) as Hin.
  pose proof (count_all operations) as Hall.
  assert (countOperations isRemove operations = 0) as Hnoremove by lia.
  assert (countOperations isAdd operations
          = length desiredOwners - length currentOwners) as Hadds by lia.
  clear Hupper Hlower Hbalance Hout Hin Hall.
  assert (∃ st, processOperations safeAddressChecksum threshold
                  (initialLoopState currentOwners) operations = Returned st)
    as [st Hst].
  { destruct (decide (length currentOwners ≤ length desiredOwners)) as [Hle|Hgt].
    - destruct (calculateEditOperations_aligned currentOwners desiredOwners)
        as (operations' & Hops' & Happ & _); [done..| |done|].
      { intros x Hx. split; intros ->; done. }
      rewrite Hops in Hops'. injection Hops' as <-.
      destruct (processOperations_invariant safeAddressChecksum threshold
                  operations (initialLoopState currentOwners)
                  (JString <$> currentOwners)) as (st & Hst & _);
        [by apply buildOwnerLinkedList_invariant|done|].
      by exists st.
    - apply processOperations_without_add, countOperations_zero. lia. }
  unfold buildTransactions. rewrite Hops. simpl.
  fold (initialLoopState currentOwners). rewrite Hst. simpl.
  destruct (processOperations_lockstep _ _ _ _ _ Hst)
    as (_ & _ & emitted & Hem & Hlen & Hk).
  simpl in Hem. rewrite Hem.
  assert (∀ tx, tx ∈ emitted →
            method_name (contractMethod tx) ≠ "removeOwner") as Hemitted.
  { intros tx [k Htx]%list_elem_of_lookup.
    assert (is_Some (operations !! k)) as [op Hop].
    { apply lookup_lt_is_Some. apply lookup_lt_Some in Htx. lia. }
    destruct (Hk k op Hop) as (lst & _ & Htx').
    rewrite Htx in Htx'. injection Htx' as ->.
    rewrite descriptorFor_method.
    pose proof (countOperations_zero _ _ Hnoremove) as Hall.
    rewrite Forall_forall in Hall.
    specialize (Hall op (list_elem_of_lookup_2 _ _ _ Hop)).
    by destruct op. }
  destruct (bool_decide (threshold ≠ currentThreshold)); simpl.
  - destruct (negb (ls_hasAddOrRemove st) && existsb isSwap operations).
    + eexists. split; [done|]. intros tx [Htx|Htx]%elem_of_app.
      * by apply Hemitted.
      * by apply list_elem_of_singleton in Htx as ->.
    + eexists. by split.
  - eexists. by split.
Qed.

Lemma library_batch_never_removes_witness :
  ∃ txs,
    buildTransactions safeOne [ownerA; ownerB; ownerC] 2 [ownerC] 1
      = Returned txs ∧
    ∀ tx, tx ∈ txs → method_name (contractMethod tx) ≠ "removeOwner".
Proof.
  apply (library_batch_never_removes safeOne [ownerA; ownerB; ownerC]
           [ownerC] 2 1).
  - apply (bool_decide_unpack _). by vm_compute.
  - apply (bool_decide_unpack _). by vm_compute.
  - apply (bool_decide_unpack _). by vm_compute.
  - apply (bool_decide_unpack _). by vm_compute.
Defined.

(** ** The two alignments side by side *)

Lemma fillHolesOrUndefined_fillHoles (slots : list jsval) :
  Forall (λ v, v = JNull ∨ truthy v = true) slots →
  ∀ rem : list string,
    fillHolesOrUndefined slots rem
    = (nullAsUndefined <$> (fillHoles slots rem).1,
       (fillHoles slots rem).2).
Proof.
  induction 1 as [|v slots Hv _ IH]; intros rem.
  - by destruct rem.
  - rewrite fillHolesOrUndefined_cons. destruct Hv as [->|Hv].
    + cbn [truthy negb]. destruct rem as [|next rest].
      * rewrite fillHoles_cons_empty, IH. done.
      * rewrite fillHoles_cons_fill by done. rewrite IH. done.
    + rewrite Hv. cbn [negb].
      rewrite fillHoles_cons_keep by done. rewrite IH.
      cbn [fst snd]. rewrite fmap_cons. by destruct v.
Qed.

(** X18. On duplicate-free owners the two revisions of [reorderNewOwners]
    give the same alignment, except that a position that stays unfilled is
    [undefined] in the guarded revision where it is [null] in the library;
    when the desired owners are at least as many as the current ones no
    position stays unfilled and the two alignments are equal. *)
Theorem revisions_align_alike (currentOwners desiredOwners : list string) :
  NoDup currentOwners → NoDup desiredOwners →
  (EmptyString ∉ currentOwners) →
  Guarded.reorderNewOwners currentOwners desiredOwners
    = nullAsUndefined <$> reorderNewOwners currentOwners desiredOwners ∧
  (length currentOwners ≤ length desiredOwners →
   Guarded.reorderNewOwners currentOwners desiredOwners
     = reorderNewOwners currentOwners desiredOwners).
Proof.
  intros Hcur Hdes Hne.
  assert (Guarded.reorderNewOwners currentOwners desiredOwners
          = nullAsUndefined <$> reorderNewOwners currentOwners desiredOwners)
    as Heq.
  { rewrite guarded_reorderNewOwners_closed, reorderNewOwners_closed by done.
    rewrite fillHolesOrUndefined_fillHoles.
    - cbn [fst snd]. rewrite fmap_app. f_equal.
      rewrite <-list_fmap_compose. by apply list_fmap_ext.
    - apply Forall_fmap, Forall_forall. intros c Hc. simpl.
      unfold markOwner. case_bool_decide; [right|by left].
      apply truthy_JString. by intros ->. }
  split; [done|]. intros Hle. rewrite Heq.
  destruct (reorderNewOwners_alignedShape _ _ Hcur Hdes Hne Hle)
    as (d & -> & _).
  rewrite <-list_fmap_compose. by apply list_fmap_ext.
Qed.

Lemma revisions_align_alike_witness :
  Guarded.reorderNewOwners [ownerA; ownerB; ownerC] [ownerC; ownerD]
    = nullAsUndefined
        <$> reorderNewOwners [ownerA; ownerB; ownerC] [ownerC; ownerD] ∧
  (length [ownerA; ownerB; ownerC] ≤ length [ownerC; ownerD] →
   Guarded.reorderNewOwners [ownerA; ownerB; ownerC] [ownerC; ownerD]
     = reorderNewOwners [ownerA; ownerB; ownerC] [ownerC; ownerD]).
Proof.
  apply (revisions_align_alike [ownerA; ownerB; ownerC] [ownerC; ownerD]).
  - apply (bool_decide_unpack _). by vm_compute.
  - apply (bool_decide_unpack _). by vm_compute.
  - apply (bool_decide_unpack _). by vm_compute.
Defined.

(** X19. The collecting loop of the guarded revision returns for
    duplicate-free lists of non-empty addresses, and the operations it
    collects are as few as a reconciliation can have: their number is the
    larger of the number of current owners that are not desired and the
    number of desired owners that are not current. A run never collects
    both a removal and an addition. *)
Theorem guarded_operation_count (currentOwners desiredOwners : list string) :
  NoDup currentOwners → NoDup desiredOwners →
  (EmptyString ∉ currentOwners) → (EmptyString ∉ desiredOwners) →
  ∃ collected,
    guardedCollect currentOwners
      (Guarded.reorderNewOwners currentOwners desiredOwners)
      = Returned collected ∧
    length (collectedOperations collected)
      = Nat.max (length (filter (λ c, c ∉ desiredOwners) currentOwners))
                (length (filter (λ d, d ∉ currentOwners) desiredOwners)) ∧
    (Guarded.ownersToRemove collected = []
     ∨ Guarded.ownersToAdd collected = []).
Proof.
  intros Hcur Hdes Hne Hne'.
  destruct (collectPairs_facing desiredOwners currentOwners
              (filter (λ d, d ∉ currentOwners) desiredOwners)
              (emptyCollected currentOwners))
    as (c & sw & rm & ad & Hrun & Hsw & Hrm & Had & Hout & Hin & Hone).
  { done. }
  { intros Hin. by apply list_elem_of_filter in Hin as [_ ?]. }
  { by apply NoDup_filter. }
  { intros d Hd. by apply list_elem_of_filter in Hd as [? _]. }
  { intros d Hd. simpl. rewrite JsSet_of_array_NoDup by done.
    by apply list_elem_of_filter in Hd as [? _]. }
  simpl in Hsw, Hrm, Had.
  rewrite <-guardedCollect_pairs in Hrun by done.
  exists c. split; [done|]. rewrite Hrm, Had. split; [|done].
  unfold collectedOperations.
  rewrite !length_app, !length_fmap, Hsw, Hrm, Had.
  apply Permutation_length in Hout, Hin.
  rewrite length_app, !length_fmap in Hout, Hin.
  destruct Hone as [-> | ->]; simpl in *; lia.
Qed.

Lemma guarded_operation_count_witness :
  ∃ collected,
    guardedCollect [ownerA; ownerB; ownerC]
      (Guarded.reorderNewOwners [ownerA; ownerB; ownerC] [ownerC; ownerD])
      = Returned collected ∧
    length (collectedOperations collected)
      = Nat.max
          (length (filter (λ c, c ∉ [ownerC; ownerD])
                     [ownerA; ownerB; ownerC]))
          (length (filter (λ d, d ∉ [ownerA; ownerB; ownerC])
                     [ownerC; ownerD])) ∧
    (Guarded.ownersToRemove collected = []
     ∨ Guarded.ownersToAdd collected = []).
Proof.
  apply (guarded_operation_count [ownerA; ownerB; ownerC] [ownerC; ownerD]).
  - apply (bool_decide_unpack _). by vm_compute.
  - apply (bool_decide_unpack _). by vm_compute.
  - apply (bool_decide_unpack _). by vm_compute.
  - apply (bool_decide_unpack _). by vm_compute.
Defined.

(** X20. After the two filling loops of [calculateEditOperations] the
    matrix has one row per prefix of the current owners and one column per
    prefix of the new owners, and the cell (i, j) holds the unit-cost edit
    distance between the first [i] current owners and the first [j] new
    owners. *)
Theorem matrix_holds_prefix_distances (currentOwners newOwners : list jsval)
    (i j : nat) :
  i ≤ length currentOwners → j ≤ length newOwners →
  dp_get
    (dp_fill currentOwners newOwners
       (dp_base (length currentOwners) (length newOwners)
          (dp_init (length currentOwners) (length newOwners)))) i j
    = edit_distance (take i currentOwners) (take j newOwners) ∧
  length
    (dp_fill currentOwners newOwners
       (dp_base (length currentOwners) (length newOwners)
          (dp_init (length currentOwners) (length newOwners))))
    = S (length currentOwners) ∧
  ∀ row,
    row ∈ dp_fill currentOwners newOwners
            (dp_base (length currentOwners) (length newOwners)
               (dp_init (length currentOwners) (length newOwners))) →
    length row = S (length newOwners).
Proof.
  intros Hi Hj.
  destruct (dp_fill_known currentOwners newOwners) as [[Hrows Hcols] Hcells].
  split_and!.
  - by apply Hcells.
  - done.
  - intros row [k Hk]%list_elem_of_lookup. by eapply Hcols.
Qed.

Lemma matrix_holds_prefix_distances_witness :
  dp_get
    (dp_fill (JString <$> [ownerA; ownerB]) (JString <$> [ownerB; ownerC])
       (dp_base (length (JString <$> [ownerA; ownerB]))
          (length (JString <$> [ownerB; ownerC]))
          (dp_init (length (JString <$> [ownerA; ownerB]))
             (length (JString <$> [ownerB; ownerC]))))) 2 2
    = edit_distance (take 2 (JString <$> [ownerA; ownerB]))
        (take 2 (JString <$> [ownerB; ownerC])) ∧
  length
    (dp_fill (JString <$> [ownerA; ownerB]) (JString <$> [ownerB; ownerC])
       (dp_base (length (JString <$> [ownerA; ownerB]))
          (length (JString <$> [ownerB; ownerC]))
          (dp_init (length (JString <$> [ownerA; ownerB]))
             (length (JString <$> [ownerB; ownerC])))))
    = S (length (JString <$> [ownerA; ownerB])) ∧
  ∀ row,
    row ∈ dp_fill (JString <$> [ownerA; ownerB])
            (JString <$> [ownerB; ownerC])
            (dp_base (length (JString <$> [ownerA; ownerB]))
               (length (JString <$> [ownerB; ownerC]))
               (dp_init (length (JString <$> [ownerA; ownerB]))
                  (length (JString <$> [ownerB; ownerC])))) →
    length row = S (length (JString <$> [ownerB; ownerC])).
Proof.
  apply (matrix_holds_prefix_distances (JString <$> [ownerA; ownerB])
           (JString <$> [ownerB; ownerC]) 2 2); simpl; lia.
Defined.

(** Every element of the second array is put in by the script or stands
    in the first array. *)
Lemma editScript_kept_or_in (a b : list jsval)
    (ops : list EditOperation) :
  editScript a b ops →
  ∀ y, y ∈ b → y ∈ omap insertedOwner ops ∨ y ∈ a.
Proof.
  induction 1 as [|a b ops x _ IH|a b ops x z _ _ IH|a b ops z _ IH
                 |a b ops x _ IH]; intros y Hy.
  - by apply elem_of_nil in Hy.
  - apply elem_of_app in Hy as [Hy|Hy].
    + destruct (IH y Hy); [by left|right]. rewrite elem_of_app. by left.
    + right. rewrite elem_of_app. by right.
  - rewrite omap_app, !elem_of_app. simpl.
    apply elem_of_app in Hy as [Hy|Hy]; [destruct (IH y Hy)|]; tauto.
  - rewrite omap_app, !elem_of_app. simpl.
    apply elem_of_app in Hy as [Hy|Hy]; [destruct (IH y Hy)|]; tauto.
  - rewrite omap_app, !elem_of_app. simpl. destruct (IH y Hy); tauto.
Qed.

(** X21. Whenever the desired owners are fewer than the current ones
    (both duplicate-free, the current owners non-empty strings), the
    transaction-building part of [generateTransactions] returns and the
    batch holds a swapOwner transaction that replaces a current owner by
    [null]: the placeholder of the alignment is passed on as the new
    owner. *)
Theorem fewer_desired_owners_swap_in_null (safeAddressChecksum : string)
    (currentOwners desiredOwners : list string)
    (currentThreshold threshold : Z) :
  NoDup currentOwners → NoDup desiredOwners →
  (EmptyString ∉ currentOwners) →
  length desiredOwners < length currentOwners →
  ∃ txs tx oldOwner,
    buildTransactions safeAddressChecksum currentOwners currentThreshold
      desiredOwners threshold = Returned txs ∧
    tx ∈ txs ∧
    method_name (contractMethod tx) = "swapOwner" ∧
    inputValue tx "oldOwner" = JString oldOwner ∧
    oldOwner ∈ currentOwners ∧
    inputValue tx "newOwner" = JNull.
Proof.
  intros Hcur Hdes Hne Hfewer.
  destruct (script_after_alignment_bounds _ _ Hcur Hdes Hne)
    as (operations & Hops & Hupper & Hlower & Hbalance).
  pose proof (count_taken_out operations) as Hout.
  pose proof (count_put_in operations) as Hin.
  pose proof (count_all operations) as Hall.
  assert (countOperations isAdd operations = 0) as Hnoadd by lia.
  clear Hupper Hlower Hbalance Hout Hin Hall.
  apply countOperations_zero in Hnoadd.
  destruct (calculateEditOperations_script_count (JString <$> currentOwners)
              (reorderNewOwners currentOwners desiredOwners))
    as (operations' & Hops' & Hscript & _).
  rewrite Hops in Hops'. injection Hops' as <-.
  (* the placeholder is in the aligned list, so the script puts it in *)
  assert (JNull ∈ reorderNewOwners currentOwners desiredOwners) as Hnull.
  { rewrite (reorderNewOwners_multiset _ _ Hcur Hdes Hne), elem_of_app.
    right. apply elem_of_replicate. split; [done|lia]. }
  destruct (editScript_kept_or_in _ _ _ Hscript JNull Hnull) as [Hput|Hcur'].
  2:{ by apply elem_of_JString_fmap in Hcur' as (x & [=] & _). }
  apply list_elem_of_omap in Hput as (op & Hop & Hinserted).
  rewrite Forall_forall in Hnoadd. pose proof (Hnoadd op Hop) as Hnotadd.
  destruct op as [oldOwner newOwner|owner|owner]; simplify_eq/=.
  assert (oldOwner ∈ (JString <$> currentOwners)) as Hold.
  { destruct (editScript_accounts _ _ _ Hscript) as (Hsub & _).
    apply (sublist_subseteq _ _ Hsub). apply list_elem_of_omap.
    by exists (OpSwap oldOwner JNull). }
  apply elem_of_JString_fmap in Hold as (x & -> & Hx).
  (* the loop returns: it has no add to process *)
  destruct (processOperations_without_add safeAddressChecksum threshold
              operations) with (st := initialLoopState currentOwners)
    as [st Hst].
  { by apply Forall_forall. }
  destruct (processOperations_lockstep _ _ _ _ _ Hst)
    as (_ & _ & emitted & Hem & Hlen & Hk).
  simpl in Hem.
  apply list_elem_of_lookup in Hop as [k Hop].
  destruct (Hk k _ Hop) as (lst & _ & Htx).
  unfold buildTransactions. rewrite Hops. simpl.
  fold (initialLoopState currentOwners). rewrite Hst. simpl. rewrite Hem.
  assert (∀ tail,
            descriptorFor safeAddressChecksum threshold lst
              (OpSwap (JString x) JNull) ∈ emitted ++ tail) as Hmember.
  { intros tail. rewrite elem_of_app. left.
    by eapply list_elem_of_lookup_2. }
  destruct (bool_decide (threshold ≠ currentThreshold)); simpl.
  - destruct (negb (ls_hasAddOrRemove st) && existsb isSwap operations).
    + eexists _, _, x. split; [done|]. split; [apply Hmember|done].
    + eexists _, _, x. split; [done|].
      split; [rewrite <-(app_nil_r emitted); apply Hmember|done].
  - eexists _, _, x. split; [done|].
    split; [rewrite <-(app_nil_r emitted); apply Hmember|done].
Qed.

Lemma fewer_desired_owners_swap_in_null_witness :
  ∃ txs tx oldOwner,
    buildTransactions safeOne [ownerA; ownerB; ownerC] 2 [ownerC; ownerD] 2
      = Returned txs ∧
    tx ∈ txs ∧
    method_name (contractMethod tx) = "swapOwner" ∧
    inputValue tx "oldOwner" = JString oldOwner ∧
    oldOwner ∈ [ownerA; ownerB; ownerC] ∧
    inputValue tx "newOwner" = JNull.
Proof.
  apply (fewer_desired_owners_swap_in_null safeOne
           [ownerA; ownerB; ownerC] [ownerC; ownerD] 2 2).
  - apply (bool_decide_unpack _). by vm_compute.
  - apply (bool_decide_unpack _). by vm_compute.
  - apply (bool_decide_unpack _). by vm_compute.
  - simpl. lia.
Defined.

Lemma applicableInOrder_at (operations : list EditOperation) :
  ∀ (L : list jsval) k op,
    applicableInOrder L operations → operations !! k = Some op →
    applicable (replayOperations L (take k operations)) op.
Proof.
  induction operations as [|o ops IH]; intros L k op Happ Hop; [done|].
  destruct Happ as [Ho Hrest]. destruct k as [|k]; simpl in *.
  - by simplify_eq.
  - by apply IH.
Qed.

(** X22. In the guarded revision, for the same inputs, the prevOwner of
    every swapOwner and removeOwner transaction is the true predecessor:
    the owner the transaction takes out is in the owner list obtained by
    replaying the earlier operations on the current owners, and the
    prevOwner is the element just before it in that list, the sentinel
    when it is the first. *)
Theorem guarded_prevOwner_is_predecessor (safeAddressChecksum : string)
    (currentOwners desiredOwners : list string) (threshold : Z) :
  currentOwners ≠ [] →
  NoDup (SENTINEL_OWNERS :: currentOwners) →
  (EmptyString ∉ currentOwners) →
  NoDup (SENTINEL_OWNERS :: desiredOwners) →
  (EmptyString ∉ desiredOwners) →
  ∃ collected st,
    guardedCollect currentOwners
      (Guarded.reorderNewOwners currentOwners desiredOwners)
      = Returned collected ∧
    processOperations safeAddressChecksum threshold
      (guardedInitialLoopState currentOwners)
      (collectedOperations collected) = Returned st ∧
    ∀ k op owner,
      collectedOperations collected !! k = Some op →
      removedOwner op = Some owner →
      ∃ x L tx,
        owner = JString x ∧
        replayOperations (JString <$> currentOwners)
          (take k (collectedOperations collected)) = JString <$> L ∧
        x ∈ L ∧
        ls_transactions st !! k = Some tx ∧
        inputValue tx "prevOwner"
          = JString (predecessorIn SENTINEL_OWNERS L x).
Proof.
  intros Hnonempty Hcur Hne Hdes Hne'.
  pose proof Hcur as [Hs Hcur']%NoDup_cons.
  destruct (guarded_operations_applicable currentOwners desiredOwners)
    as (c & Hrun & Happ & _); [done..|].
  pose proof (guarded_initial_invariant _ Hnonempty Hcur Hne) as Hinit.
  destruct (processOperations_invariant safeAddressChecksum threshold
              (collectedOperations c) (guardedInitialLoopState currentOwners)
              (JString <$> currentOwners))
    as (st & Hst & _); [done..|].
  exists c, st. split_and!; [done..|].
  intros k op owner Hop Howner.
  destruct (processOperations_lockstep _ _ _ _ _ Hst)
    as (_ & _ & emitted & Hem & Hlen & Hk).
  simpl in Hem. rewrite Hem.
  destruct (Hk k op Hop) as (lst & Hlst & Htx).
  (* the simulator before the operation is well formed *)
  destruct (processOperations_invariant safeAddressChecksum threshold
              (take k (collectedOperations c))
              (guardedInitialLoopState currentOwners)
              (JString <$> currentOwners))
    as (stk & Hstk & Hinvk); [done|by apply applicableInOrder_take|].
  destruct (processOperations_lockstep _ _ _ _ _ Hstk) as (Hreplay & _).
  rewrite Hlst in Hreplay. injection Hreplay as ->.
  destruct Hinvk as (L & HL & HndL & _ & Hperm).
  pose proof (applicableInOrder_at _ _ _ _ Happ Hop) as Hthis.
  rewrite HL in Hthis.
  assert (owner ∈ (JString <$> L)) as Hin.
  { destruct op; simpl in Howner, Hthis; simplify_eq; tauto. }
  apply elem_of_JString_fmap in Hin as (x & -> & Hx).
  exists x, L, (descriptorFor safeAddressChecksum threshold
                  (ls_ownerLinkedList stk) op).
  split_and!; [done..|].
  assert (inputValue
            (descriptorFor safeAddressChecksum threshold
               (ls_ownerLinkedList stk) op) "prevOwner"
          = getPrevOwner (JString x) (ls_ownerLinkedList stk)) as ->.
  { destruct op; simpl in Howner; by simplify_eq. }
  by apply getPrevOwner_predecessor.
Qed.

Lemma guarded_prevOwner_is_predecessor_witness :
  ∃ collected st,
    guardedCollect [ownerA; ownerB; ownerC]
      (Guarded.reorderNewOwners [ownerA; ownerB; ownerC] [ownerD])
      = Returned collected ∧
    processOperations safeOne 1
      (guardedInitialLoopState [ownerA; ownerB; ownerC])
      (collectedOperations collected) = Returned st ∧
    ∀ k op owner,
      collectedOperations collected !! k = Some op →
      removedOwner op = Some owner →
      ∃ x L tx,
        owner = JString x ∧
        replayOperations (JString <$> [ownerA; ownerB; ownerC])
          (take k (collectedOperations collected)) = JString <$> L ∧
        x ∈ L ∧
        ls_transactions st !! k = Some tx ∧
        inputValue tx "prevOwner"
          = JString (predecessorIn SENTINEL_OWNERS L x).
Proof.
  apply (guarded_prevOwner_is_predecessor safeOne
           [ownerA; ownerB; ownerC] [ownerD] 1).
  - done.
  - apply (bool_decide_unpack _). by vm_compute.
  - apply (bool_decide_unpack _). by vm_compute.
  - apply (bool_decide_unpack _). by vm_compute.
  - apply (bool_decide_unpack _). by vm_compute.
Defined.
